(** * Folder-structure API: the bounded directory scanner and its request handler

    A shallow embedding of [src/app/api/folder-structure/route.ts]:
    [scanDirectory], [countNodes] and the [POST] handler, followed by the
    properties of the scanner's output tree and of the handler's responses. *)

From Stdlib Require Import List String Ascii ZArith Lia Bool Arith.
From Stdlib Require Import DecimalString DecimalPos Sorted Permutation OrderedTypeEx.
Import ListNotations.

Local Open Scope string_scope.
Local Open Scope list_scope.
Local Open Scope Z_scope.

Set Default Proof Using "Type".

(** ** Outcomes of fallible calls

    A JavaScript call either returns a value or throws; an awaited promise
    either fulfils or rejects.  Both are rendered by [Outcome]. *)

Inductive Exn : Type :=
| ENOENT        (* no such file or directory *)
| EACCES        (* permission denied *)
| ENOTDIR       (* not a directory *)
| TypeError
| SyntaxError.

Inductive Outcome (A : Type) : Type :=
| Returns (a : A)
| Throws (e : Exn).

Arguments Returns {A} a.
Arguments Throws {A} e.

Definition bind {A B} (m : Outcome A) (k : A -> Outcome B) : Outcome B :=
  match m with
  | Returns a => k a
  | Throws e => Throws e
  end.

(** [try { body } catch (error) { handler }] *)
Definition try_catch {A} (body : Outcome A) (handler : Exn -> Outcome A) : Outcome A :=
  match body with
  | Returns a => Returns a
  | Throws e => handler e
  end.

Notation "'await' x <- m ;; k" := (bind m (fun x => k))
  (at level 61, x name, m at next level, right associativity).

(** ** Host platform and [path.join]

    [path.join] is Node's; the scanner calls it with a prefix that is either
    a directory-entry name or the result of an earlier join, and with a
    directory-entry name.  On such arguments (single segments that hold no
    separator and are neither "." nor "..") the normalisation step of
    [path.join] changes nothing, and the result is the non-empty arguments
    glued with the platform separator. *)

Inductive Platform : Type := Posix | Win32.

Module Path.

Definition sep (plat : Platform) : string :=
  match plat with
  | Posix => "/"
  | Win32 => "\"
  end.

Definition join (plat : Platform) (a b : string) : string :=
  match a, b with
  | EmptyString, EmptyString => "."
  | EmptyString, _ => b
  | _, EmptyString => a
  | _, _ => (a ++ sep plat ++ b)%string
  end.

End Path.

(** ** The file system below a directory

    [fs.readdir(dir, { withFileTypes: true })] fulfils with the entries of
    [dir] or rejects.  An entry that is a directory carries what listing it
    will yield in turn, so a value of [Outcome (list Dirent)] is the file
    system below one directory as the scanner can observe it. *)

#[warnings="-register-all"]
Inductive Dirent : Type :=
| FileEnt (name : string)
| DirEnt (name : string) (listing : Outcome (list Dirent)).

Definition dirent_name (d : Dirent) : string :=
  match d with
  | FileEnt n => n
  | DirEnt n _ => n
  end.

Definition isDirectory (d : Dirent) : bool :=
  match d with
  | FileEnt _ => false
  | DirEnt _ _ => true
  end.

(** ** FileNode *)

Inductive NodeType : Type := file | folder.

Definition NodeType_eqb (a b : NodeType) : bool :=
  match a, b with
  | file, file | folder, folder => true
  | _, _ => false
  end.

(** Optional fields are [option]s: [None] is an absent ([undefined]) field. *)
#[warnings="-register-all"]
Inductive FileNode : Type := mkFileNode {
  name : string;
  path : string;
  type : NodeType;
  children : option (list FileNode);
  truncated : option bool;
  totalCount : option nat
}.

(** The elements of [allItems].  [item_scan] is not a field of the source
    object: it is the outcome of [scanDirectory(fullPath, item.path, fileLimit)]
    for this entry, which the source obtains in the second loop from the file
    system at [fullPath = path.join(dirPath, item.name)]; the model attaches it
    to the entry it belongs to when the entry is collected. *)
Record Item : Type := mkItem {
  item_name : string;
  item_path : string;
  item_type : NodeType;
  item_scan : Outcome (list FileNode)
}.

Definition startsWith (s p : string) : bool := String.prefix p s.

Section Scanner.

Variable plat : Platform.

(** [String.prototype.localeCompare]: negative, zero or positive. *)
Variable localeCompare : string -> string -> Z.

Variable fileLimit : Z.

(** *** First pass: collect all items and filter *)

Section FirstPass.

(** The recursive scan of a sub-directory entry under a relative path. *)
Variable scanSub : Dirent -> string -> Outcome (list FileNode).

Variable basePath : string.

Definition relativePath (item : Dirent) : string :=
  if (basePath =? "")%string then dirent_name item
  else Path.join plat basePath (dirent_name item).

Fixpoint collect (items : list Dirent) : list Item :=
  match items with
  | [] => []
  | item :: rest =>
      if startsWith (dirent_name item) "." then collect rest
      else if (dirent_name item =? "node_modules")%string then collect rest
      else if (dirent_name item =? ".git")%string then collect rest
      else
        {| item_name := dirent_name item;
           item_path := relativePath item;
           item_type := if isDirectory item then folder else file;
           item_scan := scanSub item (relativePath item) |}
        :: collect rest
  end.

End FirstPass.

(** *** Sort items: folders first, then files, both alphabetically *)

Definition compareItems (a b : Item) : Z :=
  if NodeType_eqb (item_type a) folder && NodeType_eqb (item_type b) file then -1
  else if NodeType_eqb (item_type a) file && NodeType_eqb (item_type b) folder then 1
  else localeCompare (item_name a) (item_name b).

(** [Array.prototype.sort] is a stable sort by the sign of the comparator;
    stable insertion is its model. *)
Fixpoint insert (x : Item) (l : list Item) : list Item :=
  match l with
  | [] => [x]
  | y :: l' => if compareItems x y <=? 0 then x :: y :: l' else y :: insert x l'
  end.

Fixpoint sort (l : list Item) : list Item :=
  match l with
  | [] => []
  | x :: l' => insert x (sort l')
  end.

(** *** Second pass: process items with file limit *)

Definition nonEmpty (cs : list FileNode) : option (list FileNode) :=
  if 0 <? Z.of_nat (List.length cs) then Some cs else None.

Definition emit (item : Item) : FileNode :=
  match item_type item with
  | folder =>
      (* try { children = await scanDirectory(...) ... } catch { ... } *)
      match item_scan item with
      | Returns cs =>
          {| name := item_name item; path := item_path item; type := folder;
             children := nonEmpty cs; truncated := None; totalCount := None |}
      | Throws _ =>
          {| name := item_name item; path := item_path item; type := folder;
             children := None; truncated := None; totalCount := None |}
      end
  | file =>
      {| name := item_name item; path := item_path item; type := file;
         children := None; truncated := None; totalCount := None |}
  end.

Definition sentinel (basePath : string) (total : nat) : FileNode :=
  {| name := "...";
     path := (basePath ++ "...")%string;
     type := folder;
     children := None;
     truncated := Some true;
     totalCount := Some total |}.

(** The loop [for (let i = 0; i < allItems.length; i++)], entered at index
    [i] with [rest] the items from index [i] on and [nodes] the nodes pushed
    so far; [total] is [allItems.length]. *)
Fixpoint processItems (basePath : string) (total : nat)
    (i : nat) (rest : list Item) (nodes : list FileNode) : list FileNode :=
  match rest with
  | [] => nodes
  | item :: rest' =>
      let nodes := nodes ++ [emit item] in
      if (fileLimit <=? Z.of_nat (List.length nodes))
         && (Z.of_nat i <? Z.of_nat total - 1)
      then removelast nodes ++ [sentinel basePath total]
      else processItems basePath total (S i) rest' nodes
  end.

(** The body of [scanDirectory] inside its [try], given the listing of
    [dirPath] and the scan of its sub-directories. *)
Definition scanBody (scanSub : Dirent -> string -> Outcome (list FileNode))
    (listing : Outcome (list Dirent)) (basePath : string)
    : Outcome (list FileNode) :=
  try_catch
    (await items <- listing ;;
     let allItems := sort (collect scanSub basePath items) in
     Returns (processItems basePath (List.length allItems) 0 allItems []))
    (fun _ => Returns []).

(** [scanDirectory] on a directory entry: a directory is listed, anything
    else makes [fs.readdir] reject. *)
Fixpoint scanEntry (d : Dirent) (basePath : string) {struct d}
    : Outcome (list FileNode) :=
  match d with
  | FileEnt _ => scanBody (fun _ _ => Returns []) (Throws ENOTDIR) basePath
  | DirEnt _ listing => scanBody scanEntry listing basePath
  end.

(** [scanDirectory(dirPath, basePath, fileLimit)], where [listing] is the
    file system below [dirPath]. *)
Definition scanDirectory (listing : Outcome (list Dirent)) (basePath : string)
    : Outcome (list FileNode) :=
  scanBody scanEntry listing basePath.

End Scanner.

(** [countNodes]: [countNode] is one turn of its loop, the node itself and
    then what its children count. *)
Fixpoint countNode (node : FileNode) : nat :=
  S (match children node with
     | Some cs => fold_left (fun count n => (count + countNode n)%nat) cs 0%nat
     | None => 0%nat
     end).

Definition countNodes (nodes : list FileNode) : nat :=
  fold_left (fun count n => (count + countNode n)%nat) nodes 0%nat.

(** ** Strings, numbers, JSON request bodies and [parseInt]

    A JavaScript string is held as its UTF-8 encoding, one [ascii] for each
    byte, so that every string has its model.  Comparing two strings, gluing
    strings and testing for a prefix or a substring go over to the encodings
    unchanged.  The two places that look at single characters read them from
    the encoding: the white space [parseInt] skips, and the first character
    the allow-list turns to upper case. *)

(** The UTF-8 encoding of a code point. *)
Definition utf8 (codePoint : N) : string :=
  let byte (n : N) := ascii_of_N n in
  (if codePoint <? 128 then String (byte codePoint) ""
   else if codePoint <? 2048 then
     String (byte (192 + codePoint / 64))
       (String (byte (128 + codePoint mod 64)) "")
   else if codePoint <? 65536 then
     String (byte (224 + codePoint / 4096))
       (String (byte (128 + (codePoint / 64) mod 64))
          (String (byte (128 + codePoint mod 64)) ""))
   else
     String (byte (240 + codePoint / 262144))
       (String (byte (128 + (codePoint / 4096) mod 64))
          (String (byte (128 + (codePoint / 64) mod 64))
             (String (byte (128 + codePoint mod 64)) ""))))%N.

(** A JavaScript number is a double.  The handler tests a number for zero and
    converts it to a string, and does nothing else with one, so a number is
    held as [Number::toString] reads it (ECMA-262, Number::toString, step 5):
    it is a zero, an infinity, or a sign with the integers [s] and [n] of its
    shortest decimal form, [s] being the digits, without a zero at either
    end, and [n] the place of the decimal point: the number is [0.s] times
    [10 ^ n], so that 500 is [s = 5, n = 3], 0.25 is [s = 25, n = 0] and
    1e21 is [s = 1, n = 22].  Every finite double other than zero has one such
    form and is read back from it.  A request body holds no NaN (JSON has no
    numeral for it); 1e999 is read as Infinity and -0 as the negative zero. *)
Inductive JNumber : Type :=
| Zero (negative : bool)
| Infinity (negative : bool)
| Digits (negative : bool) (s : positive) (n : Z).

Module Number.

(** The decimal digits of [s]. *)
Definition digitsOf (s : positive) : string :=
  NilEmpty.string_of_uint (Pos.to_uint s).

Fixpoint zeros (count : nat) : string :=
  match count with
  | O => ""
  | S count' => String "0" (zeros count')
  end.

Fixpoint firstChars (count : nat) (s : string) : string :=
  match count, s with
  | S count', String c s' => String c (firstChars count' s')
  | _, _ => ""
  end.

Fixpoint dropChars (count : nat) (s : string) : string :=
  match count, s with
  | S count', String _ s' => dropChars count' s'
  | _, _ => s
  end.

(** [Number::toString(x, 10)]: with [k] the number of digits of [s], the
    digits followed by zeros when [k <= n <= 21], the digits with the point
    inside them when [0 < n <= 21], the digits after "0." and zeros when
    [-6 < n <= 0], and otherwise the first digit, the other digits after a
    point, and the exponent [n - 1]. *)
Definition toString (x : JNumber) : string :=
  match x with
  | Zero _ => "0"
  | Infinity negative => if negative then "-Infinity" else "Infinity"
  | Digits negative s n =>
      let digits := digitsOf s in
      let k := Z.of_nat (String.length digits) in
      let magnitude :=
        if (-5 <=? n) && (n <=? 21) then
          if k <=? n then (digits ++ zeros (Z.to_nat (n - k)))%string
          else if 0 <? n then
            (firstChars (Z.to_nat n) digits ++ "."
             ++ dropChars (Z.to_nat n) digits)%string
          else ("0." ++ zeros (Z.to_nat (- n)) ++ digits)%string
        else
          let exponentSign := if n - 1 <? 0 then "-" else "+" in
          let exponentDigits :=
            match Z.abs (n - 1) with
            | Z.pos e => digitsOf e
            | _ => "0"
            end in
          let exponent := (exponentSign ++ exponentDigits)%string in
          match digits with
          | String d EmptyString => String d ("e" ++ exponent)
          | String d more => String d ("." ++ more ++ "e" ++ exponent)
          | EmptyString => EmptyString
          end in
      if negative then ("-" ++ magnitude)%string else magnitude
  end.

(** [s] without the zeros at its end, and how many they were added to
    [count]. *)
Fixpoint stripZeros (fuel : nat) (s : Z) (count : Z) : Z * Z :=
  match fuel with
  | O => (s, count)
  | S fuel' =>
      if s mod 10 =? 0 then stripZeros fuel' (s / 10) (count + 1) else (s, count)
  end.

(** The number that is the integer [z], for a [z] that a double holds with
    its own digits as the shortest form, as every integer from [-2^53] to
    [2^53] is: the digits of [z] up to its last zeros, and the point after
    all the digits of [z]. *)
Definition ofInteger (z : Z) : JNumber :=
  match z with
  | 0 => Zero false
  | _ =>
      let '(s, count) := stripZeros (Z.to_nat (Z.log2 (Z.abs z))) (Z.abs z) 0 in
      Digits (z <? 0) (Z.to_pos s)
        (Z.of_nat (String.length (digitsOf (Z.to_pos s))) + count)
  end.

End Number.

(** An integer of the source, as [fileLimit = 20], is the number it writes. *)
Coercion Number.ofInteger : Z >-> JNumber.

Arguments Number.ofInteger : simpl never.

(** A parsed JSON value. *)
#[warnings="-register-all"]
Inductive JValue : Type :=
| JUndefined
| JNull
| JBool (b : bool)
| JNum (x : JNumber)
| JStr (s : string)
| JArr (elements : list JValue)
| JObj (fields : list (string * JValue)).

Module Json.

(** Property lookup on a parsed object: the last occurrence of a key wins. *)
Fixpoint lookup (key : string) (fields : list (string * JValue)) : option JValue :=
  match fields with
  | [] => None
  | (k, v) :: rest =>
      match lookup key rest with
      | Some v' => Some v'
      | None => if (k =? key)%string then Some v else None
      end
  end.

(** [value[key]] for the keys the handler reads; reading a property of
    [null] or [undefined] throws. *)
Definition get (value : JValue) (key : string) : Outcome JValue :=
  match value with
  | JUndefined | JNull => Throws TypeError
  | JObj fields =>
      match lookup key fields with
      | Some v => Returns v
      | None => Returns JUndefined
      end
  | _ => Returns JUndefined
  end.

(** [!value] is [negb (truthy value)]. *)
Definition truthy (value : JValue) : bool :=
  match value with
  | JUndefined | JNull => false
  | JBool b => b
  | JNum (Zero _) => false
  | JNum _ => true
  | JStr s => negb (s =? "")%string
  | JArr _ | JObj _ => true
  end.


(** A destructuring default: it replaces [undefined] only. *)
Definition orDefault (value dflt : JValue) : JValue :=
  match value with
  | JUndefined => dflt
  | _ => value
  end.

(** The string of an integer inside a template literal. *)
Definition numberToString (n : Z) : string := Number.toString n.

(** [String(value)].  An object whose own [toString] member shadows
    [Object.prototype.toString] has no callable conversion left (a JSON
    member is never a function), and converting it throws. *)
Fixpoint toString (value : JValue) : Outcome string :=
  match value with
  | JUndefined => Returns "undefined"
  | JNull => Returns "null"
  | JBool true => Returns "true"
  | JBool false => Returns "false"
  | JNum x => Returns (Number.toString x)
  | JStr s => Returns s
  | JArr elements =>
      (fix joinElements (vs : list JValue) : Outcome string :=
         match vs with
         | [] => Returns ""
         | v :: rest =>
             await head <- match v with
                           | JUndefined | JNull => Returns ""
                           | _ => toString v
                           end ;;
             match rest with
             | [] => Returns head
             | _ :: _ =>
                 await tail <- joinElements rest ;;
                 Returns (head ++ "," ++ tail)%string
             end
         end) elements
  | JObj fields =>
      match lookup "toString" fields with
      | Some _ => Throws TypeError
      | None => Returns "[object Object]"
      end
  end.

End Json.

(** [parseInt(string)] without a radix; [None] is [NaN].  The integer read
    is kept exact: the handler compares it with 0, 1 and 100 only, which
    rounding it to a double does not change. *)
Module ParseInt.

(** The white space and line terminators of one byte: TAB, LF, VT, FF, CR
    and the space. *)
Definition isWhiteSpace (c : ascii) : bool :=
  let n := nat_of_ascii c in
  ((9 <=? n) && (n <=? 13) || (n =? 32))%nat.

(** Of two bytes: the no-break space U+00A0. *)
Definition isWhiteSpace2 (c1 c2 : ascii) : bool :=
  ((nat_of_ascii c1 =? 194) && (nat_of_ascii c2 =? 160))%nat.

(** Of three bytes: U+1680, U+2000 to U+200A, the line and paragraph
    separators U+2028 and U+2029, U+202F, U+205F, U+3000 and the byte order
    mark U+FEFF. *)
Definition isWhiteSpace3 (c1 c2 c3 : ascii) : bool :=
  let n1 := nat_of_ascii c1 in
  let n2 := nat_of_ascii c2 in
  let n3 := nat_of_ascii c3 in
  ((n1 =? 225) && (n2 =? 154) && (n3 =? 128)
   || (n1 =? 226) && (n2 =? 128)
      && ((128 <=? n3) && (n3 <=? 138)
          || (n3 =? 168) || (n3 =? 169) || (n3 =? 175))
   || (n1 =? 226) && (n2 =? 129) && (n3 =? 159)
   || (n1 =? 227) && (n2 =? 128) && (n3 =? 128)
   || (n1 =? 239) && (n2 =? 187) && (n3 =? 191))%nat.

(** [TrimString(s, start)] *)
Fixpoint trimStart (s : string) : string :=
  match s with
  | String c1 s1 =>
      if isWhiteSpace c1 then trimStart s1
      else
        match s1 with
        | String c2 s2 =>
            if isWhiteSpace2 c1 c2 then trimStart s2
            else
              match s2 with
              | String c3 s3 => if isWhiteSpace3 c1 c2 c3 then trimStart s3 else s
              | EmptyString => s
              end
        | EmptyString => s
        end
  | EmptyString => EmptyString
  end.

Definition digitValue (c : ascii) : option Z :=
  let n := Z.of_nat (nat_of_ascii c) in
  if (48 <=? n) && (n <=? 57) then Some (n - 48)
  else if (97 <=? n) && (n <=? 122) then Some (n - 87)
  else if (65 <=? n) && (n <=? 90) then Some (n - 55)
  else None.

Definition isDigit (radix : Z) (c : ascii) : bool :=
  match digitValue c with
  | Some d => d <? radix
  | None => false
  end.

(** The value of the longest prefix of [s] made of radix-[radix] digits,
    read after the digits valued [acc]. *)
Fixpoint parseDigits (radix : Z) (s : string) (acc : Z) : Z :=
  match s with
  | String c s' =>
      match digitValue c with
      | Some d => if d <? radix then parseDigits radix s' (acc * radix + d) else acc
      | None => acc
      end
  | EmptyString => acc
  end.

Definition firstIs (test : ascii -> bool) (s : string) : bool :=
  match s with
  | String c _ => test c
  | EmptyString => false
  end.

(** The number written at the start of [s], in radix 16 after a 0x and in
    radix 10 otherwise; [None] when no digit is there. *)
Definition parseUnsigned (s : string) : option Z :=
  let stripPrefix := startsWith s "0x" || startsWith s "0X" in
  let radix := if stripPrefix then 16 else 10 in
  let s := if stripPrefix then Number.dropChars 2 s else s in
  if firstIs (isDigit radix) s then Some (parseDigits radix s 0) else None.

Definition parseIntString (input : string) : option Z :=
  let s := trimStart input in
  let sign := if startsWith s "-" then -1 else 1 in
  let s := if startsWith s "+" || startsWith s "-" then Number.dropChars 1 s else s in
  match parseUnsigned s with
  | Some mathInt => Some (sign * mathInt)
  | None => None
  end.

Definition parseInt (value : JValue) : Outcome (option Z) :=
  await inputString <- Json.toString value ;;
  Returns (parseIntString inputString).

End ParseInt.

(** ** The POST handler *)

(** [NextResponse.json(body, { status })]: the success body or an error
    message with its status. *)
Inductive Response : Type :=
| Success (structure : list FileNode) (path : string) (count : nat) (fileLimit : Z)
| Failure (error : string) (status : Z).

(** [haystack.includes(needle)] *)
Fixpoint includes (haystack needle : string) : bool :=
  String.prefix needle haystack ||
  match haystack with
  | String _ rest => includes rest needle
  | EmptyString => false
  end.

Definition toUpperCase (c : ascii) : ascii :=
  let n := nat_of_ascii c in
  if ((97 <=? n) && (n <=? 122))%nat then ascii_of_nat (n - 32) else c.

(** [s.charAt(0).toUpperCase()] where it is one ASCII character: the upper
    case of an ASCII first character, and I and S for the two characters
    beyond ASCII that have an ASCII letter as their upper case, the dotless i
    (U+0131) and the long s (U+017F).  Of any other first character the upper
    case is no ASCII character, and the empty string has no first
    character. *)
Definition upperOfFirst (s : string) : option ascii :=
  match s with
  | String c _ =>
      if (nat_of_ascii c <? 128)%nat then Some (toUpperCase c)
      else if startsWith s (utf8 305) then Some "I"%char
      else if startsWith s (utf8 383) then Some "S"%char
      else None
  | EmptyString => None
  end.

Definition validDrives : list ascii :=
  ["C"; "D"; "E"; "F"; "G"; "H"; "I"; "J"; "K"; "L"; "M"; "N"; "O"; "P"; "Q";
   "R"; "S"; "T"; "U"; "V"; "W"; "X"; "Y"; "Z"]%char.

(** What the handler reads from its environment: [process.platform],
    [process.cwd()], Node's [path.isAbsolute] and [path.resolve], the collation
    behind [localeCompare], and the file system through [fs.stat] (does the
    path name a directory, or does the call reject) and [fs.readdir]. *)
Record Host : Type := mkHost {
  platform : Platform;
  cwd : string;
  isAbsolute : string -> bool;
  resolve : list string -> string;
  collate : string -> string -> Z;
  stat : string -> Outcome bool;
  readdir : string -> Outcome (list Dirent)
}.

Section Handler.

Variable host : Host.

(** [Math.max(1, Math.min(100, parseInt(fileLimit) || 20))] *)
Definition validateLimit (fileLimit : JValue) : Outcome Z :=
  await parsed <- ParseInt.parseInt fileLimit ;;
  let parsedOr20 :=      (* [NaN] and 0 are falsy *)
    match parsed with
    | Some n => if n =? 0 then 20 else n
    | None => 20
    end in
  Returns (Z.max 1 (Z.min 100 parsedOr20)).

Definition isAllowed (resolvedPath : string) : bool :=
  match platform host with
  | Win32 =>
      match upperOfFirst resolvedPath with
      | Some driveLetter =>
          existsb (Ascii.eqb driveLetter) validDrives
          && includes resolvedPath ":\"
      | None => false
      end
  | Posix =>
      startsWith resolvedPath (cwd host)
      || startsWith resolvedPath "/tmp"
      || startsWith resolvedPath "/home"
      || startsWith resolvedPath "/Users"
      || startsWith resolvedPath "/var/tmp"
  end.

(** [targetPath] and then [resolvedPath] for a requested path. *)
Definition resolvePath (requestedPath : string) : string :=
  let targetPath :=
    if startsWith requestedPath "." then
      resolve host [cwd host; requestedPath]
    else if isAbsolute host requestedPath then requestedPath
    else resolve host [cwd host; requestedPath] in
  resolve host [targetPath].

(** The handler's [try] block; [request] is the outcome of
    [request.json()]. *)
Definition handle (request : Outcome JValue) : Outcome Response :=
  await body <- request ;;
  await requestedPath <- Json.get body "path" ;;
  await fileLimit <- Json.get body "fileLimit" ;;
  let fileLimit := Json.orDefault fileLimit (JNum 20) in
  if negb (Json.truthy requestedPath) then
    Returns (Failure "Path is required" 400)
  else
    await limit <- validateLimit fileLimit ;;
    match requestedPath with
    | JStr requestedPath =>
        let resolvedPath := resolvePath requestedPath in
        if negb (isAllowed resolvedPath) then
          Returns (Failure "Access to this path is not allowed" 403)
        else
          match stat host resolvedPath with
          | Throws _ => Returns (Failure "Directory not found" 404)
          | Returns false => Returns (Failure "Path must be a directory" 400)
          | Returns true =>
              await structure <-
                scanDirectory (platform host) (collate host) limit
                  (readdir host resolvedPath) "" ;;
              Returns (Success structure resolvedPath (countNodes structure) limit)
          end
    | _ => Throws TypeError    (* requestedPath.startsWith is not a function *)
    end.

Definition POST (request : Outcome JValue) : Response :=
  match handle request with
  | Returns response => response
  | Throws _ => Failure "Internal server error" 500
  end.

End Handler.

(** ** The page: request body and text exports

    From [src/app/page.tsx] (the [Home] component) and
    [src/components/folder-tree.tsx] (the [TreeNode] component): the pure
    parts, which read the tree the handler returned. *)

Definition newline : string := String (ascii_of_nat 10) EmptyString.

Module Page.

(** [a || b] on strings: the empty string is falsy. *)
Definition orElse (a b : string) : string :=
  if (a =? "")%string then b else a.

(** The body [handleFolderSelect(path)] posts, [path] being optional:
    [{ path: path || selectedPath || '.', fileLimit }].  A string and an
    integer pass through [JSON.stringify] and [request.json()] unchanged. *)
Definition requestBody (path : option string) (selectedPath : string)
    (fileLimit : Z) : JValue :=
  let given := match path with Some p => p | None => "" end in
  JObj [("path", JStr (orElse (orElse given selectedPath) "."));
        ("fileLimit", JNum fileLimit)].

(** The [onChange] of the limit input: the next [fileLimit] state for the
    text in the input,
    [Math.max(1, Math.min(100, parseInt(e.target.value) || 20))]. *)
Definition limitFromInput (value : string) : Z :=
  let parsedOr20 :=
    match ParseInt.parseIntString value with
    | Some n => if n =? 0 then 20 else n
    | None => 20
    end in
  Z.max 1 (Z.min 100 parsedOr20).

(** The values the [fileLimit] state takes: [useState(20)] and then what
    [onChange] sets. *)
Inductive LimitState : Z -> Prop :=
| LimitState_initial : LimitState 20
| LimitState_changed (value : string) : LimitState (limitFromInput value).

(** ['  '.repeat(indent)] *)
Fixpoint indentStr (indent : nat) : string :=
  match indent with
  | O => ""
  | S k => ("  " ++ indentStr k)%string
  end.

(** [node.totalCount - (node.children?.length || 0)] *)
Definition moreFiles (total : nat) (node : FileNode) : Z :=
  Z.of_nat total
  - match children node with
    | Some cs => Z.of_nat (List.length cs)
    | None => 0
    end.

(** [node.truncated && node.totalCount]: the count when both are truthy. *)
Definition truncatedCount (node : FileNode) : option nat :=
  match truncated node, totalCount node with
  | Some true, Some total => if (total =? 0)%nat then None else Some total
  | _, _ => None
  end.

Section Exports.

(** The two pictographs the templates put before a folder and a file name. *)
Variable folderMark fileMark : string.

(** One turn of the loop of [generateTextStructure] at [indent]. *)
Fixpoint textOfNode (indent : nat) (node : FileNode) : string :=
  match type node with
  | folder =>
      (indentStr indent ++ folderMark ++ " " ++ name node ++ newline)
      ++ match children node with
         | Some (c :: cs) =>
             fold_left (fun result n => result ++ textOfNode (S indent) n)
               (c :: cs) ""
         | _ => ""
         end
      ++ match truncatedCount node with
         | Some total =>
             indentStr indent ++ "  ... ("
             ++ Json.numberToString (moreFiles total node) ++ " more files)"
             ++ newline
         | None => ""
         end
  | file => indentStr indent ++ fileMark ++ " " ++ name node ++ newline
  end%string.

Definition generateTextStructure (nodes : list FileNode) (indent : nat) : string :=
  fold_left (fun result n => (result ++ textOfNode indent n)%string) nodes "".

(** One turn of the loop of [generateMarkdownStructure] at [indent]. *)
Fixpoint markdownOfNode (indent : nat) (node : FileNode) : string :=
  match type node with
  | folder =>
      (indentStr indent ++ "- " ++ folderMark ++ " **" ++ name node ++ "**"
       ++ newline)
      ++ match children node with
         | Some (c :: cs) =>
             fold_left (fun result n => result ++ markdownOfNode (S indent) n)
               (c :: cs) ""
         | _ => ""
         end
      ++ match truncatedCount node with
         | Some total =>
             indentStr indent ++ "  - *... ("
             ++ Json.numberToString (moreFiles total node) ++ " more files)*"
             ++ newline
         | None => ""
         end
  | file => indentStr indent ++ "- " ++ fileMark ++ " " ++ name node ++ newline
  end%string.

Definition generateMarkdownStructure (nodes : list FileNode) (indent : nat)
    : string :=
  fold_left (fun result n => (result ++ markdownOfNode indent n)%string) nodes "".

End Exports.

(** The number [TreeNode] renders for a truncated node:
    [node.totalCount && node.children
       ? node.totalCount - node.children.length : 0]. *)
Definition moreFilesShown (node : FileNode) : Z :=
  match totalCount node, children node with
  | Some total, Some cs =>
      if (total =? 0)%nat then 0 else Z.of_nat total - Z.of_nat (List.length cs)
  | _, _ => 0
  end.

End Page.

(** * Vocabulary of the properties *)

(** What the first pass keeps. *)
Definition visible (entryName : string) : bool :=
  negb (startsWith entryName ".")
  && negb (entryName =? "node_modules")%string
  && negb (entryName =? ".git")%string.

Definition isSentinel (n : FileNode) : bool :=
  match truncated n with
  | Some true => true
  | _ => false
  end.

Section Vocabulary.

Variable plat : Platform.
Variable localeCompare : string -> string -> Z.
Variable fileLimit : Z.

(** [allItems] after the sort, for the directory that lists [items]. *)
Definition allItems (basePath : string) (items : list Dirent) : list Item :=
  sort localeCompare
    (collect plat (scanEntry plat localeCompare fileLimit) basePath items).

(** The number of entries of a listing that pass the filter. *)
Definition filteredCount (items : list Dirent) : nat :=
  List.length (filter (fun d => visible (dirent_name d)) items).

(** Where a node of one level comes from: it is the sentinel, or it stands
    for a visible entry of the listing. *)
Inductive NodeOf (basePath : string) (items : list Dirent) (n : FileNode) : Prop :=
| NodeOf_sentinel :
    n = sentinel basePath (filteredCount items) ->
    NodeOf basePath items n
| NodeOf_file (entryName : string) :
    In (FileEnt entryName) items ->
    visible entryName = true ->
    n = {| name := entryName;
           path := relativePath plat basePath (FileEnt entryName);
           type := file;
           children := None; truncated := None; totalCount := None |} ->
    NodeOf basePath items n
| NodeOf_folder (entryName : string) (listing : Outcome (list Dirent))
    (cs : list FileNode) :
    In (DirEnt entryName listing) items ->
    visible entryName = true ->
    scanDirectory plat localeCompare fileLimit listing
      (relativePath plat basePath (DirEnt entryName listing)) = Returns cs ->
    n = {| name := entryName;
           path := relativePath plat basePath (DirEnt entryName listing);
           type := folder;
           children := nonEmpty cs; truncated := None; totalCount := None |} ->
    NodeOf basePath items n.

(** ** The levels of a result tree

    A level is one sibling sequence of the tree together with the folder node
    it hangs under ([None] for the sequence [scanDirectory] returns). *)

Fixpoint levelsBelow (n : FileNode) : list (option FileNode * list FileNode) :=
  match children n with
  | Some cs => (Some n, cs) :: flat_map levelsBelow cs
  | None => []
  end.

Definition levels (nodes : list FileNode) : list (option FileNode * list FileNode) :=
  (None, nodes) :: flat_map levelsBelow nodes.

(** The [basePath] a level was scanned under. *)
Definition prefixOf (basePath : string) (parent : option FileNode) : string :=
  match parent with
  | Some p => path p
  | None => basePath
  end.

(** The listings of a file system: its own and those of the directories
    found in them. *)
Inductive Within (root : Outcome (list Dirent)) : Outcome (list Dirent) -> Prop :=
| Within_root : Within root root
| Within_sub (items : list Dirent) (entryName : string)
    (sub : Outcome (list Dirent)) :
    Within root (Returns items) ->
    In (DirEnt entryName sub) items ->
    Within root sub.

(** What is known of a level of the result of scanning [root] under
    [basePath]: it is the scan of a directory of [root] under the level's
    prefix, and the folder node above it stands for an entry of [root]. *)
Definition LevelOf (root : Outcome (list Dirent)) (basePath : string)
    (parent : option FileNode) (sibs : list FileNode) : Prop :=
  exists listing,
    Within root listing
    /\ scanDirectory plat localeCompare fileLimit listing (prefixOf basePath parent)
       = Returns sibs
    /\ match parent with
       | None => listing = root
       | Some p =>
           exists b items,
             Within root (Returns items)
             /\ NodeOf b items p
             /\ truncated p = None
       end.

End Vocabulary.

(** Every node of a tree with the names of the folder nodes above it, outermost
    first. *)
Fixpoint locatedBelow (above : list string) (n : FileNode)
    : list (list string * FileNode) :=
  (above, n)
  :: match children n with
     | Some cs => flat_map (locatedBelow (above ++ [name n])) cs
     | None => []
     end.

Definition located (nodes : list FileNode) : list (list string * FileNode) :=
  flat_map (locatedBelow []) nodes.

(** A directory entry is named by one path segment: a non-empty string that
    holds no separator of the platform. *)
Definition isSegment (plat : Platform) (entryName : string) : bool :=
  negb (entryName =? "")%string
  && negb (includes entryName "/")
  && match plat with
     | Posix => true
     | Win32 => negb (includes entryName "\")
     end.

(** [ok] holds of the name of every entry of a file system. *)
Fixpoint entryAll (ok : string -> bool) (d : Dirent) : bool :=
  ok (dirent_name d)
  && match d with
     | DirEnt _ (Returns items) => forallb (entryAll ok) items
     | _ => true
     end.

Definition listingAll (ok : string -> bool) (listing : Outcome (list Dirent)) : bool :=
  match listing with
  | Returns items => forallb (entryAll ok) items
  | Throws _ => true
  end.

(** The order of two siblings, the first before the second: no file before a
    folder, and names of one kind in the order of [localeCompare]. *)
Definition nodeOrder (localeCompare : string -> string -> Z)
    (a b : FileNode) : Prop :=
  (type a = file -> type b = file)
  /\ (type a = type b -> localeCompare (name a) (name b) <= 0).

(** A collation to run the scanner with: the order of the bytes, which is
    how the usual locales order lower-case ASCII names. *)
Definition ordinalCompare (a b : string) : Z :=
  match String.compare a b with
  | Lt => -1
  | Eq => 0
  | Gt => 1
  end.



(** The digits of a numeral in a radix, and the integer they write. *)
Fixpoint digitsIn (radix : Z) (text : string) : option (list Z) :=
  match text with
  | EmptyString => Some []
  | String c rest =>
      match ParseInt.digitValue c, digitsIn radix rest with
      | Some d, Some ds => if d <? radix then Some (d :: ds) else None
      | _, _ => None
      end
  end.

Fixpoint positional (radix : Z) (ds : list Z) : Z :=
  match ds with
  | [] => 0
  | d :: rest => d * radix ^ Z.of_nat (List.length rest) + positional radix rest
  end.

(** The limit applied for the integer [parseInt] read: the integer clamped
    to [1, 100], and the default for 0. *)
Definition clamped (parsed : Z) : Z :=
  if parsed =? 0 then 20 else Z.max 1 (Z.min 100 parsed).

(** The error responses of the handler, by failure category. *)
Definition InvalidInput : Response := Failure "Path is required" 400.
Definition AccessDenied : Response := Failure "Access to this path is not allowed" 403.
Definition NotFound : Response := Failure "Directory not found" 404.
Definition NotADirectory : Response := Failure "Path must be a directory" 400.
Definition InternalError : Response := Failure "Internal server error" 500.

(** The strings of a list, glued in their order. *)
Definition pieces (parts : list string) : string :=
  fold_right String.append "" parts.

(** The shape the two exports share: a folder node gives a head line, the
    export of its children one level deeper and a tail; a file node gives one
    line. *)
Section Render.

Variable head tail leaf : nat -> FileNode -> string.

Fixpoint renderNode (indent : nat) (node : FileNode) : string :=
  match type node with
  | folder =>
      head indent node
      ++ match children node with
         | Some (c :: cs) =>
             fold_left (fun result n => result ++ renderNode (S indent) n)
               (c :: cs) ""
         | _ => ""
         end
      ++ tail indent node
  | file => leaf indent node
  end%string.

Definition render (nodes : list FileNode) (indent : nat) : string :=
  fold_left (fun result n => (result ++ renderNode indent n)%string) nodes "".

(** What a node adds by itself, at its place below the folders [above]: a
    folder its head line and its tail, a file its line. *)
Definition renderEntry (place : list string * FileNode) : string :=
  let depth := List.length (fst place) in
  match type (snd place) with
  | folder => (head depth (snd place) ++ tail depth (snd place))%string
  | file => leaf depth (snd place)
  end.

End Render.

(** The lines of the text export and of the Markdown export: the line of a
    folder, the line after a truncated folder, the line of a file. *)
Definition textHead (folderMark : string) (indent : nat) (node : FileNode) : string :=
  (Page.indentStr indent ++ folderMark ++ " " ++ name node ++ newline)%string.

Definition textLeaf (fileMark : string) (indent : nat) (node : FileNode) : string :=
  (Page.indentStr indent ++ fileMark ++ " " ++ name node ++ newline)%string.

Definition textMore (indent : nat) (count : Z) : string :=
  (Page.indentStr indent ++ "  ... (" ++ Json.numberToString count
   ++ " more files)" ++ newline)%string.

Definition textTail (indent : nat) (node : FileNode) : string :=
  match Page.truncatedCount node with
  | Some total => textMore indent (Page.moreFiles total node)
  | None => ""
  end.

Definition markdownHead (folderMark : string) (indent : nat) (node : FileNode)
    : string :=
  (Page.indentStr indent ++ "- " ++ folderMark ++ " **" ++ name node ++ "**"
   ++ newline)%string.

Definition markdownLeaf (fileMark : string) (indent : nat) (node : FileNode)
    : string :=
  (Page.indentStr indent ++ "- " ++ fileMark ++ " " ++ name node ++ newline)%string.

Definition markdownMore (indent : nat) (count : Z) : string :=
  (Page.indentStr indent ++ "  - *... (" ++ Json.numberToString count
   ++ " more files)*" ++ newline)%string.

Definition markdownTail (indent : nat) (node : FileNode) : string :=
  match Page.truncatedCount node with
  | Some total => markdownMore indent (Page.moreFiles total node)
  | None => ""
  end.

(** The text a node of a scan result has in the text export and in the
    Markdown export, at its place below the folders [above]: its line, at two
    spaces for each folder above it, and after the line of a node that
    carries a [totalCount] the line of the "more files", two spaces
    deeper. *)
Definition textEntry (folderMark fileMark : string)
    (place : list string * FileNode) : string :=
  let indent := Page.indentStr (List.length (fst place)) in
  let node := snd place in
  match type node with
  | folder =>
      ((indent ++ folderMark ++ " " ++ name node ++ newline)
       ++ match totalCount node with
          | Some total =>
              indent ++ "  ... (" ++ Json.numberToString (Z.of_nat total)
              ++ " more files)" ++ newline
          | None => ""
          end)%string
  | file => (indent ++ fileMark ++ " " ++ name node ++ newline)%string
  end.

Definition markdownEntry (folderMark fileMark : string)
    (place : list string * FileNode) : string :=
  let indent := Page.indentStr (List.length (fst place)) in
  let node := snd place in
  match type node with
  | folder =>
      ((indent ++ "- " ++ folderMark ++ " **" ++ name node ++ "**" ++ newline)
       ++ match totalCount node with
          | Some total =>
              indent ++ "  - *... (" ++ Json.numberToString (Z.of_nat total)
              ++ " more files)*" ++ newline
          | None => ""
          end)%string
  | file => (indent ++ "- " ++ fileMark ++ " " ++ name node ++ newline)%string
  end.

(** A request the handler cannot read: its body is no JSON or is [null], or
    its path is truthy while its [fileLimit] cannot be converted to a string
    or the path is no string. *)
Definition Malformed (request : Outcome JValue) : Prop :=
  (exists e, request = Throws e)
  \/ request = Returns JNull
  \/ request = Returns JUndefined
  \/ (exists body requested fileLimit,
        request = Returns body
        /\ Json.get body "path" = Returns requested
        /\ Json.get body "fileLimit" = Returns fileLimit
        /\ Json.truthy requested = true
        /\ ((exists e,
               validateLimit (Json.orDefault fileLimit (JNum 20)) = Throws e)
            \/ (forall s, requested <> JStr s))).

(** A host to run the handler on: a POSIX machine with working directory
    [/srv/app], where [/tmp/project] is a directory with an unreadable
    sub-directory, [/tmp/locked] a directory that cannot be listed and
    [/tmp/notes.txt] a file.  Its [resolve] lets an absolute segment replace
    what precedes it and appends a relative one. *)
Definition sampleHost : Host :=
  {| platform := Posix;
     cwd := "/srv/app";
     isAbsolute := fun p => startsWith p "/";
     resolve := fun segments =>
       fold_left (fun acc seg =>
                    if startsWith seg "/" then seg else (acc ++ "/" ++ seg)%string)
                 segments "/srv/app";
     collate := ordinalCompare;
     stat := fun p =>
       if (p =? "/tmp/project")%string then Returns true
       else if (p =? "/tmp/locked")%string then Returns true
       else if (p =? "/tmp/notes.txt")%string then Returns false
       else Throws ENOENT;
     readdir := fun p =>
       if (p =? "/tmp/project")%string then
         Returns [FileEnt "b.txt"; DirEnt "src" (Returns [FileEnt "main.ts"]);
                  FileEnt ".env"; DirEnt "private" (Throws EACCES)]
       else if (p =? "/tmp/locked")%string then Throws EACCES
       else Throws ENOENT |}.

Definition requestFor (requestedPath : string) : Outcome JValue :=
  Returns (JObj [("path", JStr requestedPath)]).

(** A directory entry nests its listing and a node its children, so induction
    on either needs the elements of the nested list as hypotheses. *)

Section DirentInduction.

Variable P : Dirent -> Prop.
Hypothesis P_file : forall n, P (FileEnt n).
Hypothesis P_unreadable : forall n e, P (DirEnt n (Throws e)).
Hypothesis P_dir : forall n items, Forall P items -> P (DirEnt n (Returns items)).

Fixpoint Dirent_nested_ind (d : Dirent) : P d :=
  match d with
  | FileEnt n => P_file n
  | DirEnt n (Throws e) => P_unreadable n e
  | DirEnt n (Returns items) =>
      P_dir n items
        ((fix entries (l : list Dirent) : Forall P l :=
            match l with
            | [] => Forall_nil P
            | d' :: l' => Forall_cons d' (Dirent_nested_ind d') (entries l')
            end) items)
  end.

End DirentInduction.

Section FileNodeInduction.

Variable P : FileNode -> Prop.
Hypothesis P_leaf :
  forall nm pth ty tr tc, P (mkFileNode nm pth ty None tr tc).
Hypothesis P_node :
  forall nm pth ty cs tr tc, Forall P cs -> P (mkFileNode nm pth ty (Some cs) tr tc).

Fixpoint FileNode_nested_ind (n : FileNode) : P n :=
  match n with
  | mkFileNode nm pth ty None tr tc => P_leaf nm pth ty tr tc
  | mkFileNode nm pth ty (Some cs) tr tc =>
      P_node nm pth ty cs tr tc
        ((fix nodes (l : list FileNode) : Forall P l :=
            match l with
            | [] => Forall_nil P
            | n' :: l' => Forall_cons n' (FileNode_nested_ind n') (nodes l')
            end) cs)
  end.

End FileNodeInduction.

(** * Properties *)

(** ** The two passes of one directory *)

Lemma In_firstn {A : Type} (k : nat) (l : list A) (x : A) :
  In x (firstn k l) -> In x l.
Proof.
  intros Hin. rewrite <- (firstn_skipn k l). apply in_or_app. now left.
Qed.

Section SortFacts.

Variable localeCompare : string -> string -> Z.

Lemma insert_length (x : Item) (l : list Item) :
  List.length (insert localeCompare x l) = S (List.length l).
Proof.
  induction l as [|y l IH]; simpl; [reflexivity|].
  destruct (compareItems localeCompare x y <=? 0); simpl; congruence.
Qed.

Lemma sort_length (l : list Item) :
  List.length (sort localeCompare l) = List.length l.
Proof.
  induction l as [|x l IH]; simpl; [reflexivity|].
  now rewrite insert_length, IH.
Qed.

Lemma insert_In (x y : Item) (l : list Item) :
  In y (insert localeCompare x l) <-> y = x \/ In y l.
Proof.
  induction l as [|z l IH]; simpl.
  - intuition congruence.
  - destruct (compareItems localeCompare x z <=? 0); simpl.
    + intuition congruence.
    + rewrite IH. intuition congruence.
Qed.

Lemma sort_In (y : Item) (l : list Item) :
  In y (sort localeCompare l) <-> In y l.
Proof.
  induction l as [|x l IH]; simpl; [tauto|].
  rewrite insert_In, IH. intuition congruence.
Qed.

(** The sort rearranges and loses nothing. *)
Lemma insert_Permutation (x : Item) (l : list Item) :
  Permutation (x :: l) (insert localeCompare x l).
Proof.
  induction l as [|y l IH]; simpl; [reflexivity|].
  destruct (compareItems localeCompare x y <=? 0); [reflexivity|].
  rewrite perm_swap. now apply perm_skip.
Qed.

Lemma sort_Permutation (l : list Item) : Permutation l (sort localeCompare l).
Proof.
  induction l as [|x l IH]; simpl; [constructor|].
  rewrite <- insert_Permutation. now apply perm_skip.
Qed.

End SortFacts.

Section Level.

Variable plat : Platform.
Variable localeCompare : string -> string -> Z.
Variable fileLimit : Z.
Variable scanSub : Dirent -> string -> Outcome (list FileNode).
Variable basePath : string.

Let itemOf (d : Dirent) : Item :=
  {| item_name := dirent_name d;
     item_path := relativePath plat basePath d;
     item_type := if isDirectory d then folder else file;
     item_scan := scanSub d (relativePath plat basePath d) |}.

Lemma collect_filter (items : list Dirent) :
  collect plat scanSub basePath items
  = map itemOf (filter (fun d => visible (dirent_name d)) items).
Proof.
  induction items as [|d items IH]; simpl; [reflexivity|].
  unfold visible.
  destruct (startsWith (dirent_name d) "."); simpl; [exact IH|].
  destruct (dirent_name d =? "node_modules")%string; simpl; [exact IH|].
  destruct (dirent_name d =? ".git")%string; simpl; [exact IH|].
  now rewrite IH.
Qed.

Lemma collect_length (items : list Dirent) :
  List.length (collect plat scanSub basePath items)
  = List.length (filter (fun d => visible (dirent_name d)) items).
Proof. now rewrite collect_filter, length_map. Qed.

Lemma collect_In (items : list Dirent) (it : Item) :
  In it (collect plat scanSub basePath items) ->
  exists d, In d items /\ visible (dirent_name d) = true /\ it = itemOf d.
Proof.
  rewrite collect_filter, in_map_iff. intros (d & <- & Hd).
  apply filter_In in Hd. destruct Hd as [Hd Hvis]. exists d. auto.
Qed.

(** The loop stops after some [k] entries, with or without a sentinel. *)
Lemma processItems_shape (total : nat) (rest : list Item) :
  forall (i : nat) (nodes : list FileNode),
  exists (k : nat) (tail : list FileNode),
    processItems fileLimit basePath total i rest nodes
    = nodes ++ map emit (firstn k rest) ++ tail
    /\ (tail = [] \/ tail = [sentinel basePath total]).
Proof.
  induction rest as [|item rest IH]; intros i nodes; simpl.
  - exists 0%nat, []. rewrite app_nil_r. auto.
  - destruct ((fileLimit <=? Z.of_nat (List.length (nodes ++ [emit item])))
              && (Z.of_nat i <? Z.of_nat total - 1)).
    + exists 0%nat, [sentinel basePath total].
      rewrite removelast_last. auto.
    + destruct (IH (S i) (nodes ++ [emit item])) as (k & tail & E & Ht).
      exists (S k), tail. rewrite E. simpl. now rewrite <- app_assoc.
Qed.

(** With a positive limit the loop keeps everything when the entries fit,
    and otherwise keeps [fileLimit - 1] of them and adds the sentinel. *)
Lemma processItems_spec (total : nat) (rest : list Item) :
  1 <= fileLimit ->
  forall (i : nat) (nodes : list FileNode),
  List.length nodes = i ->
  (i + List.length rest)%nat = total ->
  (Z.of_nat total <= fileLimit ->
     processItems fileLimit basePath total i rest nodes
     = nodes ++ map emit rest)
  /\ (fileLimit < Z.of_nat total -> Z.of_nat i < fileLimit ->
     processItems fileLimit basePath total i rest nodes
     = firstn (Z.to_nat (fileLimit - 1)) (nodes ++ map emit rest)
       ++ [sentinel basePath total]).
Proof.
  intros Hpos.
  induction rest as [|item rest IH]; intros i nodes Hlen Htot; simpl in *.
  - split; intros.
    + now rewrite app_nil_r.
    + lia.
  - assert (Hpush : List.length (nodes ++ [emit item]) = S i)
      by (rewrite length_app; simpl; lia).
    rewrite Hpush.
    destruct (IH (S i) (nodes ++ [emit item]) Hpush ltac:(lia)) as [IHfit IHcut].
    split.
    + intros Hfit.
      replace ((fileLimit <=? Z.of_nat (S i)) && (Z.of_nat i <? Z.of_nat total - 1))
        with false
        by (symmetry; apply andb_false_iff;
            rewrite Z.leb_gt, Z.ltb_ge; lia).
      rewrite IHfit by assumption. now rewrite <- app_assoc.
    + intros Hcut Hi.
      destruct (Z.leb_spec fileLimit (Z.of_nat (S i))) as [Hreach|Hless]; simpl.
      * replace (Z.of_nat i <? Z.of_nat total - 1) with true
          by (symmetry; apply Z.ltb_lt; lia).
        rewrite removelast_last.
        rewrite firstn_app.
        replace (Z.to_nat (fileLimit - 1)) with (List.length nodes) by lia.
        rewrite firstn_all, Nat.sub_diag. simpl. now rewrite app_nil_r.
      * rewrite IHcut by lia. now rewrite <- app_assoc.
Qed.

End Level.

(** ** One directory level of the result *)

Section OneLevel.

Variable plat : Platform.
Variable localeCompare : string -> string -> Z.
Variable fileLimit : Z.

#[local] Abbreviation scanDir := (scanDirectory plat localeCompare fileLimit).
#[local] Abbreviation scanEnt := (scanEntry plat localeCompare fileLimit).

Lemma allItems_length (basePath : string) (items : list Dirent) :
  List.length (allItems plat localeCompare fileLimit basePath items)
  = filteredCount items.
Proof. unfold allItems. now rewrite sort_length, collect_length. Qed.

Lemma scanEntry_DirEnt (entryName : string) (listing : Outcome (list Dirent))
    (basePath : string) :
  scanEnt (DirEnt entryName listing) basePath = scanDir listing basePath.
Proof. reflexivity. Qed.

Lemma scanDirectory_Throws (e : Exn) (basePath : string) :
  scanDir (Throws e) basePath = Returns [].
Proof. reflexivity. Qed.

Lemma scanDirectory_Returns (items : list Dirent) (basePath : string) :
  scanDir (Returns items) basePath
  = Returns (processItems fileLimit basePath (filteredCount items) 0
               (allItems plat localeCompare fileLimit basePath items) []).
Proof.
  unfold scanDirectory, scanBody. simpl.
  fold (allItems plat localeCompare fileLimit basePath items).
  now rewrite allItems_length.
Qed.

Lemma scanDirectory_returns (listing : Outcome (list Dirent)) (basePath : string) :
  exists nodes, scanDir listing basePath = Returns nodes.
Proof.
  destruct listing as [items|e].
  - rewrite scanDirectory_Returns. eauto.
  - rewrite scanDirectory_Throws. eauto.
Qed.

Lemma scanEntry_returns (d : Dirent) (basePath : string) :
  exists nodes, scanEnt d basePath = Returns nodes.
Proof.
  destruct d as [n|n listing].
  - exists []. reflexivity.
  - rewrite scanEntry_DirEnt. apply scanDirectory_returns.
Qed.

Lemma emit_NodeOf (basePath : string) (items : list Dirent) (it : Item) :
  In it (allItems plat localeCompare fileLimit basePath items) ->
  NodeOf plat localeCompare fileLimit basePath items (emit it).
Proof.
  unfold allItems. intros Hin.
  apply (proj1 (sort_In localeCompare it _)) in Hin.
  apply collect_In in Hin.
  destruct Hin as (d & Hd & Hvis & ->).
  destruct d as [n|n listing]; unfold emit; cbn [item_type item_scan isDirectory].
  - eapply NodeOf_file; eauto.
  - rewrite scanEntry_DirEnt.
    destruct (scanDirectory_returns listing
                (relativePath plat basePath (DirEnt n listing))) as [cs Hcs].
    rewrite Hcs. eapply NodeOf_folder; eauto.
Qed.

Lemma emit_not_sentinel (it : Item) : truncated (emit it) = None.
Proof.
  unfold emit. destruct (item_type it); [reflexivity|].
  now destruct (item_scan it).
Qed.

(** The nodes of one level: some first entries of [allItems], in their
    order, and then possibly the sentinel. *)
Lemma scanDirectory_shape (items : list Dirent) (basePath : string) :
  exists (k : nat) (tail : list FileNode),
    scanDir (Returns items) basePath
    = Returns (map emit (firstn k (allItems plat localeCompare fileLimit
                                     basePath items)) ++ tail)
    /\ (tail = [] \/ tail = [sentinel basePath (filteredCount items)]).
Proof.
  rewrite scanDirectory_Returns.
  destruct (processItems_shape fileLimit basePath (filteredCount items)
              (allItems plat localeCompare fileLimit basePath items) 0 [])
    as (k & tail & E & Ht).
  exists k, tail. now rewrite E.
Qed.

(** Under a positive limit: every entry when they fit, and otherwise the
    first [fileLimit - 1] of them and the sentinel. *)
Lemma scanDirectory_layout (items : list Dirent) (basePath : string) :
  1 <= fileLimit ->
  scanDirectory plat localeCompare fileLimit (Returns items) basePath
  = Returns
      (if Z.of_nat (filteredCount items) <=? fileLimit
       then map emit (allItems plat localeCompare fileLimit basePath items)
       else map emit (firstn (Z.to_nat (fileLimit - 1))
                        (allItems plat localeCompare fileLimit basePath items))
            ++ [sentinel basePath (filteredCount items)]).
Proof.
  intros Hpos. rewrite scanDirectory_Returns. f_equal.
  pose proof (allItems_length basePath items) as Hlen.
  destruct (processItems_spec fileLimit basePath (filteredCount items)
              (allItems plat localeCompare fileLimit basePath items) Hpos 0 []
              eq_refl Hlen) as [Hfit Hcut].
  destruct (Z.leb_spec (Z.of_nat (filteredCount items)) fileLimit) as [HN|HN].
  - now rewrite (Hfit HN).
  - rewrite (Hcut HN ltac:(lia)). simpl. now rewrite firstn_map.
Qed.

Lemma scanDirectory_NodeOf (items : list Dirent) (basePath : string)
    (nodes : list FileNode) (n : FileNode) :
  scanDir (Returns items) basePath = Returns nodes ->
  In n nodes -> NodeOf plat localeCompare fileLimit basePath items n.
Proof.
  destruct (scanDirectory_shape items basePath) as (k & tail & E & Ht).
  rewrite E. intros [= <-] Hin.
  apply in_app_or in Hin. destruct Hin as [Hin|Hin].
  - apply in_map_iff in Hin. destruct Hin as (it & <- & Hit).
    apply emit_NodeOf. eapply In_firstn; eauto.
  - destruct Ht as [->| ->]; simpl in Hin; [tauto|].
    destruct Hin as [<-|[]]. now apply NodeOf_sentinel.
Qed.

End OneLevel.

Section ScanInduction.

Variable plat : Platform.
Variable localeCompare : string -> string -> Z.
Variable fileLimit : Z.

#[local] Abbreviation scanDir := (scanDirectory plat localeCompare fileLimit).

(** A property of (file system, prefix, result) holds of every scan when it
    holds of the empty result of an unreadable directory and passes from
    the children of a level's folder nodes to the level. *)
Variable T : Outcome (list Dirent) -> string -> list FileNode -> Prop.

Hypothesis T_unreadable : forall e basePath, T (Throws e) basePath [].

Hypothesis T_level :
  forall items basePath nodes,
    scanDir (Returns items) basePath = Returns nodes ->
    (forall entryName listing cs,
       In (DirEnt entryName listing) items ->
       visible entryName = true ->
       scanDir listing
         (relativePath plat basePath (DirEnt entryName listing)) = Returns cs ->
       T listing (relativePath plat basePath (DirEnt entryName listing)) cs) ->
    T (Returns items) basePath nodes.

Lemma scanDirectory_ind (listing : Outcome (list Dirent)) :
  forall basePath nodes,
    scanDir listing basePath = Returns nodes ->
    T listing basePath nodes.
Proof using T_unreadable T_level.
  enough (H : forall d : Dirent,
             match d with
             | FileEnt _ => True
             | DirEnt _ l =>
                 forall basePath nodes,
                   scanDir l basePath = Returns nodes -> T l basePath nodes
             end)
    by exact (H (DirEnt "" listing)).
  induction d as [n|n e|n items IH] using Dirent_nested_ind; [exact I| |].
  - intros basePath nodes [= <-]. apply T_unreadable.
  - intros basePath nodes Hscan.
    apply T_level; [exact Hscan|].
    intros entryName listing' cs Hin _ Hcs.
    rewrite Forall_forall in IH. exact (IH _ Hin _ _ Hcs).
Qed.

End ScanInduction.

Lemma Within_trans (a b c : Outcome (list Dirent)) :
  Within a b -> Within b c -> Within a c.
Proof.
  intros Hab Hbc. induction Hbc as [|items n sub _ IH Hin]; [exact Hab|].
  exact (Within_sub a items n sub IH Hin).
Qed.

Lemma Within_entry (root : Outcome (list Dirent)) (items : list Dirent)
    (entryName : string) (sub l : Outcome (list Dirent)) :
  In (DirEnt entryName sub) items -> Within sub l -> Within (Returns items) l.
Proof.
  intros Hin Hl. apply Within_trans with (b := sub); [|exact Hl].
  exact (Within_sub _ items entryName sub (Within_root _) Hin).
Qed.

Lemma levelsBelow_eq (n : FileNode) :
  levelsBelow n
  = match children n with
    | Some cs => (Some n, cs) :: flat_map levelsBelow cs
    | None => []
    end.
Proof. destruct n; reflexivity. Qed.

Lemma levelsBelow_parent (n : FileNode) (sibs : list FileNode) :
  ~ In (None, sibs) (levelsBelow n).
Proof.
  induction n as [nm pth ty tr tc|nm pth ty cs tr tc IH] using FileNode_nested_ind;
    rewrite levelsBelow_eq; simpl; [tauto|].
  intros [[=]|Hin].
  apply in_flat_map in Hin. destruct Hin as (x & Hx & Hin).
  rewrite Forall_forall in IH. exact (IH x Hx Hin).
Qed.

Lemma nonEmpty_Some (cs cs' : list FileNode) :
  nonEmpty cs = Some cs' -> cs' = cs.
Proof.
  unfold nonEmpty. destruct (0 <? Z.of_nat (List.length cs)); congruence.
Qed.

Section Levels.

Variable plat : Platform.
Variable localeCompare : string -> string -> Z.
Variable fileLimit : Z.

#[local] Abbreviation scanDir := (scanDirectory plat localeCompare fileLimit).

Lemma LevelOf_entry (items : list Dirent) (basePath : string)
    (entryName : string) (sub : Outcome (list Dirent)) (b : string)
    (p : FileNode) (sibs : list FileNode) :
  In (DirEnt entryName sub) items ->
  LevelOf plat localeCompare fileLimit sub b (Some p) sibs ->
  LevelOf plat localeCompare fileLimit (Returns items) basePath (Some p) sibs.
Proof.
  intros Hin (listing & Hw & Hscan & b' & items' & Hw' & Hnode & Htr).
  exists listing. split; [eapply Within_entry; eauto|].
  split; [exact Hscan|].
  exists b', items'. split; [eapply Within_entry; eauto|]. auto.
Qed.

Lemma levels_scanned (root : Outcome (list Dirent)) (basePath : string)
    (nodes : list FileNode) :
  scanDir root basePath = Returns nodes ->
  forall parent sibs,
    In (parent, sibs) (levels nodes) ->
    LevelOf plat localeCompare fileLimit root basePath parent sibs.
Proof.
  revert basePath nodes.
  apply (scanDirectory_ind plat localeCompare fileLimit
           (fun root basePath nodes =>
              forall parent sibs,
                In (parent, sibs) (levels nodes) ->
                LevelOf plat localeCompare fileLimit root basePath parent sibs)).
  - intros e basePath parent sibs [[= <- <-]|[]].
    exists (Throws e). repeat split. constructor.
  - intros items basePath nodes Hscan IH parent sibs [[= <- <-]|Hin].
    + exists (Returns items). repeat split; [constructor|exact Hscan].
    + apply in_flat_map in Hin. destruct Hin as (m & Hm & Hin).
      pose proof (scanDirectory_NodeOf _ _ _ _ _ _ _ Hscan Hm) as Hnode.
      destruct Hnode as [->|n Hn Hvis ->|n sub cs Hn Hvis Hcs Em];
        [destruct Hin|destruct Hin|].
      assert (Hch : children m = nonEmpty cs) by now subst m.
      assert (Hpath : path m = relativePath plat basePath (DirEnt n sub))
        by now subst m.
      assert (Htr : truncated m = None) by now subst m.
      rewrite levelsBelow_eq, Hch in Hin.
      destruct (nonEmpty cs) as [cs'|] eqn:Ecs; [|destruct Hin].
      apply nonEmpty_Some in Ecs. subst cs'.
      specialize (IH n sub cs Hn Hvis Hcs).
      destruct Hin as [[= <- <-]|Hin].
      * exists sub. split; [eapply Within_sub; [constructor|exact Hn]|].
        split; [simpl; now rewrite Hpath|].
        exists basePath, items. split; [constructor|].
        split; [|exact Htr].
        eapply scanDirectory_NodeOf; eauto.
      * assert (Hlev : In (parent, sibs) (levels cs)) by (right; exact Hin).
        destruct parent as [p|].
        -- eapply LevelOf_entry; [exact Hn|]. apply IH. exact Hlev.
        -- exfalso. clear - Hin.
           apply in_flat_map in Hin. destruct Hin as (x & _ & Hx).
           exact (levelsBelow_parent x sibs Hx).
Qed.

End Levels.

(** ** The per-level limit *)



(** Two runs: a project directory, and 25 plain files under limit 20. *)

Example scan_project :
  scanDirectory Posix ordinalCompare 20
    (Returns [FileEnt "a.txt"; DirEnt "node_modules" (Returns [FileEnt "x.js"]);
              FileEnt ".env"; DirEnt "src" (Returns [])]) ""
  = Returns
      [ {| name := "src"; path := "src"; type := folder; children := None;
           truncated := None; totalCount := None |};
        {| name := "a.txt"; path := "a.txt"; type := file; children := None;
           truncated := None; totalCount := None |} ].
Proof. reflexivity. Qed.

Example scan_25_files :
  let plain (nm : string) :=
    {| name := nm; path := nm; type := file; children := None;
       truncated := None; totalCount := None |} in
  let names :=
    ["f01"; "f02"; "f03"; "f04"; "f05"; "f06"; "f07"; "f08"; "f09"; "f10";
     "f11"; "f12"; "f13"; "f14"; "f15"; "f16"; "f17"; "f18"; "f19"; "f20";
     "f21"; "f22"; "f23"; "f24"; "f25"] in
  scanDirectory Posix ordinalCompare 20 (Returns (map FileEnt (rev names))) ""
  = Returns (map plain (firstn 19 names) ++ [sentinel "" 25]).
Proof. vm_compute. reflexivity. Qed.

(** ** The applied limit *)

Lemma append_assoc (a b c : string) : ((a ++ b) ++ c = a ++ b ++ c)%string.
Proof. induction a as [|x a IH]; simpl; [reflexivity|now rewrite IH]. Qed.

Ltac char_codes :=
  repeat match goal with
         | |- context [nat_of_ascii (Ascii ?b0 ?b1 ?b2 ?b3 ?b4 ?b5 ?b6 ?b7)] =>
             let v := eval vm_compute in
                        (nat_of_ascii (Ascii b0 b1 b2 b3 b4 b5 b6 b7)) in
             change (nat_of_ascii (Ascii b0 b1 b2 b3 b4 b5 b6 b7)) with v
         end.

Section ParseIntFacts.

Import ParseInt.

Lemma parseDigits_cons (radix : Z) (c : ascii) (s : string) (acc : Z) :
  parseDigits radix (String c s) acc
  = match digitValue c with
    | Some d => if d <? radix then parseDigits radix s (acc * radix + d) else acc
    | None => acc
    end.
Proof. reflexivity. Qed.

Lemma digitValue_range (c : ascii) (d : Z) :
  digitValue c = Some d -> 0 <= d < 36.
Proof.
  unfold digitValue.
  destruct ((48 <=? Z.of_nat (nat_of_ascii c)) && (Z.of_nat (nat_of_ascii c) <=? 57))
    eqn:E1; [intros [= <-]; lia|].
  destruct ((97 <=? Z.of_nat (nat_of_ascii c)) && (Z.of_nat (nat_of_ascii c) <=? 122))
    eqn:E2; [intros [= <-]; lia|].
  destruct ((65 <=? Z.of_nat (nat_of_ascii c)) && (Z.of_nat (nat_of_ascii c) <=? 90))
    eqn:E3; [intros [= <-]; lia|discriminate].
Qed.

Lemma parseDigits_stop (radix : Z) (rest : string) (acc : Z) :
  firstIs (isDigit radix) rest = false -> parseDigits radix rest acc = acc.
Proof.
  destruct rest as [|c rest]; [reflexivity|].
  rewrite parseDigits_cons. unfold firstIs, isDigit.
  destruct (digitValue c) as [d|]; [|reflexivity]. now intros ->.
Qed.

(** Reading a numeral: its digits are read in full, and the number they
    write is added to what was read before. *)
Lemma parseDigits_numeral (radix : Z) (text : string) :
  0 < radix ->
  forall ds rest acc,
    digitsIn radix text = Some ds ->
    parseDigits radix (text ++ rest) acc
    = parseDigits radix rest
        (acc * radix ^ Z.of_nat (List.length ds) + positional radix ds)
    /\ 0 <= positional radix ds < radix ^ Z.of_nat (List.length ds).
Proof.
  intros Hradix. induction text as [|c text IH]; intros ds rest acc Hds.
  - injection Hds as <-. simpl. split; [|lia]. f_equal. lia.
  - cbn [digitsIn] in Hds.
    destruct (digitValue c) as [d|] eqn:Hc; [|discriminate].
    destruct (digitsIn radix text) as [ds'|] eqn:Htext; [|discriminate].
    destruct (d <? radix) eqn:Hd; [|discriminate].
    injection Hds as <-.
    change (String c text ++ rest)%string with (String c (text ++ rest)%string).
    rewrite parseDigits_cons, Hc, Hd.
    destruct (IH ds' rest (acc * radix + d) eq_refl) as [-> Hbound].
    apply Z.ltb_lt in Hd. pose proof (digitValue_range c d Hc) as Hd0.
    cbn [positional List.length]. rewrite Nat2Z.inj_succ, Z.pow_succ_r by lia.
    split; [f_equal; ring|]. nia.
Qed.

Lemma digitsIn_length (radix : Z) (text : string) :
  forall ds, digitsIn radix text = Some ds -> List.length ds = String.length text.
Proof.
  induction text as [|c text IH]; intros ds; cbn [digitsIn].
  - now intros [= <-].
  - destruct (digitValue c); [|discriminate].
    destruct (digitsIn radix text); [|discriminate].
    destruct (_ <? _); [|discriminate]. intros [= <-]. simpl. now rewrite (IH l).
Qed.

Lemma digitsIn_app (radix : Z) (a b : string) :
  forall da db,
    digitsIn radix a = Some da -> digitsIn radix b = Some db ->
    digitsIn radix (a ++ b) = Some (da ++ db).
Proof.
  induction a as [|c a IH]; intros da db; cbn [digitsIn].
  - now intros [= <-].
  - destruct (digitValue c) as [d|] eqn:Hc; [|discriminate].
    destruct (digitsIn radix a) as [da'|]; [|discriminate].
    destruct (d <? radix) eqn:E; [|discriminate]. intros [= <-] Hb.
    change (String c a ++ b)%string with (String c (a ++ b)%string).
    cbn [digitsIn]. now rewrite Hc, (IH da' db eq_refl Hb), E.
Qed.

Lemma positional_app (radix : Z) (a b : list Z) :
  positional radix (a ++ b)
  = positional radix a * radix ^ Z.of_nat (List.length b) + positional radix b.
Proof.
  induction a as [|d a IH]; simpl; [lia|].
  rewrite IH, length_app, Nat2Z.inj_add, Z.pow_add_r by lia. ring.
Qed.

Lemma digitsIn_split (radix : Z) (count : nat) (text : string) :
  forall ds,
    digitsIn radix text = Some ds ->
    digitsIn radix (Number.firstChars count text) = Some (firstn count ds)
    /\ digitsIn radix (Number.dropChars count text) = Some (skipn count ds).
Proof.
  revert text. induction count as [|count IH]; intros text ds Hds.
  - destruct text; simpl; auto.
  - destruct text as [|c text]; [injection Hds as <-; simpl; auto|].
    cbn [digitsIn] in Hds. cbn [Number.firstChars Number.dropChars digitsIn].
    destruct (digitValue c) as [d|]; [|discriminate].
    destruct (digitsIn radix text) as [ds'|] eqn:Htext; [|discriminate].
    destruct (d <? radix); [|discriminate]. injection Hds as <-.
    destruct (IH text ds' Htext) as [-> ->]. simpl. auto.
Qed.

Lemma digitsIn_zeros (count : nat) :
  digitsIn 10 (Number.zeros count) = Some (repeat 0 count)
  /\ positional 10 (repeat 0 count) = 0.
Proof.
  induction count as [|count [IH1 IH2]]; [auto|].
  cbn [Number.zeros digitsIn repeat positional].
  change (digitValue "0") with (Some 0). rewrite IH1. simpl (0 <? 10).
  cbv iota. split; [reflexivity|]. rewrite IH2. lia.
Qed.

(** The decimal digits of a positive integer: the first is not 0, and they
    write the integer. *)
Lemma uint_digitsIn (d : Decimal.uint) :
  exists ds, digitsIn 10 (NilEmpty.string_of_uint d) = Some ds.
Proof.
  induction d as [|d [ds IH]|d [ds IH]|d [ds IH]|d [ds IH]|d [ds IH]|d [ds IH]
                  |d [ds IH]|d [ds IH]|d [ds IH]|d [ds IH]];
    [exists []; reflexivity|..];
    cbn [NilEmpty.string_of_uint digitsIn]; rewrite IH;
    match goal with
    | |- context [digitValue ?c] =>
        let v := eval vm_compute in (digitValue c) in
        change (digitValue c) with v
    end; eexists; reflexivity.
Qed.

Lemma to_uint_head (p : positive) :
  match Pos.to_uint p with
  | Decimal.Nil | Decimal.D0 _ => False
  | _ => True
  end.
Proof.
  pose proof (Unsigned.to_of (Pos.to_uint p)) as H.
  rewrite Unsigned.of_to in H. cbn [N.to_uint] in H.
  pose proof (Unsigned.to_uint_nonzero p) as Hnz.
  pose proof (DecimalFacts.nzhead_nonzero (Pos.to_uint p)) as Hhead.
  unfold Decimal.unorm in H.
  destruct (Decimal.nzhead (Pos.to_uint p)) eqn:E;
    try (rewrite H; exact I).
  - now rewrite H in Hnz.
  - now specialize (Hhead u).
Qed.


Ltac read_digit :=
  rewrite parseDigits_cons;
  match goal with
  | |- context [digitValue ?c] =>
      let v := eval vm_compute in (digitValue c) in
      change (digitValue c) with v
  end;
  cbv iota beta;
  match goal with
  | |- context [?k <? 10] =>
      let b := eval vm_compute in (k <? 10) in
      change (k <? 10) with b
  end;
  cbv iota beta.

Lemma parseDigits_uint_acc (d : Decimal.uint) :
  forall a : positive,
    parseDigits 10 (NilEmpty.string_of_uint d) (Z.pos a)
    = Z.pos (Pos.of_uint_acc d a).
Proof.
  induction d; intros a;
    cbn [NilEmpty.string_of_uint Pos.of_uint_acc]; [reflexivity|..];
    read_digit; rewrite <- IHd; f_equal; lia.
Qed.

Lemma parseDigits_uint (d : Decimal.uint) :
  parseDigits 10 (NilEmpty.string_of_uint d) 0 = Z.of_N (Pos.of_uint d).
Proof.
  induction d; cbn [NilEmpty.string_of_uint Pos.of_uint]; [reflexivity|..];
    read_digit; [exact IHd|..];
    cbn [Z.of_N]; rewrite <- parseDigits_uint_acc; f_equal.
Qed.

Lemma append_nil_r (a : string) : (a ++ "")%string = a.
Proof. induction a as [|c a IH]; simpl; [reflexivity|now rewrite IH]. Qed.

Lemma digitsOf_spec (s : positive) :
  exists c more d ds,
    Number.digitsOf s = String c more
    /\ digitValue c = Some d
    /\ 1 <= d <= 9
    /\ digitsIn 10 more = Some ds
    /\ Z.pos s = d * 10 ^ Z.of_nat (List.length ds) + positional 10 ds
    /\ 0 <= positional 10 ds < 10 ^ Z.of_nat (List.length ds).
Proof.
  unfold Number.digitsOf.
  pose proof (to_uint_head s) as Hhead.
  pose proof (parseDigits_uint (Pos.to_uint s)) as Hvalue.
  rewrite Unsigned.of_to in Hvalue. cbn [Z.of_N] in Hvalue.
  destruct (uint_digitsIn (Pos.to_uint s)) as [all Hall].
  assert (Hten : 0 < 10) by lia.
  destruct (parseDigits_numeral 10 _ Hten all "" 0 Hall) as [Hread Hbound].
  rewrite append_nil_r, Hvalue in Hread. cbn [parseDigits] in Hread.
  destruct (Pos.to_uint s) as [|u|u|u|u|u|u|u|u|u|u]; try contradiction;
    cbn [NilEmpty.string_of_uint digitsIn] in *;
    destruct (digitsIn 10 (NilEmpty.string_of_uint u)) as [ds|] eqn:Hds;
    match type of Hall with
    | context [digitValue ?c] =>
        let v := eval vm_compute in (digitValue c) in
        change (digitValue c) with v in Hall
    end; try discriminate;
    simpl in Hall; injection Hall as <-;
    cbn [positional List.length] in *;
    rewrite Nat2Z.inj_succ, Z.pow_succ_r in Hbound by lia;
    do 4 eexists;
    (split; [reflexivity|]); (split; [vm_compute; reflexivity|]);
    (split; [lia|]); (split; [exact Hds|]);
    destruct (parseDigits_numeral 10 _ Hten ds "" 0 Hds) as [_ Hrest];
    (split; [lia|exact Hrest]).
Qed.

Lemma digits_count (s : positive) (k : Z) :
  10 ^ (k - 1) <= Z.pos s < 10 ^ k ->
  Z.of_nat (String.length (Number.digitsOf s)) = k.
Proof.
  intros [Hlow Hhigh].
  destruct (digitsOf_spec s) as (c & more & d & ds & -> & _ & Hd & Hds & Hs & Hb).
  apply digitsIn_length in Hds. cbn [String.length]. rewrite <- Hds.
  set (m := Z.of_nat (List.length ds)) in *.
  assert (Hm : 0 <= m) by (unfold m; lia).
  assert (Hk : 1 <= k).
  { destruct (Z.le_gt_cases 1 k) as [|Hsmall]; [assumption|].
    destruct (Z.eq_dec k 0) as [->|Hne]; [simpl in Hhigh; lia|].
    rewrite Z.pow_neg_r in Hhigh by lia. lia. }
  assert (Hs1 : 10 ^ m <= Z.pos s) by nia.
  assert (Hs2 : Z.pos s < 10 ^ (m + 1)) by (rewrite Z.pow_add_r by lia; nia).
  rewrite Nat2Z.inj_succ. fold m.
  destruct (Z.lt_trichotomy (m + 1) k) as [Hlt|[Heq|Hgt]]; [|lia|].
  - assert (10 ^ (m + 1) <= 10 ^ (k - 1)) by (apply Z.pow_le_mono_r; lia). lia.
  - assert (10 ^ k <= 10 ^ m) by (apply Z.pow_le_mono_r; lia). lia.
Qed.



Lemma startsWith_cons (c x : ascii) (r p : string) :
  startsWith (String c r) (String x p) = (x =? c)%char && startsWith r p.
Proof.
  unfold startsWith. simpl.
  destruct (ascii_dec x c) as [->|Hne].
  - now rewrite Ascii.eqb_refl.
  - apply Ascii.eqb_neq in Hne. now rewrite Hne.
Qed.

Lemma startsWith_nil (s : string) : startsWith s "" = true.
Proof. now destruct s. Qed.

Lemma digit_char (c : ascii) (d : Z) :
  digitValue c = Some d -> (48 <= nat_of_ascii c <= 122)%nat.
Proof.
  unfold digitValue.
  destruct ((48 <=? Z.of_nat (nat_of_ascii c)) && (Z.of_nat (nat_of_ascii c) <=? 57))
    eqn:E1; [intros _; lia|].
  destruct ((97 <=? Z.of_nat (nat_of_ascii c)) && (Z.of_nat (nat_of_ascii c) <=? 122))
    eqn:E2; [intros _; lia|].
  destruct ((65 <=? Z.of_nat (nat_of_ascii c)) && (Z.of_nat (nat_of_ascii c) <=? 90))
    eqn:E3; [intros _; lia|discriminate].
Qed.

Lemma char_differs (c x : ascii) :
  nat_of_ascii c <> nat_of_ascii x -> (x =? c)%char = false.
Proof. intros H. apply Ascii.eqb_neq. intros ->. now apply H. Qed.

(** White space is encoded with a first byte that is a control character, a
    space or at least 194: nothing is trimmed before any other character. *)
Lemma trimStart_keep (c : ascii) (r : string) :
  (32 < nat_of_ascii c < 194)%nat -> trimStart (String c r) = String c r.
Proof.
  intros Hc. cbn [trimStart].
  assert (E1 : isWhiteSpace c = false).
  { unfold isWhiteSpace.
    destruct (Nat.leb_spec (nat_of_ascii c) 13), (Nat.eqb_spec (nat_of_ascii c) 32);
      try lia; now rewrite ?andb_false_r. }
  rewrite E1. destruct r as [|c2 r]; [reflexivity|].
  assert (E2 : isWhiteSpace2 c c2 = false).
  { unfold isWhiteSpace2. destruct (Nat.eqb_spec (nat_of_ascii c) 194); [lia|auto]. }
  rewrite E2. destruct r as [|c3 r]; [reflexivity|].
  assert (E3 : isWhiteSpace3 c c2 c3 = false).
  { unfold isWhiteSpace3.
    destruct (Nat.eqb_spec (nat_of_ascii c) 225), (Nat.eqb_spec (nat_of_ascii c) 226),
      (Nat.eqb_spec (nat_of_ascii c) 227), (Nat.eqb_spec (nat_of_ascii c) 239);
      try lia; reflexivity. }
  now rewrite E3.
Qed.

(** A numeral: an optional hexadecimal prefix, digits of the radix, and a
    rest that no digit begins. *)
Lemma parseUnsigned_numeral (radixPrefix text rest : string)
    (radix : Z) (ds : list Z) :
  In (radixPrefix, radix) [("", 10); ("0x", 16); ("0X", 16)] ->
  digitsIn radix text = Some ds ->
  ds <> [] ->
  firstIs (isDigit radix) rest = false ->
  (radixPrefix = "" ->
   startsWith (text ++ rest) "0x" = false
   /\ startsWith (text ++ rest) "0X" = false) ->
  parseUnsigned (radixPrefix ++ text ++ rest) = Some (positional radix ds)
  /\ exists c r,
       (radixPrefix ++ text ++ rest)%string = String c r
       /\ (48 <= nat_of_ascii c <= 122)%nat.
Proof.
  intros Hradix Hds Hne Hrest Hhex.
  assert (Hpos : 0 < radix).
  { destruct Hradix as [[= _ <-]|[[= _ <-]|[[= _ <-]|[]]]]; lia. }
  destruct (parseDigits_numeral radix text Hpos ds rest 0 Hds) as [Hread _].
  rewrite (parseDigits_stop radix rest _ Hrest) in Hread. simpl in Hread.
  destruct text as [|c text]; [injection Hds as <-; contradiction|].
  assert (Hc : exists d, digitValue c = Some d /\ isDigit radix c = true).
  { cbn [digitsIn] in Hds. unfold isDigit.
    destruct (digitValue c) as [d|]; [|discriminate].
    destruct (digitsIn radix text); [|discriminate].
    destruct (d <? radix); [|discriminate]. eauto. }
  destruct Hc as (d & Hd & Hdigit). apply digit_char in Hd.
  set (body := (String c text ++ rest)%string) in *.
  assert (Hbody : firstIs (isDigit radix) body = true) by exact Hdigit.
  unfold parseUnsigned.
  destruct Hradix as [[= <- <-]|[[= <- <-]|[[= <- <-]|[]]]].
  - destruct (Hhex eq_refl) as [H1 H2].
    cbn [String.append]. rewrite H1, H2. cbn [orb].
    rewrite Hbody, Hread. split; [reflexivity|]. exists c. eexists.
    split; [reflexivity|exact Hd].
  - split; [|exists "0"%char; eexists; split;
              [reflexivity|char_codes; lia]].
    change (startsWith ("0x" ++ body) "0x") with (startsWith body "").
    rewrite startsWith_nil. cbn [orb Number.dropChars String.append].
    now rewrite Hbody, Hread.
  - split; [|exists "0"%char; eexists; split;
              [reflexivity|char_codes; lia]].
    change (startsWith ("0X" ++ body) "0X") with (startsWith body "").
    change (startsWith ("0X" ++ body) "0x") with false.
    rewrite startsWith_nil. cbn [orb Number.dropChars String.append].
    now rewrite Hbody, Hread.
Qed.

(** [parseInt] on a numeral with an optional sign. *)
Lemma parseIntString_numeral (sign radixPrefix text rest : string)
    (radix : Z) (ds : list Z) :
  In sign [""; "+"; "-"] ->
  In (radixPrefix, radix) [("", 10); ("0x", 16); ("0X", 16)] ->
  digitsIn radix text = Some ds ->
  ds <> [] ->
  firstIs (isDigit radix) rest = false ->
  (radixPrefix = "" ->
   startsWith (text ++ rest) "0x" = false
   /\ startsWith (text ++ rest) "0X" = false) ->
  parseIntString (sign ++ radixPrefix ++ text ++ rest)
  = Some ((if (sign =? "-")%string then -1 else 1) * positional radix ds).
Proof.
  intros Hsign Hradix Hds Hne Hrest Hhex.
  destruct (parseUnsigned_numeral radixPrefix text rest radix ds
              Hradix Hds Hne Hrest Hhex) as (Hread & c & r & Hshape & Hc).
  unfold parseIntString.
  destruct Hsign as [<-|[<-|[<-|[]]]]; cbn [String.append String.eqb].
  - rewrite Hshape, trimStart_keep by lia.
    rewrite !startsWith_cons, !char_differs by (char_codes; lia). cbn [orb andb].
    rewrite <- Hshape, Hread. reflexivity.
  - rewrite trimStart_keep by (char_codes; lia).
    rewrite !startsWith_cons, startsWith_nil. cbn [Ascii.eqb Bool.eqb orb andb].
    cbn [Number.dropChars]. now rewrite Hread.
  - rewrite trimStart_keep by (char_codes; lia).
    rewrite !startsWith_cons, startsWith_nil. cbn [Ascii.eqb Bool.eqb orb andb].
    cbn [Number.dropChars]. now rewrite Hread.
Qed.


(** What [parseInt] reads from the string of a number with digits [s] and
    decimal point at [n]: nothing but zero before the point when [n <= 0] is
    printed without exponent, the integer part when it is printed in full,
    and the first digit when it is printed with an exponent. *)
Lemma parseIntString_number (negative : bool) (s : positive) (n k : Z) :
  10 ^ (k - 1) <= Z.pos s < 10 ^ k ->
  parseIntString (Number.toString (Digits negative s n))
  = Some ((if negative then -1 else 1)
          * (if (-5 <=? n) && (n <=? 0) then 0
             else if (0 <? n) && (n <=? 21) then Z.pos s * 10 ^ n / 10 ^ k
             else Z.pos s / 10 ^ (k - 1))).
Proof.
  intros Hk. pose proof (digits_count s k Hk) as Hcount.
  unfold Number.toString. rewrite Hcount.
  destruct (digitsOf_spec s) as (c & more & d & ds & Hshape & Hc & Hd & Hds & Hs & Hb).
  rewrite Hshape in *. cbn [String.length] in Hcount.
  pose proof (digitsIn_length 10 more ds Hds) as Hlen.
  assert (Hall : digitsIn 10 (String c more) = Some (d :: ds)).
  { cbn [digitsIn]. rewrite Hc, Hds.
    destruct (Z.ltb_spec d 10); [reflexivity|lia]. }
  assert (Hzero : forall r p, startsWith (String c r) (String "0" p) = false).
  { intros r p. rewrite startsWith_cons.
    destruct (Ascii.eqb_spec "0" c) as [<-|]; [|reflexivity].
    vm_compute in Hc. injection Hc as <-. lia. }
  assert (Hsign : forall text rest ds',
            digitsIn 10 text = Some ds' -> ds' <> [] ->
            firstIs (isDigit 10) rest = false ->
            startsWith (text ++ rest) "0x" = false ->
            startsWith (text ++ rest) "0X" = false ->
            parseIntString (if negative then "-" ++ text ++ rest else text ++ rest)
            = Some ((if negative then -1 else 1) * positional 10 ds')).
  { intros text rest ds' H1 H2 H3 H4 H5.
    assert (Hprefix : In ("", 10) [("", 10); ("0x", 16); ("0X", 16)]) by now left.
    destruct negative.
    - apply (parseIntString_numeral "-" "" text rest 10 ds'); auto.
      right. right. now left.
    - apply (parseIntString_numeral "" "" text rest 10 ds'); auto. now left. }
  assert (Hk1 : k = Z.of_nat (List.length ds) + 1) by lia.
  assert (Hpow : 0 < 10 ^ Z.of_nat (List.length ds)) by (apply Z.pow_pos_nonneg; lia).
  destruct ((-5 <=? n) && (n <=? 21)) eqn:Hplain.
  - apply andb_true_iff in Hplain. destruct Hplain as [Hn1 Hn2].
    apply Z.leb_le in Hn1, Hn2.
    destruct (Z.leb_spec k n) as [Hkn|Hkn].
    + (* the digits and then zeros *)
      destruct (digitsIn_zeros (Z.to_nat (n - k))) as [Hz1 Hz2].
      pose proof (Hsign (String c more ++ Number.zeros (Z.to_nat (n - k)))%string ""
                    ((d :: ds) ++ repeat 0 (Z.to_nat (n - k)))
                    (digitsIn_app 10 _ _ _ _ Hall Hz1)) as Hparse.
      rewrite !append_nil_r in Hparse.
      rewrite Hparse; [|discriminate|reflexivity|apply Hzero..].
      rewrite positional_app, Hz2, repeat_length. cbn [positional].
      rewrite <- Hs, Z2Nat.id by lia.
      destruct (Z.leb_spec n 0); [lia|]. destruct (Z.ltb_spec 0 n); [|lia].
      rewrite andb_false_r. cbn [andb]. destruct (Z.leb_spec n 21); [|lia].
      do 2 f_equal. replace n with ((n - k) + k) at 2 by lia.
      rewrite Z.pow_add_r by lia. rewrite Z.mul_assoc, Z.div_mul; lia.
    + destruct (Z.ltb_spec 0 n) as [Hn0|Hn0].
      * (* the integer part, the point and the fraction *)
        destruct (digitsIn_split 10 (Z.to_nat n) _ _ Hall) as [Hfirst Hdrop].
        assert (Hn : Z.to_nat n = S (Z.to_nat (n - 1))) by lia.
        rewrite Hn in *. cbn [Number.firstChars firstn] in *.
        rewrite (Hsign _ _ _ Hfirst); [|discriminate|reflexivity|apply Hzero..].
        assert (Hten : 0 < 10) by lia.
        destruct (parseDigits_numeral 10 _ Hten _ "" 0 Hdrop) as [_ Hbound].
        pose proof (firstn_skipn (S (Z.to_nat (n - 1))) (d :: ds)) as Hjoin.
        pose proof (positional_app 10 (firstn (S (Z.to_nat (n - 1))) (d :: ds))
                      (skipn (S (Z.to_nat (n - 1))) (d :: ds))) as Hsum.
        rewrite Hjoin in Hsum. cbn [positional] in Hsum. rewrite <- Hs in Hsum.
        cbn [firstn] in Hsum.
        assert (Hskip : Z.of_nat (List.length (skipn (S (Z.to_nat (n - 1))) (d :: ds)))
                        = k - n).
        { rewrite length_skipn. cbn [List.length]. lia. }
        rewrite Hskip in *.
        destruct (Z.leb_spec n 0); [lia|]. rewrite andb_false_r.
        destruct (Z.leb_spec n 21); [|lia]. cbn [andb].
        do 2 f_equal.
        assert (Hdiv : Z.pos s * 10 ^ n / 10 ^ k = Z.pos s / 10 ^ (k - n)).
        { replace (10 ^ k) with (10 ^ (k - n) * 10 ^ n)
            by (rewrite <- Z.pow_add_r by lia; f_equal; lia).
          apply Z.div_mul_cancel_r; apply Z.pow_nonzero; lia. }
        rewrite Hdiv.
        apply Z.div_unique
          with (r := positional 10 (skipn (S (Z.to_nat (n - 1))) (d :: ds)));
          [lia|].
        rewrite Hsum at 1. ring.
      * (* zero, the point, zeros and the digits *)
        change ("0." ++ Number.zeros (Z.to_nat (- n)) ++ String c more)%string
          with ("0" ++ String "."
                         (Number.zeros (Z.to_nat (- n)) ++ String c more))%string.
        rewrite (Hsign "0" _ [0]); [|reflexivity|discriminate|reflexivity..].
        destruct (Z.leb_spec (-5) n); [|lia]. destruct (Z.leb_spec n 0); [|lia].
        reflexivity.
  - (* the first digit, the other digits after a point, and the exponent *)
    assert (Hn : n < -5 \/ 21 < n).
    { apply andb_false_iff in Hplain.
      destruct Hplain as [H|H]; apply Z.leb_gt in H; lia. }
    assert (Hread : forall rest,
              firstIs (isDigit 10) rest = false ->
              parseIntString (if negative then "-" ++ String c rest else String c rest)
              = Some ((if negative then -1 else 1) * d)).
    { intros rest Hrest.
      pose proof (Hsign (String c "") rest [d]) as Hparse.
      cbn [String.append] in Hparse |- *.
      rewrite Hparse; [|cbn [digitsIn]; rewrite Hc;
                        destruct (Z.ltb_spec d 10); [reflexivity|lia]
                       |discriminate|exact Hrest|apply Hzero..].
      cbn [positional List.length]. do 2 f_equal. simpl. lia. }
    assert (Hlead : Z.pos s / 10 ^ (k - 1) = d).
    { replace (k - 1) with (Z.of_nat (List.length ds)) by lia.
      symmetry. apply Z.div_unique with (r := positional 10 ds); lia. }
    replace ((-5 <=? n) && (n <=? 0)) with false
      by (symmetry; apply andb_false_iff;
          destruct Hn; [left; apply Z.leb_gt|right; apply Z.leb_gt]; lia).
    replace ((0 <? n) && (n <=? 21)) with false
      by (symmetry; apply andb_false_iff;
          destruct Hn; [left; apply Z.ltb_ge|right; apply Z.leb_gt]; lia).
    rewrite Hlead.
    destruct more as [|c' more']; cbn [String.append]; now apply Hread.
Qed.

End ParseIntFacts.

Lemma validateLimit_parsed (value : JValue) (text : string) :
  Json.toString value = Returns text ->
  validateLimit value
  = Returns (match ParseInt.parseIntString text with
             | Some parsed => clamped parsed
             | None => 20
             end).
Proof.
  intros Htext. unfold validateLimit, ParseInt.parseInt, bind. rewrite Htext.
  destruct (ParseInt.parseIntString text) as [parsed|]; [|reflexivity].
  unfold clamped. now destruct (parsed =? 0).
Qed.

(** The limit applied for a number with digits [s] and decimal point at
    [n]. *)
Lemma validateLimit_number (negative : bool) (s : positive) (n k : Z) :
  10 ^ (k - 1) <= Z.pos s < 10 ^ k ->
  (-5 <= n <= 0 -> validateLimit (JNum (Digits negative s n)) = Returns 20)
  /\ (negative = true -> n < -5 \/ 0 < n ->
      validateLimit (JNum (Digits negative s n)) = Returns 1)
  /\ (negative = false -> 0 < n <= 21 ->
      validateLimit (JNum (Digits negative s n))
      = Returns (Z.min 100 (Z.pos s * 10 ^ n / 10 ^ k)))
  /\ (negative = false -> n < -5 \/ 21 < n ->
      validateLimit (JNum (Digits negative s n)) = Returns (Z.pos s / 10 ^ (k - 1))
      /\ 1 <= Z.pos s / 10 ^ (k - 1) <= 9).
Proof.
  intros Hk.
  rewrite (validateLimit_parsed (JNum (Digits negative s n))
             (Number.toString (Digits negative s n)) eq_refl),
    (parseIntString_number negative s n k Hk).
  assert (Hk1 : 1 <= k).
  { destruct (Z.le_gt_cases 1 k) as [|Hsmall]; [assumption|].
    destruct (Z.eq_dec k 0) as [->|Hne]; [simpl in Hk; lia|].
    rewrite (Z.pow_neg_r 10 k) in Hk by lia. lia. }
  assert (Hpow : 0 < 10 ^ (k - 1)) by (apply Z.pow_pos_nonneg; lia).
  assert (Hten : 10 ^ k = 10 * 10 ^ (k - 1)).
  { rewrite <- Z.pow_succ_r by lia. f_equal. lia. }
  assert (Hlead : 1 <= Z.pos s / 10 ^ (k - 1) <= 9).
  { split.
    - apply Z.div_le_lower_bound; lia.
    - assert (Z.pos s / 10 ^ (k - 1) < 10); [|lia].
      apply Z.div_lt_upper_bound; lia. }
  assert (Hint : 0 < n -> 1 <= Z.pos s * 10 ^ n / 10 ^ k).
  { intros Hn. apply Z.div_le_lower_bound; [lia|].
    assert (10 <= 10 ^ n); [|nia].
    change 10 with (10 ^ 1) at 1. apply Z.pow_le_mono_r; lia. }
  unfold clamped. split; [|split; [|split]].
  - intros [H1 H2].
    destruct (Z.leb_spec (-5) n); [|lia]. destruct (Z.leb_spec n 0); [|lia].
    cbn [andb]. now rewrite Z.mul_0_r.
  - intros -> Hn.
    destruct (Z.leb_spec (-5) n), (Z.leb_spec n 0), (Z.ltb_spec 0 n),
      (Z.leb_spec n 21); try lia; cbn [andb];
      try specialize (Hint ltac:(lia));
      match goal with
      | |- context [?v =? 0] => destruct (Z.eqb_spec v 0)
      end; f_equal; lia.
  - intros -> Hn.
    destruct (Z.leb_spec (-5) n), (Z.leb_spec n 0), (Z.ltb_spec 0 n),
      (Z.leb_spec n 21); try lia; cbn [andb].
    specialize (Hint ltac:(lia)).
    match goal with
    | |- context [?v =? 0] => destruct (Z.eqb_spec v 0)
    end; f_equal; lia.
  - intros -> Hn. split; [|exact Hlead].
    destruct (Z.leb_spec (-5) n), (Z.leb_spec n 0), (Z.ltb_spec 0 n),
      (Z.leb_spec n 21); try lia; cbn [andb];
      match goal with
      | |- context [?v =? 0] => destruct (Z.eqb_spec v 0)
      end; f_equal; lia.
Qed.

Lemma stripZeros_spec (fuel : nat) :
  forall s count,
    0 < s ->
    exists s' count',
      Number.stripZeros fuel s count = (s', count')
      /\ 0 < s' /\ 0 <= count' - count /\ s = s' * 10 ^ (count' - count).
Proof.
  induction fuel as [|fuel IH]; intros s count Hs; cbn [Number.stripZeros].
  - exists s, count. rewrite Z.sub_diag. simpl. repeat split; lia.
  - destruct (Z.eqb_spec (s mod 10) 0) as [Hmod|Hmod].
    + assert (Hdiv : s = 10 * (s / 10)) by (pose proof (Z.div_mod s 10); lia).
      destruct (IH (s / 10) (count + 1)) as (s' & count' & -> & H1 & H2 & H3); [lia|].
      exists s', count'. repeat split; try lia.
      replace (count' - count) with (Z.succ (count' - (count + 1))) by lia.
      rewrite Z.pow_succ_r by lia. lia.
    + exists s, count. rewrite Z.sub_diag. simpl. repeat split; lia.
Qed.

(** An integer below 10^21 is printed in full, and is read back. *)
Lemma validateLimit_integer (z : Z) :
  0 < Z.abs z < 10 ^ 21 ->
  validateLimit (JNum z) = Returns (Z.max 1 (Z.min 100 z)).
Proof.
  intros Hz. unfold Number.ofInteger.
  destruct (stripZeros_spec (Z.to_nat (Z.log2 (Z.abs z))) (Z.abs z) 0 (proj1 Hz))
    as (s & count & Hstrip & Hs & Hcount & Hvalue).
  rewrite Z.sub_0_r in *.
  assert (Hform : match z with
                  | 0 => Zero false
                  | _ =>
                      let '(s, count) :=
                        Number.stripZeros (Z.to_nat (Z.log2 (Z.abs z))) (Z.abs z) 0 in
                      Digits (z <? 0) (Z.to_pos s)
                        (Z.of_nat (String.length (Number.digitsOf (Z.to_pos s)))
                         + count)
                  end
                  = Digits (z <? 0) (Z.to_pos s)
                      (Z.of_nat (String.length (Number.digitsOf (Z.to_pos s)))
                       + count)).
  { rewrite Hstrip. destruct z; [simpl in Hz; lia|reflexivity..]. }
  rewrite Hform. clear Hform Hstrip.
  destruct (digitsOf_spec (Z.to_pos s))
    as (c & more & d & ds & Hshape & _ & Hd & Hds & Hpos & Hb).
  rewrite Z2Pos.id in Hpos by lia.
  apply digitsIn_length in Hds.
  rewrite Hshape. cbn [String.length]. rewrite <- Hds.
  set (m := Z.of_nat (List.length ds)) in *.
  assert (Hm : 0 <= m) by (unfold m; lia).
  assert (Hk : 10 ^ (Z.of_nat (S (List.length ds)) - 1) <= Z.pos (Z.to_pos s)
               < 10 ^ Z.of_nat (S (List.length ds))).
  { rewrite Z2Pos.id by lia. rewrite Nat2Z.inj_succ. fold m.
    replace (Z.succ m - 1) with m by lia. rewrite Z.pow_succ_r by lia. nia. }
  destruct (validateLimit_number (z <? 0) (Z.to_pos s)
              (Z.of_nat (S (List.length ds)) + count) _ Hk)
    as (_ & Hneg & Hfull & _).
  rewrite Nat2Z.inj_succ in *. fold m in Hneg, Hfull, Hk |- *.
  assert (Hpow : 0 < 10 ^ count) by (apply Z.pow_pos_nonneg; lia).
  assert (Hpm : 0 < 10 ^ m) by (apply Z.pow_pos_nonneg; lia).
  assert (Hsmall : Z.succ m + count <= 21).
  { destruct (Z.le_gt_cases (Z.succ m + count) 21) as [|Hbig]; [assumption|].
    assert (10 ^ 21 <= 10 ^ (m + count)) by (apply Z.pow_le_mono_r; lia).
    rewrite Z.pow_add_r in * by lia. nia. }
  destruct (Z.ltb_spec z 0) as [Hsign|Hsign].
  - rewrite Hneg by (auto; lia). f_equal. lia.
  - rewrite Hfull by (auto; lia). f_equal.
    rewrite Z2Pos.id by lia.
    assert (Hq : s * 10 ^ (Z.succ m + count) / 10 ^ Z.succ m = z).
    { rewrite Z.pow_add_r by lia.
      replace (s * (10 ^ Z.succ m * 10 ^ count))
        with (s * 10 ^ count * 10 ^ Z.succ m) by ring.
      rewrite Z.div_mul by (apply Z.pow_nonzero; lia). lia. }
    rewrite Hq. lia.
Qed.

Section TrimFacts.

Import ParseInt.








End TrimFacts.

(** What a successful response tells about the request and the host. *)
Lemma POST_Success_inv (host : Host) (request : Outcome JValue)
    (structure : list FileNode) (scanned : string) (count : nat) (limit : Z) :
  POST host request = Success structure scanned count limit ->
  exists body requestedPath fileLimit,
    request = Returns body
    /\ Json.get body "path" = Returns (JStr requestedPath)
    /\ requestedPath <> ""
    /\ Json.get body "fileLimit" = Returns fileLimit
    /\ validateLimit (Json.orDefault fileLimit (JNum 20)) = Returns limit
    /\ scanned = resolvePath host requestedPath
    /\ isAllowed host scanned = true
    /\ stat host scanned = Returns true
    /\ scanDirectory (platform host) (collate host) limit
         (readdir host scanned) "" = Returns structure
    /\ count = countNodes structure.
Proof.
  unfold POST, handle, bind.
  destruct request as [body|e]; [|discriminate].
  destruct (Json.get body "path") as [requestedPath|e] eqn:Hpath; [|discriminate].
  destruct (Json.get body "fileLimit") as [fileLimit|e] eqn:Hlimit; [|discriminate].
  destruct (Json.truthy requestedPath) eqn:Htruthy; simpl; [|discriminate].
  destruct (validateLimit (Json.orDefault fileLimit (JNum 20))) as [l|e] eqn:Hvalid;
    [|discriminate].
  destruct requestedPath as [| | | |requestedPath| |]; try discriminate.
  destruct (isAllowed host (resolvePath host requestedPath)) eqn:Hallowed;
    simpl; [|discriminate].
  destruct (stat host (resolvePath host requestedPath)) as [[|]|e] eqn:Hstat;
    try discriminate.
  destruct (scanDirectory (platform host) (collate host) l
              (readdir host (resolvePath host requestedPath)) "")
    as [nodes|e] eqn:Hscan; [|discriminate].
  intros [= <- <- <- <-].
  exists body, requestedPath, fileLimit.
  repeat split; try assumption; try reflexivity.
  intros ->. discriminate.
Qed.

(** An object that shadows [toString] cannot be converted, and the request
    ends in the handler's [catch]. *)
Remark validateLimit_object_throws :
  validateLimit (JObj [("toString", JNum 1)]) = Throws TypeError.
Proof. reflexivity. Qed.




(** ** Names, counts and sentinels at every level *)

Section LevelFacts.

Variable plat : Platform.
Variable localeCompare : string -> string -> Z.
Variable fileLimit : Z.

(** A level that holds a node is the scan of a readable directory. *)
Lemma level_listing (root : Outcome (list Dirent)) (basePath : string)
    (nodes : list FileNode) (parent : option FileNode) (sibs : list FileNode)
    (n : FileNode) :
  scanDirectory plat localeCompare fileLimit root basePath = Returns nodes ->
  In (parent, sibs) (levels nodes) ->
  In n sibs ->
  exists items,
    Within root (Returns items)
    /\ scanDirectory plat localeCompare fileLimit (Returns items)
         (prefixOf basePath parent) = Returns sibs
    /\ NodeOf plat localeCompare fileLimit (prefixOf basePath parent) items n
    /\ match parent with
       | None => True
       | Some p =>
           exists b items',
             Within root (Returns items')
             /\ NodeOf plat localeCompare fileLimit b items' p
             /\ truncated p = None
       end.
Proof.
  intros Hscan Hlevel Hn.
  destruct (levels_scanned plat localeCompare fileLimit root basePath nodes
              Hscan parent sibs Hlevel) as (listing & Hw & Hsibs & Hparent).
  destruct listing as [items|e].
  - exists items. repeat split; try assumption.
    + eapply scanDirectory_NodeOf; eauto.
    + destruct parent; [exact Hparent|exact I].
  - rewrite scanDirectory_Throws in Hsibs. injection Hsibs as <-. destruct Hn.
Qed.

End LevelFacts.

Lemma sentinel_name_hidden_counterexample :
  scanDirectory Posix ordinalCompare 1 (Returns [FileEnt "a"; FileEnt "b"]) ""
  = Returns [sentinel "" 2]
  /\ startsWith (name (sentinel "" 2)) "." = true.
Proof. split; reflexivity. Qed.

(** C3 (amended).  At every level of every scanned tree, a node other than
    the truncation sentinel has a name that does not begin with '.' and is
    neither 'node_modules' nor '.git'; and the sentinel of a level carries as
    [totalCount] the number of entries of that level's directory that pass
    the filter. *)
Theorem hidden_entries_excluded (plat : Platform)
    (localeCompare : string -> string -> Z) (fileLimit : Z)
    (root : Outcome (list Dirent)) (basePath : string) (nodes : list FileNode) :
  scanDirectory plat localeCompare fileLimit root basePath = Returns nodes ->
  forall parent sibs n,
    In (parent, sibs) (levels nodes) ->
    In n sibs ->
    (isSentinel n = false ->
       startsWith (name n) "." = false
       /\ name n <> "node_modules"
       /\ name n <> ".git")
    /\ (isSentinel n = true ->
        exists items,
          Within root (Returns items)
          /\ scanDirectory plat localeCompare fileLimit (Returns items)
               (prefixOf basePath parent) = Returns sibs
          /\ totalCount n
             = Some (List.length (filter (fun d => visible (dirent_name d)) items))).
Proof.
  intros Hscan parent sibs n Hlevel Hn.
  destruct (level_listing plat localeCompare fileLimit root basePath nodes
              parent sibs n Hscan Hlevel Hn) as (items & Hw & Hsibs & Hnode & _).
  assert (Hvis : forall s, visible s = true ->
            startsWith s "." = false /\ s <> "node_modules" /\ s <> ".git").
  { intros s. unfold visible. rewrite !andb_true_iff, !negb_true_iff.
    intros [[H1 H2] H3]. apply String.eqb_neq in H2, H3. auto. }
  destruct Hnode as [->|m Hin Hm ->|m sub cs Hin Hm Hcs ->]; simpl.
  - split; [discriminate|]. intros _. exists items. auto.
  - split; [intros _; now apply Hvis|discriminate].
  - split; [intros _; now apply Hvis|discriminate].
Qed.

Lemma hidden_entries_excluded_witness :
  exists items,
    Within
      (Returns [FileEnt ".env"; FileEnt "a"; FileEnt "b"; DirEnt ".git" (Returns [])])
      (Returns items)
    /\ totalCount (sentinel "" 2)
       = Some (List.length (filter (fun d => visible (dirent_name d)) items)).
Proof.
  destruct (hidden_entries_excluded Posix ordinalCompare 1
              (Returns [FileEnt ".env"; FileEnt "a"; FileEnt "b";
                        DirEnt ".git" (Returns [])])
              "" [sentinel "" 2] eq_refl None [sentinel "" 2] (sentinel "" 2)
              (or_introl eq_refl) (or_introl eq_refl)) as [_ Hcount].
  destruct (Hcount eq_refl) as (items & Hw & _ & Htotal).
  exists items. split; [exact Hw|exact Htotal].
Defined.

Lemma append_cancel_l (p a b : string) :
  (p ++ a)%string = (p ++ b)%string -> a = b.
Proof.
  induction p as [|c p IH]; simpl; [auto|].
  intros [= H]. auto.
Qed.

(** C9.  Every truncation sentinel, at every level, has type 'folder' and name
    '...', has no children field, and has as path the prefix its level was
    scanned under (the path of the folder above it, or the scanner's
    [basePath]) immediately followed by '...': under a non-empty prefix that
    is not the prefix joined with the name. *)
Theorem sentinel_shape (plat : Platform)
    (localeCompare : string -> string -> Z) (fileLimit : Z)
    (root : Outcome (list Dirent)) (basePath : string) (nodes : list FileNode) :
  scanDirectory plat localeCompare fileLimit root basePath = Returns nodes ->
  forall parent sibs n,
    In (parent, sibs) (levels nodes) ->
    In n sibs ->
    isSentinel n = true ->
    type n = folder
    /\ name n = "..."
    /\ children n = None
    /\ path n = (prefixOf basePath parent ++ "...")%string
    /\ (prefixOf basePath parent <> "" ->
        path n <> Path.join plat (prefixOf basePath parent) (name n)).
Proof.
  intros Hscan parent sibs n Hlevel Hn Hsent.
  destruct (level_listing plat localeCompare fileLimit root basePath nodes
              parent sibs n Hscan Hlevel Hn) as (items & _ & _ & Hnode & _).
  destruct Hnode as [->|m _ _ ->|m sub cs _ _ _ ->]; try discriminate.
  repeat split. simpl. intros Hne.
  destruct (prefixOf basePath parent) as [|c p] eqn:E; [contradiction|].
  unfold Path.join. intros H. apply append_cancel_l in H.
  destruct plat; discriminate.
Qed.

Lemma sentinel_shape_witness :
  exists parent,
    path (sentinel "src" 2) = (prefixOf "" (Some parent) ++ "...")%string
    /\ path (sentinel "src" 2) = "src...".
Proof.
  pose (src := {| name := "src"; path := "src"; type := folder;
                  children := Some [sentinel "src" 2];
                  truncated := None; totalCount := None |}).
  exists src.
  destruct (sentinel_shape Posix ordinalCompare 1
              (Returns [DirEnt "src" (Returns [FileEnt "a"; FileEnt "b"])])
              "" [src] eq_refl (Some src) [sentinel "src" 2] (sentinel "src" 2)
              (or_intror (or_introl eq_refl)) (or_introl eq_refl) eq_refl)
    as (_ & _ & _ & Hpath & _).
  split; [exact Hpath|reflexivity].
Defined.

(** ** Paths *)

Lemma append_nonempty_l (a b : string) : a <> "" -> (a ++ b)%string <> "".
Proof. destruct a; [contradiction|discriminate]. Qed.

Lemma join_segments (plat : Platform) (a b : string) :
  a <> "" -> b <> "" -> Path.join plat a b = (a ++ Path.sep plat ++ b)%string.
Proof. destruct a, b; try contradiction; reflexivity. Qed.

Lemma concat_nonempty (sep : string) (l : list string) :
  l <> [] -> Forall (fun x => x <> "") l -> String.concat sep l <> "".
Proof.
  destruct l as [|x l]; [contradiction|]. intros _ Hl.
  inversion_clear Hl as [|? ? Hx _].
  destruct l; simpl; [exact Hx|now apply append_nonempty_l].
Qed.

Lemma concat_snoc (sep : string) (l : list string) (x : string) :
  l <> [] ->
  String.concat sep (l ++ [x]) = (String.concat sep l ++ sep ++ x)%string.
Proof.
  induction l as [|y l IH]; [contradiction|]. intros _.
  destruct l as [|z l]; [reflexivity|].
  change (String.concat sep ((y :: z :: l) ++ [x]))
    with (y ++ sep ++ String.concat sep ((z :: l) ++ [x]))%string.
  rewrite IH by discriminate.
  change (String.concat sep (y :: z :: l))
    with (y ++ sep ++ String.concat sep (z :: l))%string.
  now rewrite !append_assoc.
Qed.

Lemma isSegment_nonempty (plat : Platform) (s : string) :
  isSegment plat s = true -> s <> "".
Proof.
  unfold isSegment. rewrite !andb_true_iff, negb_true_iff.
  intros [[H _] _]. now apply String.eqb_neq.
Qed.

Lemma listingAll_Within (ok : string -> bool) (root l : Outcome (list Dirent)) :
  listingAll ok root = true -> Within root l -> listingAll ok l = true.
Proof.
  intros Hroot Hw. induction Hw as [|items n sub _ IH Hin]; [exact Hroot|].
  simpl in IH. rewrite forallb_forall in IH. specialize (IH _ Hin).
  simpl in IH. apply andb_true_iff in IH. destruct IH as [_ IH].
  destruct sub; [exact IH|reflexivity].
Qed.

Lemma listingAll_In (ok : string -> bool) (items : list Dirent) (d : Dirent) :
  listingAll ok (Returns items) = true -> In d items -> ok (dirent_name d) = true.
Proof.
  simpl. rewrite forallb_forall. intros H Hin. specialize (H _ Hin).
  destruct d; simpl in H; apply andb_true_iff in H; tauto.
Qed.

Section PathFacts.

Variable plat : Platform.
Variable localeCompare : string -> string -> Z.
Variable fileLimit : Z.

(** A node other than the sentinel is named like an entry of its directory
    and has its relative path. *)
Lemma NodeOf_entry (basePath : string) (items : list Dirent) (n : FileNode) :
  NodeOf plat localeCompare fileLimit basePath items n ->
  truncated n = None ->
  exists d,
    In d items /\ name n = dirent_name d /\ path n = relativePath plat basePath d.
Proof.
  intros [->|m Hin _ ->|m sub cs Hin _ _ ->] Htr; [discriminate| |].
  - exists (FileEnt m). auto.
  - exists (DirEnt m sub). auto.
Qed.

Lemma NodeOf_truncated (basePath : string) (items : list Dirent) (n : FileNode) :
  NodeOf plat localeCompare fileLimit basePath items n ->
  isSentinel n = false -> truncated n = None.
Proof.
  intros [->|m _ _ ->|m sub cs _ _ _ ->]; [discriminate|reflexivity..].
Qed.

Lemma relativePath_eq (basePath : string) (d : Dirent) :
  dirent_name d <> "" ->
  relativePath plat basePath d
  = match basePath with
    | EmptyString => dirent_name d
    | _ => (basePath ++ Path.sep plat ++ dirent_name d)%string
    end.
Proof.
  intros Hd. unfold relativePath.
  destruct basePath as [|c b]; [reflexivity|].
  simpl (_ =? _)%string. cbv iota.
  apply join_segments; [discriminate|exact Hd].
Qed.

Lemma relativePath_nonempty (basePath : string) (d : Dirent) :
  dirent_name d <> "" -> relativePath plat basePath d <> "".
Proof.
  intros Hd. rewrite relativePath_eq by exact Hd.
  destruct basePath; [exact Hd|discriminate].
Qed.

End PathFacts.

Lemma nested_sentinel_path_counterexample :
  let src := {| name := "src"; path := "src"; type := folder;
                children := Some [sentinel "src" 2];
                truncated := None; totalCount := None |} in
  scanDirectory Posix ordinalCompare 1
    (Returns [DirEnt "src" (Returns [FileEnt "a"; FileEnt "b"])]) ""
  = Returns [src]
  /\ In (Some src, [sentinel "src" 2]) (levels [src])
  /\ path (sentinel "src" 2) = "src..."
  /\ Path.join Posix (path src) (name (sentinel "src" 2)) = "src/..."
  /\ path (sentinel "src" 2)
     <> Path.join Posix (path src) (name (sentinel "src" 2)).
Proof.
  repeat split; try reflexivity.
  - right. left. reflexivity.
  - discriminate.
Qed.

(** C5 (amended).  In the tree returned for a scan root whose entries are
    named by path segments, every node at the root level, sentinel included,
    has its name as path, and every node below a folder node, other than a
    truncation sentinel, has as path the path of that folder node joined with
    its own name: the two with the platform separator in between. *)
Theorem path_joins_parent_and_name (plat : Platform)
    (localeCompare : string -> string -> Z) (fileLimit : Z)
    (root : Outcome (list Dirent)) (nodes : list FileNode) :
  listingAll (isSegment plat) root = true ->
  scanDirectory plat localeCompare fileLimit root "" = Returns nodes ->
  forall parent sibs n,
    In (parent, sibs) (levels nodes) ->
    In n sibs ->
    match parent with
    | None => path n = name n
    | Some p =>
        isSentinel n = false ->
        path n = Path.join plat (path p) (name n)
        /\ path n = (path p ++ Path.sep plat ++ name n)%string
    end.
Proof.
  intros Hnames Hscan parent sibs n Hlevel Hn.
  destruct (level_listing plat localeCompare fileLimit root "" nodes
              parent sibs n Hscan Hlevel Hn)
    as (items & Hw & _ & Hnode & Hparent).
  assert (Hseg : forall l d, Within root (Returns l) -> In d l -> dirent_name d <> "").
  { intros l d Hl Hd. apply (isSegment_nonempty plat).
    apply (listingAll_In _ l); [|exact Hd].
    now apply (listingAll_Within _ root). }
  destruct parent as [p|]; simpl in Hnode.
  - intros Hsent.
    pose proof (NodeOf_truncated plat localeCompare fileLimit _ _ _ Hnode Hsent)
      as Htr.
    destruct (NodeOf_entry plat localeCompare fileLimit _ _ _ Hnode Htr)
      as (d & Hd & Hname & Hpath).
    destruct Hparent as (b & items' & Hw' & Hp & Hptr).
    destruct (NodeOf_entry plat localeCompare fileLimit _ _ _ Hp Hptr)
      as (d' & Hd' & Hname' & Hpath').
    assert (Hpne : path p <> "").
    { rewrite Hpath'. apply relativePath_nonempty. eauto. }
    assert (Hnne : name n <> "") by (rewrite Hname; eauto).
    rewrite join_segments by assumption.
    rewrite Hpath, relativePath_eq by eauto.
    rewrite Hname. destruct (path p); [contradiction|]. auto.
  - destruct Hnode as [->|m Hin _ ->|m sub cs Hin _ _ ->]; reflexivity.
Qed.

Lemma path_joins_parent_and_name_witness :
  listingAll (isSegment Posix)
    (Returns [DirEnt "src" (Returns [FileEnt "a"])]) = true
  /\ path {| name := "a"; path := "src/a"; type := file; children := None;
             truncated := None; totalCount := None |}
     = ("src" ++ Path.sep Posix ++ "a")%string.
Proof.
  split; [reflexivity|].
  pose (a := {| name := "a"; path := "src/a"; type := file; children := None;
                truncated := None; totalCount := None |}).
  pose (src := {| name := "src"; path := "src"; type := folder;
                  children := Some [a];
                  truncated := None; totalCount := None |}).
  exact (proj2 (path_joins_parent_and_name Posix ordinalCompare 20
                  (Returns [DirEnt "src" (Returns [FileEnt "a"])]) [src]
                  eq_refl eq_refl (Some src) [a] a
                  (or_intror (or_introl eq_refl)) (or_introl eq_refl) eq_refl)).
Defined.

Lemma locatedBelow_eq (above : list string) (n : FileNode) :
  locatedBelow above n
  = (above, n)
    :: match children n with
       | Some cs => flat_map (locatedBelow (above ++ [name n])) cs
       | None => []
       end.
Proof. destruct n; reflexivity. Qed.

Section Segments.

Variable plat : Platform.
Variable localeCompare : string -> string -> Z.
Variable fileLimit : Z.

(** The invariant of the descent: the prefix is the names of the folders
    above, joined with the separator. *)
Lemma located_paths (root : Outcome (list Dirent)) :
  forall basePath nodes,
    scanDirectory plat localeCompare fileLimit root basePath = Returns nodes ->
    listingAll (isSegment plat) root = true ->
    forall above,
      basePath = String.concat (Path.sep plat) above ->
      Forall (fun x => x <> "") above ->
      forall names n,
        In (names, n) (flat_map (locatedBelow above) nodes) ->
        isSentinel n = false ->
        path n = String.concat (Path.sep plat) (names ++ [name n]).
Proof.
  apply (scanDirectory_ind plat localeCompare fileLimit
           (fun root basePath nodes =>
              listingAll (isSegment plat) root = true ->
              forall above,
                basePath = String.concat (Path.sep plat) above ->
                Forall (fun x => x <> "") above ->
                forall names n,
                  In (names, n) (flat_map (locatedBelow above) nodes) ->
                  isSentinel n = false ->
                  path n = String.concat (Path.sep plat) (names ++ [name n]))).
  - intros e basePath _ above _ _ names n [].
  - intros items basePath nodes Hscan IH Hok above Hbase Habove names n Hin Hsent.
    apply in_flat_map in Hin. destruct Hin as (m & Hm & Hin).
    pose proof (scanDirectory_NodeOf _ _ _ _ _ _ _ Hscan Hm) as Hnode.
    assert (Hhere : truncated m = None ->
              path m = String.concat (Path.sep plat) (above ++ [name m])).
    { intros Htr.
      destruct (NodeOf_entry _ _ _ _ _ _ Hnode Htr) as (d & Hd & Hname & Hpath).
      assert (Hne : dirent_name d <> "")
        by (apply (isSegment_nonempty plat); exact (listingAll_In _ _ _ Hok Hd)).
      rewrite Hpath, relativePath_eq, Hname by exact Hne.
      destruct above as [|a above].
      - subst basePath. reflexivity.
      - rewrite concat_snoc by discriminate. rewrite <- Hbase.
        destruct basePath; [|reflexivity].
        exfalso. symmetry in Hbase. revert Hbase.
        apply concat_nonempty; [discriminate|exact Habove]. }
    rewrite locatedBelow_eq in Hin. destruct Hin as [[= <- <-]|Hin].
    + apply Hhere. exact (NodeOf_truncated _ _ _ _ _ _ Hnode Hsent).
    + destruct Hnode as [->|e Hn Hvis ->|e sub cs Hn Hvis Hcs Em];
        [destruct Hin|destruct Hin|].
      assert (Hch : children m = nonEmpty cs) by now subst m.
      assert (Hnm : name m = e) by now subst m.
      assert (Hpm : path m = relativePath plat basePath (DirEnt e sub))
        by now subst m.
      assert (Htr : truncated m = None) by now subst m.
      rewrite Hch in Hin.
      destruct (nonEmpty cs) as [cs'|] eqn:Ecs; [|destruct Hin].
      apply nonEmpty_Some in Ecs. subst cs'.
      apply (IH e sub cs Hn Hvis Hcs) with (above := above ++ [name m]).
      * assert (H := listingAll_Within (isSegment plat) (Returns items) sub Hok
                       (Within_sub _ items e sub (Within_root _) Hn)).
        exact H.
      * rewrite <- Hpm. apply Hhere. exact Htr.
      * apply Forall_app. split; [exact Habove|].
        constructor; [|constructor]. rewrite Hnm.
        apply (isSegment_nonempty plat).
        exact (listingAll_In _ _ _ Hok Hn).
      * exact Hin.
      * exact Hsent.
Qed.

End Segments.

Lemma win32_separator_counterexample :
  let a := {| name := "a"; path := "src\a"; type := file; children := None;
              truncated := None; totalCount := None |} in
  let src := {| name := "src"; path := "src"; type := folder;
                children := Some [a];
                truncated := None; totalCount := None |} in
  scanDirectory Win32 ordinalCompare 20
    (Returns [DirEnt "src" (Returns [FileEnt "a"])]) ""
  = Returns [src]
  /\ In (["src"], a) (located [src])
  /\ path a <> String.concat "/" (["src"] ++ [name a]).
Proof.
  repeat split.
  - right. left. reflexivity.
  - discriminate.
Qed.

(** C6 (amended).  In the tree returned for a scan root whose entries are
    named by path segments, the path of every node other than a truncation
    sentinel is the names of the folders above it and then its own name,
    joined with the separator of the host platform: forward slashes on a
    POSIX host, backslashes on win32. *)
Theorem path_is_joined_segments (plat : Platform)
    (localeCompare : string -> string -> Z) (fileLimit : Z)
    (root : Outcome (list Dirent)) (nodes : list FileNode) :
  listingAll (isSegment plat) root = true ->
  scanDirectory plat localeCompare fileLimit root "" = Returns nodes ->
  forall above n,
    In (above, n) (located nodes) ->
    isSentinel n = false ->
    path n = String.concat (Path.sep plat) (above ++ [name n])
    /\ (plat = Posix -> path n = String.concat "/" (above ++ [name n]))
    /\ (plat = Win32 -> path n = String.concat "\" (above ++ [name n])).
Proof.
  intros Hok Hscan above n Hin Hsent.
  pose proof (located_paths plat localeCompare fileLimit root "" nodes
                Hscan Hok [] eq_refl (Forall_nil _) above n Hin Hsent) as H.
  split; [exact H|]. split; intros ->; exact H.
Qed.

Lemma path_is_joined_segments_witness :
  listingAll (isSegment Posix)
    (Returns [DirEnt "src" (Returns [DirEnt "app" (Returns [FileEnt "page.tsx"])])])
  = true
  /\ "src/app/page.tsx" = String.concat "/" (["src"; "app"] ++ ["page.tsx"]).
Proof.
  split; [reflexivity|].
  pose (page := {| name := "page.tsx"; path := "src/app/page.tsx"; type := file;
                   children := None; truncated := None; totalCount := None |}).
  pose (app := {| name := "app"; path := "src/app"; type := folder;
                  children := Some [page];
                  truncated := None; totalCount := None |}).
  pose (src := {| name := "src"; path := "src"; type := folder;
                  children := Some [app];
                  truncated := None; totalCount := None |}).
  exact (proj1 (proj2 (path_is_joined_segments Posix ordinalCompare 20
           (Returns [DirEnt "src"
                       (Returns [DirEnt "app" (Returns [FileEnt "page.tsx"])])])
           [src] eq_refl eq_refl ["src"; "app"] page
           (or_intror (or_intror (or_introl eq_refl))) eq_refl)) eq_refl).
Defined.

(** ** Sibling order *)

Section SortedFacts.

Variable localeCompare : string -> string -> Z.

(** [localeCompare] is a consistent comparator: of two names one is not after
    the other, and "not after" is transitive. *)
Hypothesis localeCompare_total :
  forall a b, 0 < localeCompare a b -> localeCompare b a <= 0.
Hypothesis localeCompare_trans :
  forall a b c,
    localeCompare a b <= 0 -> localeCompare b c <= 0 -> localeCompare a c <= 0.

Let leItems (a b : Item) : Prop := compareItems localeCompare a b <= 0.

Lemma compareItems_total (a b : Item) :
  0 < compareItems localeCompare a b -> leItems b a.
Proof using localeCompare_total.
  unfold leItems, compareItems.
  destruct (item_type a), (item_type b); simpl; try lia; apply localeCompare_total.
Qed.

Lemma compareItems_trans (a b c : Item) :
  leItems a b -> leItems b c -> leItems a c.
Proof using localeCompare_trans.
  unfold leItems, compareItems.
  destruct (item_type a), (item_type b), (item_type c); simpl; try lia;
    apply localeCompare_trans.
Qed.

Lemma insert_sorted (x : Item) (l : list Item) :
  StronglySorted leItems l -> StronglySorted leItems (insert localeCompare x l).
Proof using localeCompare_total localeCompare_trans.
  induction 1 as [|y l Hl IH Hy]; simpl.
  - repeat constructor.
  - destruct (Z.leb_spec (compareItems localeCompare x y) 0) as [Hle|Hgt].
    + constructor; [now constructor|].
      constructor; [exact Hle|].
      eapply Forall_impl; [|exact Hy].
      intros z Hz. exact (compareItems_trans x y z Hle Hz).
    + constructor; [exact IH|].
      apply Forall_forall. intros z Hz. apply insert_In in Hz.
      destruct Hz as [->|Hz].
      * now apply compareItems_total.
      * rewrite Forall_forall in Hy. now apply Hy.
Qed.

Lemma sort_sorted (l : list Item) : StronglySorted leItems (sort localeCompare l).
Proof using localeCompare_total localeCompare_trans.
  induction l as [|x l IH]; simpl; [constructor|now apply insert_sorted].
Qed.

Lemma emit_order (a b : Item) :
  leItems a b -> nodeOrder localeCompare (emit a) (emit b).
Proof.
  assert (Hty : forall it, type (emit it) = item_type it).
  { intros it. unfold emit. destruct (item_type it); [reflexivity|].
    now destruct (item_scan it). }
  assert (Hnm : forall it, name (emit it) = item_name it).
  { intros it. unfold emit. destruct (item_type it); [reflexivity|].
    now destruct (item_scan it). }
  unfold leItems, compareItems, nodeOrder. rewrite !Hty, !Hnm.
  destruct (item_type a), (item_type b); simpl; intros H; split;
    congruence || lia || auto.
Qed.

Lemma emitted_sorted (k : nat) (l : list Item) :
  StronglySorted leItems l ->
  StronglySorted (nodeOrder localeCompare) (map emit (firstn k l)).
Proof.
  intros Hl. revert k.
  induction Hl as [|x l Hl IH Hx]; intros [|k]; simpl; try constructor.
  - apply IH.
  - apply Forall_forall. intros n Hn.
    apply in_map_iff in Hn. destruct Hn as (y & <- & Hy).
    apply In_firstn in Hy. rewrite Forall_forall in Hx.
    apply emit_order. now apply Hx.
Qed.

End SortedFacts.

Lemma filter_emitted (l : list Item) (tail : list FileNode) (basePath : string)
    (total : nat) :
  tail = [] \/ tail = [sentinel basePath total] ->
  filter (fun n => negb (isSentinel n)) (map emit l ++ tail) = map emit l.
Proof.
  intros Ht. rewrite filter_app.
  replace (filter (fun n => negb (isSentinel n)) tail) with (@nil FileNode)
    by (destruct Ht as [->| ->]; reflexivity).
  rewrite app_nil_r.
  induction l as [|x l IH]; simpl; [reflexivity|].
  unfold isSentinel at 1. rewrite emit_not_sentinel. simpl. now rewrite IH.
Qed.

Lemma sentinel_after_file_counterexample :
  let a := {| name := "a"; path := "a"; type := file; children := None;
              truncated := None; totalCount := None |} in
  scanDirectory Posix ordinalCompare 2
    (Returns [FileEnt "a"; FileEnt "b"; FileEnt "c"]) ""
  = Returns [a; sentinel "" 3]
  /\ type a = file
  /\ type (sentinel "" 3) = folder.
Proof. repeat split. Qed.

(** C4 (amended).  With a [localeCompare] that is a consistent comparator, in
    every sibling sequence of the tree the nodes other than the truncation
    sentinel are in order: no file-kind node before a folder-kind node, and
    within each kind names in the order of [localeCompare]; and the scan is a
    function of the directory, so scanning it again yields the same
    sequence. *)
Theorem siblings_ordered (plat : Platform)
    (localeCompare : string -> string -> Z) (fileLimit : Z)
    (root : Outcome (list Dirent)) (basePath : string) (nodes : list FileNode) :
  (forall a b, 0 < localeCompare a b -> localeCompare b a <= 0) ->
  (forall a b c,
     localeCompare a b <= 0 -> localeCompare b c <= 0 -> localeCompare a c <= 0) ->
  scanDirectory plat localeCompare fileLimit root basePath = Returns nodes ->
  (forall parent sibs,
     In (parent, sibs) (levels nodes) ->
     StronglySorted (nodeOrder localeCompare)
       (filter (fun n => negb (isSentinel n)) sibs))
  /\ (forall again,
        scanDirectory plat localeCompare fileLimit root basePath = Returns again ->
        again = nodes).
Proof.
  intros Htotal Htrans Hscan. split.
  - intros parent sibs Hlevel.
    destruct (levels_scanned plat localeCompare fileLimit root basePath nodes
                Hscan parent sibs Hlevel) as (listing & _ & Hsibs & _).
    destruct listing as [items|e].
    + destruct (scanDirectory_shape plat localeCompare fileLimit items
                  (prefixOf basePath parent)) as (k & tail & E & Ht).
      rewrite E in Hsibs. injection Hsibs as <-.
      rewrite (filter_emitted _ _ _ _ Ht).
      apply emitted_sorted. apply sort_sorted; assumption.
    + rewrite scanDirectory_Throws in Hsibs. injection Hsibs as <-. constructor.
  - intros again Hagain. congruence.
Qed.

Lemma ordinalCompare_total (a b : string) :
  0 < ordinalCompare a b -> ordinalCompare b a <= 0.
Proof.
  unfold ordinalCompare. rewrite (String.compare_antisym b a).
  destruct (String.compare a b); simpl; lia.
Qed.

Lemma ordinalCompare_trans (a b c : string) :
  ordinalCompare a b <= 0 -> ordinalCompare b c <= 0 -> ordinalCompare a c <= 0.
Proof.
  unfold ordinalCompare.
  destruct (String.compare a b) eqn:Hab; [| |lia].
  - apply String_as_OT.cmp_eq in Hab. subst b. auto.
  - destruct (String.compare b c) eqn:Hbc; [| |lia].
    + apply String_as_OT.cmp_eq in Hbc. subst c. rewrite Hab. lia.
    + apply String_as_OT.cmp_lt in Hab, Hbc.
      pose proof (String_as_OT.lt_trans _ _ _ Hab Hbc) as Hac.
      apply String_as_OT.cmp_lt in Hac.
      change (String.compare a c) with (String_as_OT.cmp a c).
      rewrite Hac. lia.
Qed.

Lemma siblings_ordered_witness :
  let node (nm : string) (ty : NodeType) :=
    {| name := nm; path := nm; type := ty; children := None;
       truncated := None; totalCount := None |} in
  StronglySorted (nodeOrder ordinalCompare)
    [node "lib" folder; node "src" folder; node "a.txt" file; node "b.txt" file].
Proof.
  intros node.
  exact (proj1 (siblings_ordered Posix ordinalCompare 20
                  (Returns [FileEnt "b.txt"; DirEnt "src" (Throws EACCES);
                            FileEnt "a.txt"; FileEnt ".env";
                            DirEnt "node_modules" (Returns []);
                            DirEnt "lib" (Returns [])])
                  ""
                  [node "lib" folder; node "src" folder;
                   node "a.txt" file; node "b.txt" file]
                  ordinalCompare_total ordinalCompare_trans eq_refl)
           None _ (or_introl eq_refl)).
Defined.

(** ** The handler's responses *)

Section HandlerFacts.

Variable host : Host.
Variable body : JValue.
Variable requestedPath : string.
Variable fileLimit : JValue.
Variable limit : Z.

Hypothesis body_path : Json.get body "path" = Returns (JStr requestedPath).
Hypothesis path_given : requestedPath <> "".
Hypothesis body_limit : Json.get body "fileLimit" = Returns fileLimit.
Hypothesis limit_valid :
  validateLimit (Json.orDefault fileLimit (JNum 20)) = Returns limit.

(** Past the validation of its two fields the handler is on the checks of
    the resolved path. *)
Lemma POST_checks :
  POST host (Returns body)
  = if negb (isAllowed host (resolvePath host requestedPath)) then AccessDenied
    else match stat host (resolvePath host requestedPath) with
         | Throws _ => NotFound
         | Returns false => NotADirectory
         | Returns true =>
             match scanDirectory (platform host) (collate host) limit
                     (readdir host (resolvePath host requestedPath)) "" with
             | Returns structure =>
                 Success structure (resolvePath host requestedPath)
                   (countNodes structure) limit
             | Throws _ => InternalError
             end
         end.
Proof using body_path path_given body_limit limit_valid.
  unfold POST, handle, bind. rewrite body_path, body_limit.
  replace (Json.truthy (JStr requestedPath)) with true
    by (simpl; symmetry; apply negb_true_iff, String.eqb_neq, path_given).
  simpl negb. cbv iota. rewrite limit_valid.
  destruct (isAllowed host (resolvePath host requestedPath)); simpl;
    [|reflexivity].
  destruct (stat host (resolvePath host requestedPath)) as [[|]|e];
    try reflexivity.
  now destruct (scanDirectory (platform host) (collate host) limit
                  (readdir host (resolvePath host requestedPath)) "").
Qed.

(** Once the path is authorised and names a directory, the request succeeds
    whatever the file system below it yields. *)
Lemma POST_succeeds :
  isAllowed host (resolvePath host requestedPath) = true ->
  stat host (resolvePath host requestedPath) = Returns true ->
  exists structure,
    scanDirectory (platform host) (collate host) limit
      (readdir host (resolvePath host requestedPath)) "" = Returns structure
    /\ POST host (Returns body)
       = Success structure (resolvePath host requestedPath)
           (countNodes structure) limit.
Proof using body_path path_given body_limit limit_valid.
  intros Hallowed Hstat. rewrite POST_checks, Hallowed, Hstat. simpl.
  destruct (scanDirectory_returns (platform host) (collate host) limit
              (readdir host (resolvePath host requestedPath)) "")
    as [structure Hscan].
  exists structure. now rewrite Hscan.
Qed.

End HandlerFacts.

(** On win32 the allow-list looks at the drive letter alone, from C on; the
    long s has S as its upper case. *)
Example isAllowed_win32 :
  let win := {| platform := Win32; cwd := "C:\app";
                isAbsolute := fun _ => true; resolve := fun l => last l "";
                collate := ordinalCompare;
                stat := fun _ => Throws ENOENT;
                readdir := fun _ => Throws ENOENT |} in
  isAllowed win "c:\Users\me" = true
  /\ isAllowed win "D:\" = true
  /\ isAllowed win "A:\floppy" = false
  /\ isAllowed win "C:relative" = false
  /\ isAllowed win (utf8 383 ++ ":\share") = true.
Proof. repeat split. Qed.

(** The response to a request whose two fields could be read. *)
Lemma POST_fields (host : Host) (body requested fileLimit : JValue) :
  Json.get body "path" = Returns requested ->
  Json.get body "fileLimit" = Returns fileLimit ->
  POST host (Returns body)
  = if negb (Json.truthy requested) then InvalidInput
    else match validateLimit (Json.orDefault fileLimit (JNum 20)), requested with
         | Returns limit, JStr requestedPath =>
             if negb (isAllowed host (resolvePath host requestedPath))
             then AccessDenied
             else match stat host (resolvePath host requestedPath) with
                  | Throws _ => NotFound
                  | Returns false => NotADirectory
                  | Returns true =>
                      match scanDirectory (platform host) (collate host) limit
                              (readdir host (resolvePath host requestedPath)) ""
                      with
                      | Returns structure =>
                          Success structure (resolvePath host requestedPath)
                            (countNodes structure) limit
                      | Throws _ => InternalError
                      end
                  end
         | _, _ => InternalError
         end.
Proof.
  intros Hpath Hlimit. unfold POST, handle, bind. rewrite Hpath, Hlimit.
  destruct (Json.truthy requested); simpl; [|reflexivity].
  destruct (validateLimit (Json.orDefault fileLimit (JNum 20))) as [limit|e];
    [|reflexivity].
  destruct requested as [| | | |requestedPath| |]; try reflexivity.
  destruct (isAllowed host (resolvePath host requestedPath)); simpl;
    [|reflexivity].
  destruct (stat host (resolvePath host requestedPath)) as [[|]|e];
    try reflexivity.
  now destruct (scanDirectory (platform host) (collate host) limit
                  (readdir host (resolvePath host requestedPath)) "").
Qed.

Lemma refused_before_checks_counterexample :
  platform sampleHost = Posix
  /\ resolvePath sampleHost "/etc" = "/etc"
  /\ (startsWith "/etc" (cwd sampleHost)
      || startsWith "/etc" "/tmp"
      || startsWith "/etc" "/home"
      || startsWith "/etc" "/Users"
      || startsWith "/etc" "/var/tmp") = false
  /\ POST sampleHost
       (Returns (JObj [("path", JStr "/etc");
                       ("fileLimit", JObj [("toString", JNum 1)])]))
     = InternalError
  /\ POST sampleHost
       (Returns (JObj [("path", JStr "/etc");
                       ("fileLimit", JObj [("toString", JNum 1)])]))
     <> AccessDenied.
Proof. repeat split; try reflexivity. discriminate. Qed.

(** C7 (amended).  The top-level failures of a request whose body is read,
    in the order of the checks.  A missing, empty or otherwise falsy path is
    [InvalidInput], whatever the [fileLimit], and nothing else is.  Next the
    [fileLimit] is validated: with a truthy path and a [fileLimit] that
    cannot be converted to a string the response is [InternalError], wherever
    the path leads.  For a non-empty string path whose [fileLimit] validation
    returns, on POSIX the response is [AccessDenied] exactly when the resolved
    path starts with none of the working directory, /tmp, /home, /Users and
    /var/tmp, whatever [fs.stat] would answer; [NotFound] exactly when the
    path is authorised and [fs.stat] rejects; [NotADirectory] exactly when it
    is authorised and exists but is no directory; and a success response,
    the only response that carries a tree, exactly when it is authorised and
    is a directory. *)
Theorem top_level_failures (host : Host) (body requested fileLimit : JValue) :
  Json.get body "path" = Returns requested ->
  Json.get body "fileLimit" = Returns fileLimit ->
  (POST host (Returns body) = InvalidInput <-> Json.truthy requested = false)
  /\ (Json.truthy requested = true ->
      (exists e, validateLimit (Json.orDefault fileLimit (JNum 20)) = Throws e) ->
      POST host (Returns body) = InternalError)
  /\ (forall requestedPath limit,
        requested = JStr requestedPath ->
        requestedPath <> "" ->
        validateLimit (Json.orDefault fileLimit (JNum 20)) = Returns limit ->
        platform host = Posix ->
        let resolvedPath := resolvePath host requestedPath in
        let prefixed :=
          startsWith resolvedPath (cwd host)
          || startsWith resolvedPath "/tmp"
          || startsWith resolvedPath "/home"
          || startsWith resolvedPath "/Users"
          || startsWith resolvedPath "/var/tmp" in
        (POST host (Returns body) = AccessDenied <-> prefixed = false)
        /\ (POST host (Returns body) = NotFound
            <-> prefixed = true /\ exists e, stat host resolvedPath = Throws e)
        /\ (POST host (Returns body) = NotADirectory
            <-> prefixed = true /\ stat host resolvedPath = Returns false)
        /\ ((exists structure scanned count applied,
               POST host (Returns body) = Success structure scanned count applied)
            <-> prefixed = true /\ stat host resolvedPath = Returns true)).
Proof.
  intros Hpath Hlimit.
  pose proof (POST_fields host body requested fileLimit Hpath Hlimit) as Hpost.
  split; [|split].
  - rewrite Hpost. destruct (Json.truthy requested); simpl; [|tauto].
    split; [|discriminate]. intros H. exfalso.
    destruct (validateLimit (Json.orDefault fileLimit (JNum 20))) as [limit|e];
      [|discriminate H].
    destruct requested as [| | | |requestedPath| |]; try discriminate H.
    destruct (isAllowed host (resolvePath host requestedPath)); simpl in H;
      [|discriminate H].
    destruct (stat host (resolvePath host requestedPath)) as [[|]|e];
      try discriminate H.
    destruct (scanDirectory (platform host) (collate host) limit
                (readdir host (resolvePath host requestedPath)) "");
      discriminate H.
  - intros Htruthy [e Hthrows]. now rewrite Hpost, Htruthy, Hthrows.
  - intros requestedPath limit -> Hgiven Hvalid Hposix resolvedPath prefixed.
    assert (Htruthy : Json.truthy (JStr requestedPath) = true)
      by (simpl; apply negb_true_iff, String.eqb_neq, Hgiven).
    rewrite Htruthy, Hvalid in Hpost. simpl negb in Hpost. cbv iota in Hpost.
    fold resolvedPath in Hpost.
    assert (Hallowed : isAllowed host resolvedPath = prefixed)
      by (unfold isAllowed; now rewrite Hposix).
    rewrite Hallowed in Hpost. rewrite Hpost.
    destruct (scanDirectory_returns (platform host) (collate host) limit
                (readdir host resolvedPath) "") as [structure ->].
    assert (Hdone : forall scanned count,
              exists structure' scanned' count' applied',
                Success structure scanned count limit
                = Success structure' scanned' count' applied')
      by (intros; do 4 eexists; reflexivity).
    destruct prefixed; simpl; [destruct (stat host resolvedPath) as [[|]|e]|];
      (split; [|split; [|split]]); (split; intros H);
      try discriminate H; try reflexivity; try apply Hdone;
      try (destruct H as (s' & p' & c' & l' & H); discriminate H);
      try match type of H with
          | _ /\ (exists e', _) =>
              destruct H as [Hyes [e' Hstat]];
              first [discriminate Hyes | discriminate Hstat]
          | _ /\ _ =>
              destruct H as [Hyes Hstat];
              first [discriminate Hyes | discriminate Hstat]
          end;
      (split; [reflexivity|]); try reflexivity.
    exists e. reflexivity.
Qed.

Lemma top_level_failures_witness :
  POST sampleHost (requestFor "") = InvalidInput
  /\ POST sampleHost
       (Returns (JObj [("path", JStr "/etc");
                       ("fileLimit", JObj [("toString", JNum 1)])]))
     = InternalError
  /\ POST sampleHost (requestFor "/etc") = AccessDenied
  /\ POST sampleHost (requestFor "/tmp/missing") = NotFound
  /\ POST sampleHost (requestFor "/tmp/notes.txt") = NotADirectory
  /\ exists structure scanned count applied,
       POST sampleHost (requestFor "/tmp/project")
       = Success structure scanned count applied.
Proof.
  assert (Hlimit : validateLimit (Json.orDefault JUndefined (JNum 20)) = Returns 20)
    by reflexivity.
  assert (Hne : forall c s, String c s <> "") by discriminate.
  assert (Hcase : forall p,
            p <> "" ->
            let resolvedPath := resolvePath sampleHost p in
            let prefixed :=
              startsWith resolvedPath (cwd sampleHost)
              || startsWith resolvedPath "/tmp"
              || startsWith resolvedPath "/home"
              || startsWith resolvedPath "/Users"
              || startsWith resolvedPath "/var/tmp" in
            (POST sampleHost (requestFor p) = AccessDenied <-> prefixed = false)
            /\ (POST sampleHost (requestFor p) = NotFound
                <-> prefixed = true
                    /\ exists e, stat sampleHost resolvedPath = Throws e)
            /\ (POST sampleHost (requestFor p) = NotADirectory
                <-> prefixed = true /\ stat sampleHost resolvedPath = Returns false)
            /\ ((exists structure scanned count applied,
                   POST sampleHost (requestFor p)
                   = Success structure scanned count applied)
                <-> prefixed = true /\ stat sampleHost resolvedPath = Returns true)).
  { intros p Hp.
    exact (proj2 (proj2 (top_level_failures sampleHost (JObj [("path", JStr p)])
                           (JStr p) JUndefined eq_refl eq_refl))
             p 20 eq_refl Hp Hlimit eq_refl). }
  split; [|split; [|split; [|split; [|split]]]].
  - exact (proj2 (proj1 (top_level_failures sampleHost (JObj [("path", JStr "")])
                           (JStr "") JUndefined eq_refl eq_refl))
             eq_refl).
  - exact (proj1 (proj2 (top_level_failures sampleHost
                           (JObj [("path", JStr "/etc");
                                  ("fileLimit", JObj [("toString", JNum 1)])])
                           (JStr "/etc") (JObj [("toString", JNum 1)])
                           eq_refl eq_refl))
             eq_refl (ex_intro _ TypeError eq_refl)).
  - exact (proj2 (proj1 (Hcase "/etc" (Hne _ _))) eq_refl).
  - exact (proj2 (proj1 (proj2 (Hcase "/tmp/missing" (Hne _ _))))
             (conj eq_refl (ex_intro _ ENOENT eq_refl))).
  - exact (proj2 (proj1 (proj2 (proj2 (Hcase "/tmp/notes.txt" (Hne _ _)))))
             (conj eq_refl eq_refl)).
  - exact (proj2 (proj2 (proj2 (proj2 (Hcase "/tmp/project" (Hne _ _)))))
             (conj eq_refl eq_refl)).
Defined.

(** ** Read failures *)

(** C10.  [scanDirectory] returns for every file system: a listing that
    fails, that of the scan root included, yields the empty node list; the
    recursive call on a collected entry therefore never throws, so the
    [catch] around it is never entered; and a request whose path passed the
    checks but whose root cannot be listed succeeds with an empty structure
    and count 0, not with the internal-error response. *)
Theorem scanDirectory_never_throws :
  (forall plat localeCompare fileLimit listing basePath,
     exists nodes,
       scanDirectory plat localeCompare fileLimit listing basePath = Returns nodes)
  /\ (forall plat localeCompare fileLimit e basePath,
        scanDirectory plat localeCompare fileLimit (Throws e) basePath = Returns [])
  /\ (forall plat localeCompare fileLimit basePath items it,
        In it (allItems plat localeCompare fileLimit basePath items) ->
        exists cs, item_scan it = Returns cs)
  /\ (forall host body requestedPath fileLimit limit e,
        Json.get body "path" = Returns (JStr requestedPath) ->
        requestedPath <> "" ->
        Json.get body "fileLimit" = Returns fileLimit ->
        validateLimit (Json.orDefault fileLimit (JNum 20)) = Returns limit ->
        isAllowed host (resolvePath host requestedPath) = true ->
        stat host (resolvePath host requestedPath) = Returns true ->
        readdir host (resolvePath host requestedPath) = Throws e ->
        POST host (Returns body)
        = Success [] (resolvePath host requestedPath) 0 limit
        /\ POST host (Returns body) <> InternalError).
Proof.
  split; [|split; [|split]].
  - intros. apply scanDirectory_returns.
  - reflexivity.
  - intros plat localeCompare fileLimit basePath items it Hin.
    unfold allItems in Hin.
    apply (proj1 (sort_In localeCompare it _)) in Hin.
    apply collect_In in Hin. destruct Hin as (d & _ & _ & ->).
    apply scanEntry_returns.
  - intros host body requestedPath fileLimit limit e
      Hpath Hgiven Hlimit Hvalid Hallowed Hstat Hread.
    rewrite (POST_checks host body requestedPath fileLimit limit
               Hpath Hgiven Hlimit Hvalid).
    rewrite Hallowed, Hstat, Hread. simpl. split; [reflexivity|discriminate].
Qed.

Lemma scanDirectory_never_throws_witness :
  POST sampleHost (requestFor "/tmp/locked") = Success [] "/tmp/locked" 0 20.
Proof.
  assert (Hne : "/tmp/locked" <> "") by discriminate.
  exact (proj1 (proj2 (proj2 (proj2 scanDirectory_never_throws))
                  sampleHost (JObj [("path", JStr "/tmp/locked")])
                  "/tmp/locked" JUndefined 20 EACCES
                  eq_refl Hne eq_refl eq_refl eq_refl eq_refl eq_refl)).
Defined.

Lemma unreadable_folder_dropped_counterexample :
  scanDirectory Posix ordinalCompare 1
    (Returns [DirEnt "a" (Throws EACCES); FileEnt "b"]) ""
  = Returns [sentinel "" 2]
  /\ ~ (exists n, In n [sentinel "" 2] /\ name n = "a").
Proof.
  split; [reflexivity|].
  intros (n & [<-|[]] & Hname). discriminate.
Qed.

Lemma NoDup_map_eq {A B : Type} (f : A -> B) (l : list A) (x y : A) :
  NoDup (map f l) -> In x l -> In y l -> f x = f y -> x = y.
Proof.
  induction l as [|z l IH]; simpl; [intros _ []|].
  intros Hnd Hx Hy Hxy. inversion_clear Hnd as [|? ? Hz Hl].
  destruct Hx as [->|Hx], Hy as [->|Hy]; auto.
  - exfalso. apply Hz. rewrite Hxy. now apply in_map.
  - exfalso. apply Hz. rewrite <- Hxy. now apply in_map.
Qed.

(** C8 (amended).  A visible sub-directory whose listing fails is scanned as
    if it were empty: the scan of its parent returns, and returns what it
    would for an empty sub-directory.  The node that stands for it, a folder
    node without a children field, is among the nodes of its level whenever
    the level is not truncated or the entry is among the first [limit - 1]
    of the sorted entries of its directory; in a directory of distinct names
    it is among them in no other case, and a truncated level is those first
    [limit - 1] entries and the sentinel.  A request whose path passed the
    checks succeeds whatever fails below the root. *)
Theorem unreadable_folder_emitted (plat : Platform)
    (localeCompare : string -> string -> Z) (fileLimit : Z)
    (before after : list Dirent) (entryName : string) (e : Exn)
    (basePath : string) :
  1 <= fileLimit ->
  visible entryName = true ->
  let items := before ++ DirEnt entryName (Throws e) :: after in
  let unreadable :=
    {| name := entryName;
       path := relativePath plat basePath (DirEnt entryName (Throws e));
       type := folder;
       children := None; truncated := None; totalCount := None |} in
  let entry :=
    {| item_name := entryName;
       item_path := relativePath plat basePath (DirEnt entryName (Throws e));
       item_type := folder;
       item_scan := Returns [] |} in
  let kept :=
    firstn (Z.to_nat (fileLimit - 1))
      (allItems plat localeCompare fileLimit basePath items) in
  (exists nodes,
     scanDirectory plat localeCompare fileLimit (Returns items) basePath
     = Returns nodes
     /\ scanDirectory plat localeCompare fileLimit
          (Returns (before ++ DirEnt entryName (Returns []) :: after)) basePath
        = Returns nodes
     /\ In entry (allItems plat localeCompare fileLimit basePath items)
     /\ (Z.of_nat (filteredCount items) <= fileLimit \/ In entry kept ->
         In unreadable nodes)
     /\ (NoDup (map dirent_name items) ->
         In unreadable nodes ->
         Z.of_nat (filteredCount items) <= fileLimit \/ In entry kept)
     /\ (fileLimit < Z.of_nat (filteredCount items) ->
         nodes = map emit kept ++ [sentinel basePath (filteredCount items)]))
  /\ (forall host body requestedPath limitField limit,
        Json.get body "path" = Returns (JStr requestedPath) ->
        requestedPath <> "" ->
        Json.get body "fileLimit" = Returns limitField ->
        validateLimit (Json.orDefault limitField (JNum 20)) = Returns limit ->
        isAllowed host (resolvePath host requestedPath) = true ->
        stat host (resolvePath host requestedPath) = Returns true ->
        exists structure,
          POST host (Returns body)
          = Success structure (resolvePath host requestedPath)
              (countNodes structure) limit).
Proof.
  intros HL Hvis items unreadable entry kept. split.
  - pose proof (scanDirectory_layout plat localeCompare fileLimit items basePath HL)
      as Hscan.
    eexists. split; [exact Hscan|].
    assert (Hsame :
              collect plat (scanEntry plat localeCompare fileLimit) basePath
                (before ++ DirEnt entryName (Returns []) :: after)
              = collect plat (scanEntry plat localeCompare fileLimit) basePath items).
    { unfold items. rewrite !collect_filter, !filter_app, !map_app. simpl.
      now rewrite Hvis. }
    split.
    { rewrite <- Hscan. unfold scanDirectory, scanBody. simpl.
      now rewrite Hsame. }
    assert (Hentry : In entry (allItems plat localeCompare fileLimit basePath items)).
    { unfold allItems. apply sort_In.
      unfold items. rewrite collect_filter, filter_app, map_app. simpl.
      rewrite Hvis. apply in_or_app. right. left. reflexivity. }
    split; [exact Hentry|].
    destruct (Z.leb_spec (Z.of_nat (filteredCount items)) fileLimit) as [HN|HN].
    + split; [|split; [auto|lia]].
      intros _. apply in_map_iff. exists entry. split; [reflexivity|exact Hentry].
    + split; [|split; [|reflexivity]].
      * intros [Hfit|Hkept]; [lia|].
        apply in_or_app. left. apply in_map_iff. exists entry.
        split; [reflexivity|exact Hkept].
      * intros Hnames Hin. right.
        apply in_app_or in Hin. destruct Hin as [Hin|[Hin|[]]]; [|discriminate Hin].
        apply in_map_iff in Hin. destruct Hin as (x & Hx & Hin).
        replace entry with x; [exact Hin|].
        pose proof (In_firstn _ _ _ Hin) as Hsorted.
        unfold allItems in Hsorted. apply sort_In in Hsorted.
        apply collect_In in Hsorted. destruct Hsorted as (d & Hd & _ & ->).
        assert (Hemit : forall it, name (emit it) = item_name it)
          by (intros [nm pth [|] [cs|e']]; reflexivity).
        assert (Hname : dirent_name d = entryName).
        { apply (f_equal name) in Hx. now rewrite Hemit in Hx. }
        assert (Hhere : In (DirEnt entryName (Throws e)) items)
          by (unfold items; apply in_or_app; right; now left).
        now rewrite (NoDup_map_eq dirent_name items d (DirEnt entryName (Throws e))
                       Hnames Hd Hhere Hname).
  - intros host body requestedPath limitField limit
      Hpath Hgiven Hlimit Hvalid Hallowed Hstat.
    destruct (POST_succeeds host body requestedPath limitField limit
                Hpath Hgiven Hlimit Hvalid Hallowed Hstat) as (structure & _ & Hpost).
    exists structure. exact Hpost.
Qed.

Lemma unreadable_folder_emitted_witness :
  exists nodes,
    scanDirectory Posix ordinalCompare 3
      (Returns ([FileEnt "d"; FileEnt "b"]
                ++ DirEnt "a" (Throws EACCES) :: [FileEnt "c"])) ""
    = Returns nodes
    /\ In {| name := "a"; path := "a"; type := folder;
             children := None; truncated := None; totalCount := None |} nodes
    /\ nodes
       = [ {| name := "a"; path := "a"; type := folder;
              children := None; truncated := None; totalCount := None |};
           {| name := "b"; path := "b"; type := file;
              children := None; truncated := None; totalCount := None |};
           sentinel "" 4 ].
Proof.
  assert (HL : 1 <= 3) by lia.
  destruct (proj1 (unreadable_folder_emitted Posix ordinalCompare 3
                     [FileEnt "d"; FileEnt "b"] [FileEnt "c"] "a" EACCES ""
                     HL eq_refl))
    as (nodes & Hscan & _ & _ & Hin & _ & Hcut).
  exists nodes. split; [exact Hscan|].
  split; [apply Hin; right; left; reflexivity|].
  apply Hcut. vm_compute. reflexivity.
Defined.

(** * Further properties of the scanner and the handler *)

(** ** The node count *)

Lemma countNodes_from (nodes : list FileNode) (count : nat) :
  fold_left (fun c n => (c + countNode n)%nat) nodes count
  = (count + countNodes nodes)%nat.
Proof.
  unfold countNodes. revert count.
  induction nodes as [|n nodes IH]; intros count; simpl; [lia|].
  rewrite IH, (IH (countNode n)). lia.
Qed.

Lemma countNodes_cons (n : FileNode) (nodes : list FileNode) :
  countNodes (n :: nodes) = (countNode n + countNodes nodes)%nat.
Proof. unfold countNodes at 1. simpl. apply countNodes_from. Qed.

Lemma countNode_eq (n : FileNode) :
  countNode n
  = S (match children n with
       | Some cs => countNodes cs
       | None => 0%nat
       end).
Proof. destruct n as [nm pth ty [cs|] tr tc]; reflexivity. Qed.

Lemma countNode_located (n : FileNode) :
  forall above, countNode n = List.length (locatedBelow above n).
Proof.
  induction n as [nm pth ty tr tc|nm pth ty cs tr tc IH] using FileNode_nested_ind;
    intros above; rewrite countNode_eq, locatedBelow_eq; simpl; [reflexivity|].
  f_equal. generalize (above ++ [nm]). intros above'.
  induction IH as [|c cs Hc _ IHcs]; [reflexivity|].
  rewrite countNodes_cons. simpl. rewrite length_app, <- IHcs. f_equal. apply Hc.
Qed.

Lemma countNodes_located (nodes : list FileNode) :
  countNodes nodes = List.length (located nodes).
Proof.
  unfold located. induction nodes as [|n nodes IH]; [reflexivity|].
  rewrite countNodes_cons. simpl.
  now rewrite length_app, <- IH, <- (countNode_located n []).
Qed.

(** X1.  [countNodes] counts every node of a tree once, sentinels and the
    nodes below folder nodes included: it is the length of the pre-order
    list of the tree's nodes; so it is at least the number of top-level nodes
    and adds up over concatenation. *)
Theorem countNodes_counts_every_node (nodes more : list FileNode) :
  countNodes nodes = List.length (located nodes)
  /\ (List.length nodes <= countNodes nodes)%nat
  /\ countNodes (nodes ++ more) = (countNodes nodes + countNodes more)%nat.
Proof.
  split; [|split].
  - apply countNodes_located.
  - induction nodes as [|n nodes IH]; [apply Nat.le_0_l|].
    rewrite countNodes_cons, countNode_eq. simpl. lia.
  - induction nodes as [|n nodes IH]; [reflexivity|].
    simpl. rewrite !countNodes_cons, IH. lia.
Qed.

(** ** Invariants of every level *)

Lemma In_removelast {A : Type} (l : list A) (x : A) :
  In x (removelast l) -> In x l.
Proof.
  induction l as [|y l IH]; simpl; [auto|].
  destruct l as [|z l]; [intros []|].
  intros [->|Hx]; [now left|right; now apply IH].
Qed.

Section LevelInvariants.

Variable plat : Platform.
Variable localeCompare : string -> string -> Z.
Variable fileLimit : Z.

(** A level under a positive limit, as laid out by the loop. *)
Lemma level_layout (root : Outcome (list Dirent)) (basePath : string)
    (nodes : list FileNode) (parent : option FileNode) (sibs : list FileNode) :
  1 <= fileLimit ->
  scanDirectory plat localeCompare fileLimit root basePath = Returns nodes ->
  In (parent, sibs) (levels nodes) ->
  sibs = []
  \/ exists items,
       Within root (Returns items)
       /\ sibs
          = if Z.of_nat (filteredCount items) <=? fileLimit
            then map emit (allItems plat localeCompare fileLimit
                             (prefixOf basePath parent) items)
            else map emit (firstn (Z.to_nat (fileLimit - 1))
                             (allItems plat localeCompare fileLimit
                                (prefixOf basePath parent) items))
                 ++ [sentinel (prefixOf basePath parent) (filteredCount items)].
Proof.
  intros Hpos Hscan Hlevel.
  destruct (levels_scanned plat localeCompare fileLimit root basePath nodes
              Hscan parent sibs Hlevel) as (listing & Hw & Hsibs & _).
  destruct listing as [items|e].
  - right. exists items. split; [exact Hw|].
    rewrite (scanDirectory_layout plat localeCompare fileLimit items _ Hpos)
      in Hsibs.
    now injection Hsibs as <-.
  - left. rewrite scanDirectory_Throws in Hsibs. now injection Hsibs as <-.
Qed.

Lemma emitted_real (l : list Item) (n : FileNode) :
  In n (map emit l) -> isSentinel n = false.
Proof.
  intros Hn. apply in_map_iff in Hn. destruct Hn as (it & <- & _).
  unfold isSentinel. now rewrite emit_not_sentinel.
Qed.

End LevelInvariants.

Lemma level_bound (plat : Platform)
    (localeCompare : string -> string -> Z) (fileLimit : Z)
    (root : Outcome (list Dirent)) (basePath : string) (nodes : list FileNode) :
  1 <= fileLimit ->
  scanDirectory plat localeCompare fileLimit root basePath = Returns nodes ->
  forall parent sibs,
    In (parent, sibs) (levels nodes) ->
    Z.of_nat (List.length sibs) <= fileLimit
    /\ (forall n, In n (removelast sibs) -> isSentinel n = false).
Proof.
  intros Hpos Hscan parent sibs Hlevel.
  destruct (level_layout plat localeCompare fileLimit root basePath nodes
              parent sibs Hpos Hscan Hlevel) as [->|(items & _ & ->)].
  - split; [simpl; lia|intros n []].
  - pose proof (allItems_length plat localeCompare fileLimit
                  (prefixOf basePath parent) items) as Hlen.
    destruct (Z.leb_spec (Z.of_nat (filteredCount items)) fileLimit) as [HN|HN].
    + split; [rewrite length_map, Hlen; exact HN|].
      intros n Hn. apply (emitted_real (allItems plat localeCompare fileLimit
                                          (prefixOf basePath parent) items)).
      now apply In_removelast.
    + split.
      * rewrite length_app, length_map, length_firstn, Hlen. simpl. lia.
      * intros n Hn. rewrite removelast_last in Hn.
        now apply emitted_real in Hn.
Qed.


(** X2.  Under a positive limit no level of the result tree, at any depth,
    holds more nodes than the limit, and only the last node of a level can
    be the truncation sentinel. *)
Theorem levels_within_limit (plat : Platform)
    (localeCompare : string -> string -> Z) (fileLimit : Z)
    (root : Outcome (list Dirent)) (basePath : string) (nodes : list FileNode) :
  1 <= fileLimit ->
  scanDirectory plat localeCompare fileLimit root basePath = Returns nodes ->
  forall parent sibs,
    In (parent, sibs) (levels nodes) ->
    Z.of_nat (List.length sibs) <= fileLimit
    /\ (forall n, In n (removelast sibs) -> isSentinel n = false).
Proof.
  intros Hpos Hscan parent sibs Hlevel.
  destruct (level_bound plat localeCompare fileLimit root basePath nodes
              Hpos Hscan parent sibs Hlevel) as [Hlength Hlast].
  split; [exact Hlength|exact Hlast].
Qed.

Lemma levels_within_limit_witness :
  Z.of_nat (List.length [sentinel "src" 5]) <= 1.
Proof.
  pose (src := {| name := "src"; path := "src"; type := folder;
                  children := Some [sentinel "src" 5];
                  truncated := None; totalCount := None |}).
  assert (Hpos : 1 <= 1) by lia.
  exact (proj1 (levels_within_limit Posix ordinalCompare 1
                  (Returns [DirEnt "src"
                              (Returns [FileEnt "a"; FileEnt "b"; FileEnt "c";
                                        FileEnt "d"; FileEnt "e"])])
                  "" [src] Hpos eq_refl (Some src) [sentinel "src" 5]
                  (or_intror (or_introl eq_refl)))).
Defined.

(** X3.  The optional fields of every node of a result tree agree with its
    kind: a children field is never an empty list and sits on a folder node
    that is no sentinel; a file node has no children, [truncated] or
    [totalCount] field; [truncated] is absent or [true], and is there exactly
    when [totalCount] is. *)
Theorem node_fields_consistent (plat : Platform)
    (localeCompare : string -> string -> Z) (fileLimit : Z)
    (root : Outcome (list Dirent)) (basePath : string) (nodes : list FileNode) :
  scanDirectory plat localeCompare fileLimit root basePath = Returns nodes ->
  forall parent sibs n,
    In (parent, sibs) (levels nodes) ->
    In n sibs ->
    (forall cs, children n = Some cs ->
       cs <> [] /\ type n = folder /\ truncated n = None)
    /\ (type n = file ->
        children n = None /\ truncated n = None /\ totalCount n = None)
    /\ (truncated n = None \/ truncated n = Some true)
    /\ (truncated n = Some true <-> totalCount n <> None).
Proof.
  intros Hscan parent sibs n Hlevel Hn.
  destruct (level_listing plat localeCompare fileLimit root basePath nodes
              parent sibs n Hscan Hlevel Hn) as (items & _ & _ & Hnode & _).
  assert (Hne : forall cs cs', nonEmpty cs = Some cs' -> cs' <> []).
  { intros cs cs'. unfold nonEmpty.
    destruct cs; simpl; [discriminate|]. intros [= <-]. discriminate. }
  destruct Hnode as [->|m _ _ ->|m sub cs _ _ _ ->]; simpl;
    (split; [|split; [|split; [|split]]]);
    try discriminate; try congruence; auto.
  - intros cs' Hcs. split; [exact (Hne _ _ Hcs)|auto].
Qed.

Lemma node_fields_consistent_witness :
  [sentinel "src" 2] <> []
  /\ type {| name := "src"; path := "src"; type := folder;
             children := Some [sentinel "src" 2];
             truncated := None; totalCount := None |} = folder
  /\ truncated (sentinel "src" 2) = Some true.
Proof.
  pose (src := {| name := "src"; path := "src"; type := folder;
                  children := Some [sentinel "src" 2];
                  truncated := None; totalCount := None |}).
  pose proof (node_fields_consistent Posix ordinalCompare 1
                (Returns [DirEnt "src" (Returns [FileEnt "a"; FileEnt "b"])])
                "" [src] eq_refl) as Hfields.
  destruct (Hfields None [src] src (or_introl eq_refl) (or_introl eq_refl))
    as (Hchildren & _).
  destruct (Hchildren [sentinel "src" 2] eq_refl) as (Hne & Hfolder & _).
  destruct (Hfields (Some src) [sentinel "src" 2] (sentinel "src" 2)
              (or_intror (or_introl eq_refl)) (or_introl eq_refl))
    as (_ & _ & _ & Hcount).
  split; [exact Hne|split; [exact Hfolder|]].
  apply (proj2 Hcount). discriminate.
Defined.

(** X4.  Under a positive limit a truncation sentinel stands for at least
    two entries: the level that holds it is filled to the limit, its
    [totalCount] exceeds the limit, and the entries of the directory that
    got no node of their own are [totalCount - (limit - 1) >= 2]. *)
Theorem sentinel_hides_two_or_more (plat : Platform)
    (localeCompare : string -> string -> Z) (fileLimit : Z)
    (root : Outcome (list Dirent)) (basePath : string) (nodes : list FileNode) :
  1 <= fileLimit ->
  scanDirectory plat localeCompare fileLimit root basePath = Returns nodes ->
  forall parent sibs n,
    In (parent, sibs) (levels nodes) ->
    In n sibs ->
    isSentinel n = true ->
    exists total,
      totalCount n = Some total
      /\ Z.of_nat (List.length sibs) = fileLimit
      /\ fileLimit < Z.of_nat total
      /\ 2 <= Z.of_nat total - (Z.of_nat (List.length sibs) - 1).
Proof.
  intros Hpos Hscan parent sibs n Hlevel Hn Hsent.
  destruct (level_layout plat localeCompare fileLimit root basePath nodes
              parent sibs Hpos Hscan Hlevel) as [->|(items & _ & Hsibs)];
    [destruct Hn|].
  pose proof (allItems_length plat localeCompare fileLimit
                (prefixOf basePath parent) items) as Hlen.
  destruct (Z.leb_spec (Z.of_nat (filteredCount items)) fileLimit) as [HN|HN];
    subst sibs.
  - apply emitted_real in Hn. congruence.
  - apply in_app_or in Hn. destruct Hn as [Hn|[<-|[]]].
    + apply emitted_real in Hn. congruence.
    + exists (filteredCount items). split; [reflexivity|].
      rewrite length_app, length_map, length_firstn, Hlen. simpl. lia.
Qed.

Lemma sentinel_hides_two_or_more_witness :
  exists total,
    totalCount (sentinel "" 3) = Some total
    /\ 2 <= Z.of_nat total - (Z.of_nat (List.length [sentinel "" 3]) - 1).
Proof.
  assert (Hpos : 1 <= 1) by lia.
  destruct (sentinel_hides_two_or_more Posix ordinalCompare 1
              (Returns [FileEnt "a"; FileEnt "b"; FileEnt "c"]) ""
              [sentinel "" 3] Hpos eq_refl None [sentinel "" 3] (sentinel "" 3)
              (or_introl eq_refl) (or_introl eq_refl) eq_refl)
    as (total & Htotal & _ & _ & Hhidden).
  exists total. split; [exact Htotal|exact Hhidden].
Defined.

(** ** What a level lists *)

(** X5.  A directory whose visible entries fit the limit is listed in full:
    the names and kinds of the emitted nodes are those of the entries that
    pass the filter, each once, in some order. *)
Theorem fitting_directory_listed_in_full (plat : Platform)
    (localeCompare : string -> string -> Z) (fileLimit : Z)
    (items : list Dirent) (basePath : string) :
  1 <= fileLimit ->
  Z.of_nat (filteredCount items) <= fileLimit ->
  exists nodes,
    scanDirectory plat localeCompare fileLimit (Returns items) basePath
    = Returns nodes
    /\ Permutation
         (map (fun n => (name n, type n)) nodes)
         (map (fun d => (dirent_name d, if isDirectory d then folder else file))
            (filter (fun d => visible (dirent_name d)) items)).
Proof.
  intros Hpos Hfit.
  rewrite (scanDirectory_layout plat localeCompare fileLimit items basePath Hpos).
  apply Z.leb_le in Hfit. rewrite Hfit.
  eexists. split; [reflexivity|].
  rewrite map_map. unfold allItems.
  rewrite <- (sort_Permutation localeCompare), collect_filter, map_map.
  apply Permutation_refl'. apply map_ext. intros d.
  unfold emit. destruct d as [n|n sub];
    cbn [item_type item_name item_scan isDirectory dirent_name];
    [reflexivity|].
  now destruct (scanEntry plat localeCompare fileLimit (DirEnt n sub) _).
Qed.

Lemma fitting_directory_listed_in_full_witness :
  exists nodes,
    scanDirectory Posix ordinalCompare 20
      (Returns [FileEnt "b.txt"; FileEnt ".env"; DirEnt "src" (Returns [])]) ""
    = Returns nodes
    /\ Permutation (map (fun n => (name n, type n)) nodes)
         [("b.txt", file); ("src", folder)].
Proof.
  assert (Hpos : 1 <= 20) by lia.
  exact (fitting_directory_listed_in_full Posix ordinalCompare 20
           [FileEnt "b.txt"; FileEnt ".env"; DirEnt "src" (Returns [])] ""
           Hpos ltac:(vm_compute; discriminate)).
Defined.

(** ** The order of the listing *)

Lemma filter_Permutation {A : Type} (f : A -> bool) (l l' : list A) :
  Permutation l l' -> Permutation (filter f l) (filter f l').
Proof.
  induction 1 as [|x l l' _ IH|x y l|l l' l'' _ IH1 _ IH2]; simpl.
  - constructor.
  - destruct (f x); [now constructor|exact IH].
  - destruct (f x), (f y); try reflexivity. apply perm_swap.
  - now transitivity (filter f l').
Qed.

(** Two sorted arrangements of the same elements are the same list when no
    two of the elements are each before the other. *)
Lemma sorted_unique {A : Type} (R : A -> A -> Prop) (l1 : list A) :
  forall l2,
    StronglySorted R l1 -> StronglySorted R l2 ->
    Permutation l1 l2 ->
    (forall x y, In x l1 -> In y l1 -> R x y -> R y x -> x = y) ->
    l1 = l2.
Proof.
  induction l1 as [|a l1 IH]; intros l2 Hs1 Hs2 Hperm Hanti.
  - apply Permutation_nil in Hperm. now subst.
  - destruct l2 as [|b l2].
    + apply Permutation_sym, Permutation_nil in Hperm. discriminate.
    + inversion_clear Hs1 as [|? ? Hs1' Ha].
      inversion_clear Hs2 as [|? ? Hs2' Hb].
      rewrite Forall_forall in Ha, Hb.
      assert (Hab : a = b).
      { assert (Hain : In a (b :: l2))
          by (apply (Permutation_in a Hperm); now left).
        assert (Hbin : In b (a :: l1))
          by (apply (Permutation_in b (Permutation_sym Hperm)); now left).
        destruct Hain as [->|Hain]; [reflexivity|].
        destruct Hbin as [->|Hbin]; [reflexivity|].
        apply Hanti; [now left|now right|now apply Ha|now apply Hb]. }
      subst b. f_equal.
      apply IH; try assumption.
      * now apply Permutation_cons_inv in Hperm.
      * intros x y Hx Hy. apply Hanti; now right.
Qed.

(** X6.  The scan of a directory does not depend on the order in which
    [readdir] lists it: two listings with the same entries, the names all
    different, give the same nodes, provided [localeCompare] is a consistent
    comparator that tells different names apart. *)
Theorem scan_independent_of_listing_order (plat : Platform)
    (localeCompare : string -> string -> Z) (fileLimit : Z)
    (listed relisted : list Dirent) (basePath : string) :
  (forall a b, 0 < localeCompare a b -> localeCompare b a <= 0) ->
  (forall a b c,
     localeCompare a b <= 0 -> localeCompare b c <= 0 -> localeCompare a c <= 0) ->
  (forall a b, localeCompare a b <= 0 -> localeCompare b a <= 0 -> a = b) ->
  NoDup (map dirent_name listed) ->
  Permutation listed relisted ->
  scanDirectory plat localeCompare fileLimit (Returns listed) basePath
  = scanDirectory plat localeCompare fileLimit (Returns relisted) basePath.
Proof.
  intros Htotal Htrans Hsep Hnames Hperm.
  assert (Hsame :
            sort localeCompare
              (collect plat (scanEntry plat localeCompare fileLimit) basePath listed)
            = sort localeCompare
                (collect plat (scanEntry plat localeCompare fileLimit) basePath
                   relisted)).
  { apply (sorted_unique (fun a b => compareItems localeCompare a b <= 0)).
    - now apply sort_sorted.
    - now apply sort_sorted.
    - rewrite <- !sort_Permutation, !collect_filter.
      apply Permutation_map. now apply filter_Permutation.
    - intros x y Hx Hy Hxy Hyx.
      apply (proj1 (sort_In localeCompare _ _)) in Hx, Hy.
      apply collect_In in Hx, Hy.
      destruct Hx as (d & Hd & _ & ->), Hy as (d' & Hd' & _ & ->).
      assert (Hname : dirent_name d = dirent_name d').
      { unfold compareItems in Hxy, Hyx. simpl in Hxy, Hyx.
        destruct (isDirectory d), (isDirectory d'); simpl in Hxy, Hyx;
          try lia; now apply Hsep. }
      now rewrite (NoDup_map_eq dirent_name listed d d' Hnames Hd Hd' Hname). }
  unfold scanDirectory, scanBody. simpl. now rewrite Hsame.
Qed.

Lemma ordinalCompare_separates (a b : string) :
  ordinalCompare a b <= 0 -> ordinalCompare b a <= 0 -> a = b.
Proof.
  unfold ordinalCompare. rewrite (String.compare_antisym a b).
  destruct (String.compare b a) eqn:E; simpl; try lia.
  intros _ _. symmetry. now apply String.compare_eq_iff.
Qed.

Lemma ordinalCompare_consistent :
  (forall a b, 0 < ordinalCompare a b -> ordinalCompare b a <= 0)
  /\ (forall a b c,
        ordinalCompare a b <= 0 -> ordinalCompare b c <= 0 ->
        ordinalCompare a c <= 0).
Proof.
  split.
  - intros a b. unfold ordinalCompare. rewrite (String.compare_antisym b a).
    destruct (String.compare a b); simpl; lia.
  - intros a b c. unfold ordinalCompare.
    destruct (String.compare a b) eqn:Hab; [| |lia].
    + apply String_as_OT.cmp_eq in Hab. subst b. auto.
    + destruct (String.compare b c) eqn:Hbc; [| |lia].
      * apply String_as_OT.cmp_eq in Hbc. subst c. rewrite Hab. lia.
      * apply String_as_OT.cmp_lt in Hab, Hbc.
        pose proof (String_as_OT.lt_trans _ _ _ Hab Hbc) as Hac.
        apply String_as_OT.cmp_lt in Hac.
        change (String.compare a c) with (String_as_OT.cmp a c).
        rewrite Hac. lia.
Qed.

Lemma scan_independent_of_listing_order_witness :
  scanDirectory Posix ordinalCompare 2
    (Returns [FileEnt "b"; DirEnt "src" (Returns []); FileEnt "a"]) ""
  = scanDirectory Posix ordinalCompare 2
      (Returns [FileEnt "a"; FileEnt "b"; DirEnt "src" (Returns [])]) "".
Proof.
  apply (scan_independent_of_listing_order Posix ordinalCompare 2
           [FileEnt "b"; DirEnt "src" (Returns []); FileEnt "a"]
           [FileEnt "a"; FileEnt "b"; DirEnt "src" (Returns [])] ""
           (proj1 ordinalCompare_consistent) (proj2 ordinalCompare_consistent)
           ordinalCompare_separates).
  - repeat constructor; simpl; intuition discriminate.
  - apply Permutation_cons_app
      with (l1 := [FileEnt "a"]) (l2 := [DirEnt "src" (Returns [])]).
    apply Permutation_cons_app with (l1 := [FileEnt "a"]) (l2 := []).
    reflexivity.
Defined.

(** ** The responses of the handler *)

Lemma validateLimit_range (v : JValue) (limit : Z) :
  validateLimit v = Returns limit -> 1 <= limit <= 100.
Proof.
  unfold validateLimit, bind.
  destruct (ParseInt.parseInt v) as [parsed|e]; [|discriminate].
  intros [= <-]. lia.
Qed.

Lemma validateLimit_fixed (limit : Z) :
  1 <= limit <= 100 -> validateLimit (JNum limit) = Returns limit.
Proof.
  intros Hrange. rewrite validateLimit_integer; [f_equal; lia|].
  assert (10 ^ 21 = 1000000000000000000000) by reflexivity. lia.
Qed.

Lemma get_Throws (body : JValue) (key : string) (e : Exn) :
  Json.get body key = Throws e -> body = JNull \/ body = JUndefined.
Proof.
  destruct body as [| | | | | |fields]; simpl; auto; try discriminate.
  destruct (Json.lookup key fields); discriminate.
Qed.

(** X7.  The handler answers every request with the success response or
    one of its five error responses, and with the internal-error response
    exactly for a malformed request: a body that is no JSON or is [null], or
    a path that is truthy while the [fileLimit] cannot be converted or the
    path is no string.  Nothing the file system does leads there. *)
Theorem POST_response_cases (host : Host) (request : Outcome JValue) :
  ((exists structure scanned count limit,
      POST host request = Success structure scanned count limit)
   \/ In (POST host request)
        [InvalidInput; AccessDenied; NotFound; NotADirectory; InternalError])
  /\ (POST host request = InternalError <-> Malformed request).
Proof.
  destruct request as [body|e].
  2:{ split; [right; simpl; tauto|].
      split; [intros _; left; eauto|reflexivity]. }
  destruct (Json.get body "path") as [requested|e] eqn:Hpath.
  2:{ assert (Hpost : POST host (Returns body) = InternalError)
        by (unfold POST, handle, bind; now rewrite Hpath).
      split; [right; rewrite Hpost; simpl; tauto|].
      split; [intros _|intros _; exact Hpost].
      destruct (get_Throws _ _ _ Hpath) as [->| ->];
        [right; left; reflexivity|right; right; left; reflexivity]. }
  destruct (Json.get body "fileLimit") as [fileLimit|e] eqn:Hlimit.
  2:{ destruct (get_Throws _ _ _ Hlimit) as [->| ->]; discriminate. }
  assert (Hinv : Malformed (Returns body) ->
            Json.truthy requested = true
            /\ ((exists e,
                   validateLimit (Json.orDefault fileLimit (JNum 20)) = Throws e)
                \/ (forall s, requested <> JStr s))).
  { intros [[e [=]]|[[= ->]|[[= ->]|(b & r & f & [= <-] & Hp & Hf & Ht & Hbad)]]];
      try discriminate.
    rewrite Hpath in Hp. injection Hp as <-.
    rewrite Hlimit in Hf. injection Hf as <-. auto. }
  pose proof (POST_fields host body requested fileLimit Hpath Hlimit) as Hpost.
  destruct (Json.truthy requested) eqn:Htruthy; simpl in Hpost.
  2:{ split; [right; rewrite Hpost; simpl; tauto|].
      rewrite Hpost. split; [discriminate|].
      intros H. apply Hinv in H. destruct H as [H _]. discriminate. }
  assert (Hbad : (exists e,
                    validateLimit (Json.orDefault fileLimit (JNum 20)) = Throws e)
                 \/ (forall s, requested <> JStr s) ->
                 Malformed (Returns body)).
  { intros H. right. right. right. exists body, requested, fileLimit. auto. }
  destruct (validateLimit (Json.orDefault fileLimit (JNum 20))) as [limit|e]
    eqn:Hvalid.
  2:{ split; [right; rewrite Hpost; simpl; tauto|].
      rewrite Hpost. split; [intros _; apply Hbad; left; eauto|reflexivity]. }
  destruct requested as [| | | |requestedPath| |];
    try (split; [right; rewrite Hpost; simpl; tauto|];
         rewrite Hpost;
         split; [intros _; apply Hbad; right; intros s; discriminate
                |reflexivity]).
  destruct (scanDirectory_returns (platform host) (collate host) limit
              (readdir host (resolvePath host requestedPath)) "")
    as [structure Hscan].
  rewrite Hscan in Hpost. rewrite Hpost.
  assert (Hwell : ~ Malformed (Returns body)).
  { intros H. apply Hinv in H. destruct H as [_ [[e He]|Hno]];
      [discriminate|now apply (Hno requestedPath)]. }
  destruct (isAllowed host (resolvePath host requestedPath)); simpl.
  - destruct (stat host (resolvePath host requestedPath)) as [[|]|e].
    + split; [left; eauto|]. split; [discriminate|intros H; now contradiction Hwell].
    + split; [right; simpl; tauto|].
      split; [discriminate|intros H; now contradiction Hwell].
    + split; [right; simpl; tauto|].
      split; [discriminate|intros H; now contradiction Hwell].
  - split; [right; simpl; tauto|].
    split; [discriminate|intros H; now contradiction Hwell].
Qed.

(** X8.  A success response is backed by the checks and keeps the bounds:
    the scanned path is the resolved request path, it passed the allow-list
    and [fs.stat] found a directory; the reported limit lies in [1, 100]; no
    level of the structure holds more nodes than that limit; and [count] is
    the number of nodes of the whole structure. *)
Theorem success_response_sound (host : Host) (request : Outcome JValue)
    (structure : list FileNode) (scanned : string) (count : nat) (limit : Z) :
  POST host request = Success structure scanned count limit ->
  isAllowed host scanned = true
  /\ stat host scanned = Returns true
  /\ (exists body requestedPath,
        request = Returns body
        /\ Json.get body "path" = Returns (JStr requestedPath)
        /\ scanned = resolvePath host requestedPath)
  /\ 1 <= limit <= 100
  /\ (forall parent sibs,
        In (parent, sibs) (levels structure) ->
        Z.of_nat (List.length sibs) <= limit)
  /\ count = List.length (located structure).
Proof.
  intros Hpost.
  destruct (POST_Success_inv host request structure scanned count limit Hpost)
    as (body & requestedPath & fileLimit & Hreq & Hpath & _ & _ & Hvalid
        & Hscanned & Hallowed & Hstat & Hscan & Hcount).
  pose proof (validateLimit_range _ _ Hvalid) as Hrange.
  split; [exact Hallowed|]. split; [exact Hstat|].
  split; [exists body, requestedPath; auto|].
  split; [exact Hrange|]. split.
  - intros parent sibs Hlevel.
    exact (proj1 (level_bound (platform host) (collate host) limit
                    (readdir host scanned) "" structure (proj1 Hrange) Hscan
                    parent sibs Hlevel)).
  - rewrite Hcount. apply countNodes_located.
Qed.

Lemma success_response_sound_witness :
  exists structure count,
    POST sampleHost (requestFor "/tmp/project")
    = Success structure "/tmp/project" count 20
    /\ count = List.length (located structure)
    /\ count = 4%nat.
Proof.
  eexists. eexists. split; [reflexivity|].
  split; [|reflexivity].
  exact (proj2 (proj2 (proj2 (proj2 (proj2
           (success_response_sound sampleHost (requestFor "/tmp/project")
              _ _ _ _ eq_refl)))))).
Defined.

(** X9.  Validating a limit is idempotent: a limit the handler applied, sent
    back as the [fileLimit] of a request, is applied unchanged. *)
Theorem validateLimit_idempotent (fileLimit : JValue) (limit : Z) :
  validateLimit fileLimit = Returns limit ->
  validateLimit (JNum limit) = Returns limit.
Proof.
  intros Hvalid. apply validateLimit_fixed.
  exact (validateLimit_range fileLimit limit Hvalid).
Qed.

Lemma validateLimit_idempotent_witness :
  validateLimit (JStr " 250 files") = Returns 100
  /\ validateLimit (JNum 100) = Returns 100.
Proof.
  split; [reflexivity|].
  exact (validateLimit_idempotent (JStr " 250 files") 100 eq_refl).
Defined.

(** ** The allow-list *)

Lemma prefix_append (p s t : string) :
  String.prefix p s = true -> String.prefix p (s ++ t) = true.
Proof.
  revert p. induction s as [|d s IH]; intros p.
  - destruct p; [|discriminate]. intros _. destruct t; reflexivity.
  - destruct p as [|c p]; [reflexivity|]. simpl.
    destruct (ascii_dec c d); [apply IH|discriminate].
Qed.

Lemma includes_append (haystack needle t : string) :
  includes haystack needle = true -> includes (haystack ++ t) needle = true.
Proof.
  induction haystack as [|c h IH]; simpl.
  - rewrite orb_false_r. intros Hp.
    destruct needle; [|discriminate].
    destruct t; reflexivity.
  - intros H. apply orb_true_iff in H. apply orb_true_iff.
    destruct H as [H|H].
    + left. exact (prefix_append needle (String c h) t H).
    + right. now apply IH.
Qed.

Lemma upperOfFirst_append (s more : string) (letter : ascii) :
  upperOfFirst s = Some letter -> upperOfFirst (s ++ more) = Some letter.
Proof.
  assert (Hmore : forall r p,
            startsWith r p = true -> startsWith (r ++ more) p = true)
    by (intros r p; apply prefix_append).
  destruct s as [|c r]; [discriminate|].
  change (String c r ++ more)%string with (String c (r ++ more)%string).
  unfold upperOfFirst. destruct (nat_of_ascii c <? 128)%nat; [auto|].
  let i := eval vm_compute in (utf8 305) in change (utf8 305) with i.
  let s := eval vm_compute in (utf8 383) in change (utf8 383) with s.
  rewrite !(startsWith_cons c).
  match goal with
  | |- context [Ascii.eqb ?a c] => destruct (Ascii.eqb_spec a c) as [<-|_]
  end; cbn [andb].
  - destruct (startsWith r _) eqn:Hi; [now rewrite (Hmore _ _ Hi)|].
    cbn [Ascii.eqb Bool.eqb andb]. discriminate.
  - match goal with
    | |- context [Ascii.eqb ?a c] => destruct (Ascii.eqb_spec a c) as [<-|_]
    end; cbn [andb]; [|discriminate].
    destruct (startsWith r _) eqn:Hs; [now rewrite (Hmore _ _ Hs)|discriminate].
Qed.

(** X10.  The allow-list is a test on the text of the resolved path only:
    whatever extends an accepted path is accepted too, on either platform
    (so every path below an accepted directory, and every path that merely
    starts with the same characters). *)
Theorem isAllowed_extends (host : Host) (resolvedPath more : string) :
  isAllowed host resolvedPath = true ->
  isAllowed host (resolvedPath ++ more) = true.
Proof.
  unfold isAllowed, startsWith. destruct (platform host).
  - rewrite !orb_true_iff.
    intros [[[[H|H]|H]|H]|H];
      [left; left; left; left|left; left; left; right|left; left; right
      |left; right|right];
      now apply prefix_append.
  - destruct (upperOfFirst resolvedPath) as [letter|] eqn:Hletter; [|discriminate].
    rewrite (upperOfFirst_append resolvedPath more letter Hletter).
    rewrite !andb_true_iff. intros [Hdrive Hcolon]. split; [exact Hdrive|].
    exact (includes_append resolvedPath _ more Hcolon).
Qed.

Lemma isAllowed_extends_witness :
  isAllowed sampleHost "/tmp" = true
  /\ isAllowed sampleHost ("/tmp" ++ "-other/secret") = true.
Proof.
  split; [reflexivity|].
  exact (isAllowed_extends sampleHost "/tmp" "-other/secret" eq_refl).
Defined.

(** ** The page *)

(** X11.  What the page posts is never malformed: whatever the path field
    and the limit input hold, the limit it sends lies in [1, 100], the
    handler answers neither "Path is required" nor the internal-error
    response, and a success response reports the page's own limit. *)
Theorem page_request_well_formed (host : Host) (path : option string)
    (selectedPath : string) (limit : Z) :
  Page.LimitState limit ->
  1 <= limit <= 100
  /\ POST host (Returns (Page.requestBody path selectedPath limit)) <> InvalidInput
  /\ POST host (Returns (Page.requestBody path selectedPath limit)) <> InternalError
  /\ (forall structure scanned count applied,
        POST host (Returns (Page.requestBody path selectedPath limit))
        = Success structure scanned count applied ->
        applied = limit).
Proof.
  intros Hstate.
  assert (Hrange : 1 <= limit <= 100).
  { destruct Hstate as [|value]; [lia|]. unfold Page.limitFromInput. lia. }
  split; [exact Hrange|].
  set (sent := Page.orElse
                 (Page.orElse match path with Some p => p | None => "" end
                    selectedPath) ".").
  assert (Hsent : sent <> "").
  { unfold sent, Page.orElse.
    destruct (String.eqb_spec
                (if (match path with Some p => p | None => "" end =? "")%string
                 then selectedPath
                 else match path with Some p => p | None => "" end) "")
      as [_|Hne]; [discriminate|exact Hne]. }
  pose proof (POST_checks host (Page.requestBody path selectedPath limit)
                sent (JNum limit) limit eq_refl Hsent eq_refl
                (validateLimit_fixed limit Hrange)) as Hpost.
  destruct (scanDirectory_returns (platform host) (collate host) limit
              (readdir host (resolvePath host sent)) "") as [structure Hscan].
  rewrite Hscan in Hpost. rewrite Hpost.
  destruct (isAllowed host (resolvePath host sent)); simpl;
    [|repeat split; discriminate].
  destruct (stat host (resolvePath host sent)) as [[|]|e];
    repeat split; try discriminate.
  intros structure' scanned count applied [= _ _ _ <-]. reflexivity.
Qed.

Lemma page_request_well_formed_witness :
  POST sampleHost (Returns (Page.requestBody None "" (Page.limitFromInput "0")))
  <> InvalidInput
  /\ Page.limitFromInput "0" = 20.
Proof.
  split; [|reflexivity].
  exact (proj1 (proj2 (page_request_well_formed sampleHost None ""
                         (Page.limitFromInput "0")
                         (Page.LimitState_changed "0")))).
Defined.

(** ** The exports *)

Lemma fold_append {A : Type} (f : A -> string) (l : list A) (acc : string) :
  fold_left (fun result n => (result ++ f n)%string) l acc
  = (acc ++ fold_left (fun result n => (result ++ f n)%string) l "")%string.
Proof.
  revert acc. induction l as [|x l IH]; intros acc; simpl.
  - now rewrite append_nil_r.
  - rewrite IH, (IH (f x)). now rewrite append_assoc.
Qed.

Lemma fold_append_ext {A : Type} (f g : A -> string) (l : list A) (acc : string) :
  Forall (fun x => f x = g x) l ->
  fold_left (fun result n => (result ++ f n)%string) l acc
  = fold_left (fun result n => (result ++ g n)%string) l acc.
Proof.
  intros H. revert acc. induction H as [|x l Hx _ IH]; intros acc; simpl;
    [reflexivity|].
  now rewrite Hx, IH.
Qed.

Section RenderFacts.

Variable head tail leaf : nat -> FileNode -> string.

Lemma renderNode_eq (indent : nat) (node : FileNode) :
  renderNode head tail leaf indent node
  = match type node with
    | folder =>
        (head indent node
         ++ match children node with
            | Some (c :: cs) => render head tail leaf (c :: cs) (S indent)
            | _ => ""
            end
         ++ tail indent node)%string
    | file => leaf indent node
    end.
Proof. destruct node as [nm pth ty [[|c cs]|] tr tc]; destruct ty; reflexivity. Qed.

Lemma render_cons (n : FileNode) (nodes : list FileNode) (indent : nat) :
  render head tail leaf (n :: nodes) indent
  = (renderNode head tail leaf indent n ++ render head tail leaf nodes indent)%string.
Proof. unfold render. simpl. apply fold_append. Qed.

Lemma pieces_app (a b : list string) :
  pieces (a ++ b) = (pieces a ++ pieces b)%string.
Proof.
  induction a as [|x a IH]; simpl; [reflexivity|].
  now rewrite IH, append_assoc.
Qed.

Lemma render_flat (place : FileNode -> list (list string * FileNode))
    (indent : nat) (nodes : list FileNode) :
  (forall m, In m nodes ->
             renderNode head tail leaf indent m
             = pieces (map (renderEntry head tail leaf) (place m))) ->
  render head tail leaf nodes indent
  = pieces (map (renderEntry head tail leaf) (flat_map place nodes)).
Proof.
  induction nodes as [|m nodes IH]; intros H; [reflexivity|].
  rewrite render_cons. cbn [flat_map].
  rewrite map_app, pieces_app, (H m) by now left.
  f_equal. apply IH. intros m' Hm'. apply H. now right.
Qed.

Variable plat : Platform.
Variable localeCompare : string -> string -> Z.
Variable fileLimit : Z.

Hypothesis tail_truncated :
  forall indent node, truncated node = None -> tail indent node = "".

(** The export of a scan result is made of the entries of its nodes, in
    the order of the tree, every one at the depth of its node: a folder with
    children is no sentinel and has no tail, so what follows its line is its
    children. *)
Lemma render_located (root : Outcome (list Dirent)) :
  forall basePath nodes,
    scanDirectory plat localeCompare fileLimit root basePath = Returns nodes ->
    forall above0,
      render head tail leaf nodes (List.length above0)
      = pieces (map (renderEntry head tail leaf)
                  (flat_map (locatedBelow above0) nodes)).
Proof using tail_truncated.
  apply (scanDirectory_ind plat localeCompare fileLimit
           (fun root basePath nodes =>
              forall above0,
                render head tail leaf nodes (List.length above0)
                = pieces (map (renderEntry head tail leaf)
                            (flat_map (locatedBelow above0) nodes)))).
  - intros e basePath above0. reflexivity.
  - intros items basePath nodes Hscan IH above0.
    apply render_flat. intros m Hm.
    pose proof (scanDirectory_NodeOf _ _ _ _ _ _ _ Hscan Hm) as Hnode.
    rewrite locatedBelow_eq, renderNode_eq.
    assert (Hcons : forall x l, pieces (x :: l) = (x ++ pieces l)%string)
      by reflexivity.
    destruct Hnode as [->|e Hn Hvis ->|e sub cs Hn Hvis Hcs ->];
      cbn [type children name map renderEntry fst snd sentinel];
      rewrite Hcons.
    + change (pieces []) with "". now rewrite append_nil_r.
    + change (pieces []) with "". now rewrite append_nil_r.
    + match goal with
      | |- context [tail ?d ?node] =>
          rewrite (tail_truncated d node eq_refl)
      end.
      rewrite !append_nil_r.
      destruct cs as [|c cs]; [reflexivity|].
      change (nonEmpty (c :: cs)) with (Some (c :: cs)). cbv iota.
      pose proof (IH e sub (c :: cs) Hn Hvis Hcs (above0 ++ [e])) as Hbelow.
      rewrite length_app, Nat.add_1_r in Hbelow.
      now rewrite Hbelow.
Qed.

End RenderFacts.

Lemma locatedBelow_level (m : FileNode) :
  forall above0 above n,
    In (above, n) (locatedBelow above0 m) ->
    n = m
    \/ exists parent sibs, In (parent, sibs) (levelsBelow m) /\ In n sibs.
Proof.
  induction m as [nm pth ty tr tc|nm pth ty cs tr tc IH] using FileNode_nested_ind;
    intros above0 above n; rewrite locatedBelow_eq, levelsBelow_eq; simpl.
  - intros [[= _ <-]|[]]. now left.
  - intros [[= _ <-]|Hin]; [now left|]. right.
    apply in_flat_map in Hin. destruct Hin as (x & Hx & Hin).
    rewrite Forall_forall in IH.
    destruct (IH x Hx _ _ _ Hin) as [->|(parent & sibs & Hlevel & Hn)].
    + eexists. exists cs. split; [left; reflexivity|exact Hx].
    + exists parent, sibs. split; [|exact Hn].
      right. apply in_flat_map. exists x. auto.
Qed.

Lemma located_level (nodes : list FileNode) (above : list string) (n : FileNode) :
  In (above, n) (located nodes) ->
  exists parent sibs, In (parent, sibs) (levels nodes) /\ In n sibs.
Proof.
  unfold located, levels. intros Hin.
  apply in_flat_map in Hin. destruct Hin as (m & Hm & Hin).
  destruct (locatedBelow_level m _ _ _ Hin) as [->|(parent & sibs & Hlevel & Hn)].
  - exists None, nodes. split; [now left|exact Hm].
  - exists parent, sibs. split; [|exact Hn].
    right. apply in_flat_map. exists m. auto.
Qed.

Section ExportFacts.

Variable folderMark fileMark : string.

Lemma textOfNode_render (node : FileNode) :
  forall indent,
    Page.textOfNode folderMark fileMark indent node
    = renderNode (textHead folderMark) textTail (textLeaf fileMark) indent node.
Proof.
  induction node as [nm pth ty tr tc|nm pth ty cs tr tc IH]
    using FileNode_nested_ind; intros indent.
  - destruct ty; reflexivity.
  - destruct ty; [reflexivity|]. destruct cs as [|c cs]; [reflexivity|].
    cbn [Page.textOfNode renderNode type children].
    unfold textHead, textTail. cbn [name].
    apply (f_equal2 String.append); [reflexivity|].
    apply (f_equal2 String.append); [|reflexivity].
    apply fold_append_ext. eapply Forall_impl; [|exact IH].
    intros n Hn. apply Hn.
Qed.

Lemma generateTextStructure_render (nodes : list FileNode) (indent : nat) :
  Page.generateTextStructure folderMark fileMark nodes indent
  = render (textHead folderMark) textTail (textLeaf fileMark) nodes indent.
Proof.
  unfold Page.generateTextStructure, render. apply fold_append_ext.
  apply Forall_forall. intros n _. apply textOfNode_render.
Qed.

Lemma markdownOfNode_render (node : FileNode) :
  forall indent,
    Page.markdownOfNode folderMark fileMark indent node
    = renderNode (markdownHead folderMark) markdownTail (markdownLeaf fileMark)
        indent node.
Proof.
  induction node as [nm pth ty tr tc|nm pth ty cs tr tc IH]
    using FileNode_nested_ind; intros indent.
  - destruct ty; reflexivity.
  - destruct ty; [reflexivity|]. destruct cs as [|c cs]; [reflexivity|].
    cbn [Page.markdownOfNode renderNode type children].
    unfold markdownHead, markdownTail. cbn [name].
    apply (f_equal2 String.append); [reflexivity|].
    apply (f_equal2 String.append); [|reflexivity].
    apply fold_append_ext. eapply Forall_impl; [|exact IH].
    intros n Hn. apply Hn.
Qed.

Lemma generateMarkdownStructure_render (nodes : list FileNode) (indent : nat) :
  Page.generateMarkdownStructure folderMark fileMark nodes indent
  = render (markdownHead folderMark) markdownTail (markdownLeaf fileMark)
      nodes indent.
Proof.
  unfold Page.generateMarkdownStructure, render. apply fold_append_ext.
  apply Forall_forall. intros n _. apply markdownOfNode_render.
Qed.

Lemma textTail_truncated (indent : nat) (node : FileNode) :
  truncated node = None -> textTail indent node = "".
Proof. unfold textTail, Page.truncatedCount. now intros ->. Qed.

Lemma markdownTail_truncated (indent : nat) (node : FileNode) :
  truncated node = None -> markdownTail indent node = "".
Proof. unfold markdownTail, Page.truncatedCount. now intros ->. Qed.

Variable plat : Platform.
Variable localeCompare : string -> string -> Z.
Variable fileLimit : Z.

(** The entry of a node of a scan result, spelled out: only a sentinel
    carries a [totalCount], which is not 0, and it has no children to
    subtract. *)
Lemma entry_located (root : Outcome (list Dirent)) (basePath : string)
    (nodes : list FileNode) (place : list string * FileNode) :
  scanDirectory plat localeCompare fileLimit root basePath = Returns nodes ->
  In place (located nodes) ->
  renderEntry (textHead folderMark) textTail (textLeaf fileMark) place
  = textEntry folderMark fileMark place
  /\ renderEntry (markdownHead folderMark) markdownTail (markdownLeaf fileMark) place
     = markdownEntry folderMark fileMark place.
Proof.
  intros Hscan Hplace. destruct place as [above n].
  destruct (located_level nodes above n Hplace) as (parent & sibs & Hlevel & Hn).
  destruct (level_listing plat localeCompare fileLimit root basePath nodes
              parent sibs n Hscan Hlevel Hn) as (items & _ & Hsibs & Hnode & _).
  assert (Hsome : filteredCount items <> 0%nat).
  { intros Hzero. rewrite scanDirectory_Returns in Hsibs.
    pose proof (allItems_length plat localeCompare fileLimit
                  (prefixOf basePath parent) items) as Hlen.
    rewrite Hzero in Hlen.
    destruct (allItems plat localeCompare fileLimit (prefixOf basePath parent) items);
      [|discriminate Hlen].
    injection Hsibs as <-. destruct Hn. }
  unfold renderEntry, textEntry, markdownEntry, textHead, textLeaf, markdownHead,
    markdownLeaf, textTail, markdownTail, textMore, markdownMore,
    Page.truncatedCount, Page.moreFiles.
  destruct Hnode as [->|e _ _ ->|e sub cs _ _ _ ->];
    cbn [fst snd type name children truncated totalCount sentinel]; auto.
  apply Nat.eqb_neq in Hsome. rewrite Hsome. rewrite Z.sub_0_r.
  now rewrite !append_assoc.
Qed.

Lemma generateTextStructure_located (root : Outcome (list Dirent))
    (basePath : string) (nodes : list FileNode) :
  scanDirectory plat localeCompare fileLimit root basePath = Returns nodes ->
  Page.generateTextStructure folderMark fileMark nodes 0
  = pieces (map (textEntry folderMark fileMark) (located nodes)).
Proof.
  intros Hscan. rewrite generateTextStructure_render.
  pose proof (render_located (textHead folderMark) textTail (textLeaf fileMark)
                plat localeCompare fileLimit textTail_truncated
                root basePath nodes Hscan []) as Hrender.
  cbn [List.length] in Hrender. rewrite Hrender. fold (located nodes).
  f_equal. apply map_ext_in. intros place Hplace.
  exact (proj1 (entry_located root basePath nodes place Hscan Hplace)).
Qed.

Lemma generateMarkdownStructure_located (root : Outcome (list Dirent))
    (basePath : string) (nodes : list FileNode) :
  scanDirectory plat localeCompare fileLimit root basePath = Returns nodes ->
  Page.generateMarkdownStructure folderMark fileMark nodes 0
  = pieces (map (markdownEntry folderMark fileMark) (located nodes)).
Proof.
  intros Hscan. rewrite generateMarkdownStructure_render.
  pose proof (render_located (markdownHead folderMark) markdownTail
                (markdownLeaf fileMark) plat localeCompare fileLimit
                markdownTail_truncated root basePath nodes Hscan []) as Hrender.
  cbn [List.length] in Hrender. rewrite Hrender. fold (located nodes).
  f_equal. apply map_ext_in. intros place Hplace.
  exact (proj2 (entry_located root basePath nodes place Hscan Hplace)).
Qed.

End ExportFacts.

(** X12.  The two exports list the nodes of a scan result one after the
    other, in the order of the tree, and nothing else: the text export and
    the Markdown export are the entries of the nodes, every node in its own
    line, indented by two spaces for each folder above it (and a node that
    carries a [totalCount], which only a sentinel does, followed by the line
    of the "more files"). *)
Theorem exports_list_every_node (plat : Platform)
    (localeCompare : string -> string -> Z) (fileLimit : Z)
    (root : Outcome (list Dirent)) (basePath : string) (nodes : list FileNode)
    (folderMark fileMark : string) :
  scanDirectory plat localeCompare fileLimit root basePath = Returns nodes ->
  Page.generateTextStructure folderMark fileMark nodes 0
  = pieces (map (textEntry folderMark fileMark) (located nodes))
  /\ Page.generateMarkdownStructure folderMark fileMark nodes 0
     = pieces (map (markdownEntry folderMark fileMark) (located nodes)).
Proof.
  intros Hscan. split.
  - exact (generateTextStructure_located folderMark fileMark plat localeCompare
             fileLimit root basePath nodes Hscan).
  - exact (generateMarkdownStructure_located folderMark fileMark plat localeCompare
             fileLimit root basePath nodes Hscan).
Qed.

Lemma exports_list_every_node_witness :
  Page.generateTextStructure "[d]" "[f]"
    [ {| name := "src"; path := "src"; type := folder;
         children := Some [ {| name := "main.ts"; path := "src/main.ts";
                               type := file; children := None;
                               truncated := None; totalCount := None |};
                            sentinel "src" 3 ];
         truncated := None; totalCount := None |} ] 0
  = pieces [ "[d] src" ++ newline;
             "  [f] main.ts" ++ newline;
             ("  [d] ..." ++ newline) ++ "    ... (3 more files)" ++ newline ]%string.
Proof.
  exact (proj1 (exports_list_every_node Posix ordinalCompare 2
                  (Returns [DirEnt "src"
                              (Returns [FileEnt "y"; FileEnt "main.ts"; FileEnt "x"])])
                  "" _ "[d]" "[f]" eq_refl)).
Defined.

Lemma append_eq_nil (a b : string) : (a ++ b)%string = "" -> a = "" /\ b = "".
Proof. destruct a; simpl; [auto|discriminate]. Qed.

(** X13.  An export is the empty string only for the empty structure: every
    node contributes at least its own line. *)
Theorem exports_empty_only_for_empty (folderMark fileMark : string)
    (nodes : list FileNode) (indent : nat) :
  (Page.generateTextStructure folderMark fileMark nodes indent = "" <-> nodes = [])
  /\ (Page.generateMarkdownStructure folderMark fileMark nodes indent = ""
      <-> nodes = []).
Proof.
  assert (Hsome : forall head tail leaf n l,
            (forall d m, exists line rest,
                head d m = (line ++ newline ++ rest)%string) ->
            (forall d m, exists line rest,
                leaf d m = (line ++ newline ++ rest)%string) ->
            render head tail leaf (n :: l) indent <> "").
  { intros head tail leaf n l Hhead Hleaf H.
    rewrite render_cons in H. apply append_eq_nil in H. destruct H as [H _].
    rewrite renderNode_eq in H. destruct (type n).
    - destruct (Hleaf indent n) as (line & rest & E). rewrite E in H.
      apply append_eq_nil in H. destruct H as [_ H]. discriminate.
    - apply append_eq_nil in H. destruct H as [H _].
      destruct (Hhead indent n) as (line & rest & E). rewrite E in H.
      apply append_eq_nil in H. destruct H as [_ H]. discriminate. }
  assert (Hline : forall a b, exists line rest,
            (a ++ b ++ newline)%string = (line ++ newline ++ rest)%string).
  { intros a b. exists (a ++ b)%string, "". simpl. now rewrite append_assoc. }
  rewrite generateTextStructure_render, generateMarkdownStructure_render.
  split; (split; [|intros ->; reflexivity]);
    destruct nodes as [|n l]; try reflexivity; intros H; exfalso; revert H;
    apply Hsome; intros d m.
  - unfold textHead.
    destruct (Hline (Page.indentStr d) (folderMark ++ " " ++ name m)%string)
      as (line & rest & E).
    exists line, rest. rewrite <- E. now rewrite !append_assoc.
  - unfold textLeaf.
    destruct (Hline (Page.indentStr d) (fileMark ++ " " ++ name m)%string)
      as (line & rest & E).
    exists line, rest. rewrite <- E. now rewrite !append_assoc.
  - unfold markdownHead.
    destruct (Hline (Page.indentStr d)
                ("- " ++ folderMark ++ " **" ++ name m ++ "**")%string)
      as (line & rest & E).
    exists line, rest. rewrite <- E. now rewrite !append_assoc.
  - unfold markdownLeaf.
    destruct (Hline (Page.indentStr d) ("- " ++ fileMark ++ " " ++ name m)%string)
      as (line & rest & E).
    exists line, rest. rewrite <- E. now rewrite !append_assoc.
Qed.

(** X14.  What the page shows for a truncation: under a positive limit,
    for every sentinel of a scan result the text and the Markdown export
    print, right after the line of the sentinel and two spaces deeper, its
    [totalCount] itself as the number of "more files" (the count of all the
    entries of the directory that pass the filter, which is more than the
    limit); what precedes and what follows are the entries of the nodes
    before and after the sentinel.  The tree widget computes 0 for it,
    because a sentinel has no children field. *)
Theorem sentinel_counts_shown (plat : Platform)
    (localeCompare : string -> string -> Z) (fileLimit : Z)
    (root : Outcome (list Dirent)) (basePath : string) (nodes : list FileNode)
    (folderMark fileMark : string) :
  1 <= fileLimit ->
  scanDirectory plat localeCompare fileLimit root basePath = Returns nodes ->
  forall above n,
    In (above, n) (located nodes) ->
    isSentinel n = true ->
    exists total before after,
      totalCount n = Some total
      /\ fileLimit < Z.of_nat total
      /\ located nodes = before ++ (above, n) :: after
      /\ Page.generateTextStructure folderMark fileMark nodes 0
         = (pieces (map (textEntry folderMark fileMark) before)
            ++ ((Page.indentStr (List.length above) ++ folderMark ++ " ..."
                 ++ newline)
                ++ Page.indentStr (List.length above) ++ "  ... ("
                ++ Json.numberToString (Z.of_nat total) ++ " more files)"
                ++ newline)
            ++ pieces (map (textEntry folderMark fileMark) after))%string
      /\ Page.generateMarkdownStructure folderMark fileMark nodes 0
         = (pieces (map (markdownEntry folderMark fileMark) before)
            ++ ((Page.indentStr (List.length above) ++ "- " ++ folderMark
                 ++ " **...**" ++ newline)
                ++ Page.indentStr (List.length above) ++ "  - *... ("
                ++ Json.numberToString (Z.of_nat total) ++ " more files)*"
                ++ newline)
            ++ pieces (map (markdownEntry folderMark fileMark) after))%string
      /\ Page.moreFilesShown n = 0.
Proof.
  intros Hpos Hscan above n Hin Hsent.
  destruct (located_level nodes above n Hin) as (parent & sibs & Hlevel & Hn).
  destruct (level_layout plat localeCompare fileLimit root basePath nodes
              parent sibs Hpos Hscan Hlevel) as [->|(items & _ & Hsibs)];
    [destruct Hn|].
  assert (Hn' : n = sentinel (prefixOf basePath parent) (filteredCount items)
                /\ fileLimit < Z.of_nat (filteredCount items)).
  { destruct (Z.leb_spec (Z.of_nat (filteredCount items)) fileLimit) as [HN|HN];
      subst sibs.
    - apply emitted_real in Hn. congruence.
    - apply in_app_or in Hn. destruct Hn as [Hn|[<-|[]]]; [|auto].
      apply emitted_real in Hn. congruence. }
  destruct Hn' as [Hn' Hmore].
  destruct (in_split _ _ Hin) as (before & after & Hsplit).
  exists (filteredCount items), before, after.
  split; [now subst n|]. split; [exact Hmore|]. split; [exact Hsplit|].
  split; [|split; [|now subst n]].
  - rewrite (generateTextStructure_located folderMark fileMark plat localeCompare
               fileLimit root basePath nodes Hscan).
    rewrite Hsplit, map_app, pieces_app. f_equal. subst n. reflexivity.
  - rewrite (generateMarkdownStructure_located folderMark fileMark plat
               localeCompare fileLimit root basePath nodes Hscan).
    rewrite Hsplit, map_app, pieces_app. f_equal. subst n. reflexivity.
Qed.

Lemma sentinel_counts_shown_witness :
  exists before after,
    located [ {| name := "a"; path := "a"; type := file; children := None;
                 truncated := None; totalCount := None |};
              sentinel "" 3 ]
    = before ++ ([], sentinel "" 3) :: after
    /\ Page.generateTextStructure "[d]" "[f]"
         [ {| name := "a"; path := "a"; type := file; children := None;
              truncated := None; totalCount := None |};
           sentinel "" 3 ] 0
       = (pieces (map (textEntry "[d]" "[f]") before)
          ++ (("[d] ..." ++ newline) ++ "  ... (3 more files)" ++ newline)
          ++ pieces (map (textEntry "[d]" "[f]") after))%string
    /\ Page.moreFilesShown (sentinel "" 3) = 0.
Proof.
  assert (Hpos : 1 <= 2) by lia.
  destruct (sentinel_counts_shown Posix ordinalCompare 2
              (Returns [FileEnt "a"; FileEnt "b"; FileEnt "c"]) ""
              [ {| name := "a"; path := "a"; type := file; children := None;
                   truncated := None; totalCount := None |};
                sentinel "" 3 ]
              "[d]" "[f]" Hpos eq_refl [] (sentinel "" 3)
              (or_intror (or_introl eq_refl)) eq_refl)
    as (total & before & after & Htotal & _ & Hsplit & Htext & _ & Hshown).
  injection Htotal as <-.
  exists before, after. split; [exact Hsplit|]. split; [exact Htext|exact Hshown].
Defined.

(** ** Directories without a visible entry *)

Lemma processItems_length (fileLimit : Z) (basePath : string) (total : nat)
    (rest : list Item) :
  forall i nodes,
    (List.length nodes + match rest with [] => 0 | _ :: _ => 1 end
     <= List.length (processItems fileLimit basePath total i rest nodes))%nat.
Proof.
  induction rest as [|item rest IH]; intros i nodes; simpl; [lia|].
  destruct ((fileLimit <=? Z.of_nat (List.length (nodes ++ [emit item])))
            && (Z.of_nat i <? Z.of_nat total - 1)).
  - rewrite removelast_last, length_app. simpl. lia.
  - specialize (IH (S i) (nodes ++ [emit item])).
    rewrite length_app in IH. simpl in IH. lia.
Qed.

(** X15.  Whatever the limit, the scan of a readable directory is empty
    exactly when none of its entries passes the filter: a directory that
    holds hidden entries only scans like an empty or an unreadable one, and
    one visible entry is enough for a node to come out. *)
Theorem scan_empty_iff_nothing_visible (plat : Platform)
    (localeCompare : string -> string -> Z) (fileLimit : Z)
    (items : list Dirent) (basePath : string) :
  scanDirectory plat localeCompare fileLimit (Returns items) basePath = Returns []
  <-> forall d, In d items -> visible (dirent_name d) = false.
Proof.
  assert (Hnone : (forall d, In d items -> visible (dirent_name d) = false) <->
                  filter (fun d => visible (dirent_name d)) items = []).
  { induction items as [|d l IH]; simpl; [tauto|].
    destruct (visible (dirent_name d)) eqn:E.
    - split; [intros H; specialize (H d (or_introl eq_refl)); congruence
             |discriminate].
    - rewrite <- IH. split; [auto|intros H d' [<-|Hd']; auto]. }
  rewrite Hnone, scanDirectory_Returns.
  pose proof (allItems_length plat localeCompare fileLimit basePath items) as Hlen.
  pose proof (processItems_length fileLimit basePath (filteredCount items)
                (allItems plat localeCompare fileLimit basePath items) 0 [])
    as Hlong.
  unfold filteredCount in Hlen.
  destruct (allItems plat localeCompare fileLimit basePath items) as [|x xs].
  - symmetry in Hlen. apply length_zero_iff_nil in Hlen.
    split; [intros _; exact Hlen|reflexivity].
  - remember (processItems fileLimit basePath (filteredCount items) 0 (x :: xs) [])
      as out eqn:Eout.
    split.
    + intros [= ->]. simpl in Hlong. lia.
    + intros H. rewrite H in Hlen. discriminate.
Qed.

Lemma scan_empty_iff_nothing_visible_witness :
  scanDirectory Posix ordinalCompare 20
    (Returns [FileEnt ".env"; DirEnt ".git" (Returns [FileEnt "HEAD"]);
              DirEnt "node_modules" (Returns [])]) "pkg"
  = Returns [].
Proof.
  apply (proj2 (scan_empty_iff_nothing_visible Posix ordinalCompare 20
                  [FileEnt ".env"; DirEnt ".git" (Returns [FileEnt "HEAD"]);
                   DirEnt "node_modules" (Returns [])] "pkg")).
  intros d [<-|[<-|[<-|[]]]]; reflexivity.
Defined.

(** X16.  Entries that the filter drops have no influence on the scan of
    their directory: it returns what it returns for the listing without
    them, whatever the limit. *)
Theorem hidden_entries_do_not_matter (plat : Platform)
    (localeCompare : string -> string -> Z) (fileLimit : Z)
    (items : list Dirent) (basePath : string) :
  scanDirectory plat localeCompare fileLimit (Returns items) basePath
  = scanDirectory plat localeCompare fileLimit
      (Returns (filter (fun d => visible (dirent_name d)) items)) basePath.
Proof.
  assert (Hfilter : forall l,
            filter (fun d => visible (dirent_name d))
              (filter (fun d => visible (dirent_name d)) l)
            = filter (fun d => visible (dirent_name d)) l).
  { intros l. induction l as [|d l IH]; simpl; [reflexivity|].
    destruct (visible (dirent_name d)) eqn:E; simpl; [|exact IH].
    now rewrite E, IH. }
  unfold scanDirectory, scanBody. simpl.
  now rewrite (collect_filter plat _ basePath items),
    (collect_filter plat _ basePath (filter _ items)), Hfilter.
Qed.
